(** * The zkSNARK teaching pipeline: field, curve, R1CS, QAP, protocol

    A shallow embedding of [field.h], [elliptic_curve.h], [r1cs.h], [qap.h]
    and [zksnark.h], followed by the properties of the pipeline.

    Conventions of the embedding:
    - [uint64_t], [int64_t] and [int] values are integers of [Z]; where a
      conversion between them can wrap, the wrap is written out;
    - a C++ exception is the [Err] case of the [outcome] type, one
      constructor of [error] per message thrown by the sources;
    - [std::vector] is [list]; [v[i]] is [nth i v d], and the theorems carry
      the shape hypotheses under which every index is in range (an index out
      of range is undefined behaviour in the sources);
    - the process-wide curve parameters of [ECPoint] are passed explicitly;
    - the random scalars drawn by [randomScalar] are passed explicitly. *)

From Stdlib Require Import ZArith Lia List Bool Ring Eqdep_dec.
From Stdlib Require Import Zmod.ZmodInv.
Import ListNotations.
Local Open Scope Z_scope.

(** ** Outcomes of fallible operations *)

Inductive error : Type :=
| CannotInvertZero            (* field.h: "Cannot invert zero" *)
| ValueNotInvertible          (* field.h: "Value is not invertible" *)
| ConstraintIndexOutOfBounds  (* r1cs.h: "Constraint index out of bounds" *)
| SizesMustMatch              (* qap.h: "x and y value sizes must match" *)
| OutOfBoundsAccess           (* operator[] outside the vector: undefined *)
| LoopFuelExhausted.          (* the bound put on a [while] loop was reached *)

Inductive outcome (A : Type) : Type :=
| Ok (a : A)
| Err (e : error).

Arguments Ok {A} a.
Arguments Err {A} e.

Definition bind {A B : Type} (m : outcome A) (k : A -> outcome B) : outcome B :=
  match m with
  | Ok a => k a
  | Err e => Err e
  end.

Notation "x <- m ;; k" := (bind m (fun x => k))
  (at level 61, m at next level, right associativity).

Definition succeeds {A : Type} (m : outcome A) : Prop := exists a, m = Ok a.

(** ** field.h *)

Definition SMALL_PRIME : Z := 2147483647.

Definition in_field (v : Z) : bool := (0 <=? v) && (v <? SMALL_PRIME).

(** The class keeps [value] private and every constructor reduces modulo
    [SMALL_PRIME]: an object always holds [0 <= value < SMALL_PRIME]. *)
Record FieldElement : Type := mkFieldElement {
  value : Z;
  value_in_field : in_field value = true
}.

Lemma in_field_mod (v : Z) : in_field (v mod SMALL_PRIME) = true.
Proof.
  unfold in_field.
  pose proof (Z.mod_pos_bound v SMALL_PRIME eq_refl) as [H0 H1].
  apply andb_true_intro; split; [apply Z.leb_le | apply Z.ltb_lt]; assumption.
Qed.

(** [FieldElement(uint64_t val) : value(val % SMALL_PRIME)] *)
Definition FE (val : Z) : FieldElement :=
  mkFieldElement (val mod SMALL_PRIME) (in_field_mod val).

Definition getValue (a : FieldElement) : Z := value a.

Definition fe_add (a b : FieldElement) : FieldElement :=
  FE ((value a + value b) mod SMALL_PRIME).

Definition fe_sub (a b : FieldElement) : FieldElement :=
  FE ((value a + SMALL_PRIME - value b) mod SMALL_PRIME).

Definition fe_mul (a b : FieldElement) : FieldElement :=
  FE ((value a * value b) mod SMALL_PRIME).

(** [operator==] and [operator!=] compare the stored values. *)
Definition fe_eqb (a b : FieldElement) : bool := value a =? value b.

(** The [while (newr != 0)] loop of [inverse()], on [int64_t] variables.
    [r / newr] is the truncating division of C++.  The variables stay
    within one modulus of zero ([inverse_inv]), far from the [int64_t]
    bounds, so the arithmetic is that of [Z]. *)
Fixpoint inverse_loop (fuel : nat) (t newt r newr : Z) : option (Z * Z) :=
  if newr =? 0 then Some (t, r)
  else
    match fuel with
    | O => None
    | S fuel' =>
        let quotient := Z.quot r newr in
        inverse_loop fuel' newt (t - quotient * newt)
                     newr (r - quotient * newr)
    end.

(** The remainder [newr] at least halves every two iterations and starts
    below [2^31], so 64 iterations are never reached ([inverse_loop_runs]). *)
Definition inverse_fuel : nat := 64.

(** [FieldElement(t)] with [t : int64_t]: the argument converts to
    [uint64_t] (modulo [2^64]) before the constructor reduces it. *)
Definition FE_of_int64 (t : Z) : FieldElement := FE (t mod 2 ^ 64).

Definition inverse (a : FieldElement) : outcome FieldElement :=
  if value a =? 0 then Err CannotInvertZero
  else
    match inverse_loop inverse_fuel 0 1 SMALL_PRIME (value a) with
    | None => Err LoopFuelExhausted
    | Some (t, r) =>
        if 1 <? r then Err ValueNotInvertible
        else
          let t := if t <? 0 then t + SMALL_PRIME else t in
          Ok (FE_of_int64 t)
    end.

(** [operator/]: this element times [other.inverse()] *)
Definition fe_div (a b : FieldElement) : outcome FieldElement :=
  i <- inverse b ;; Ok (fe_mul a i).

Definition fe_zero : FieldElement := FE 0.
Definition fe_one : FieldElement := FE 1.
Definition fe_opp (a : FieldElement) : FieldElement := fe_sub fe_zero a.

Declare Scope fe_scope.
Delimit Scope fe_scope with fe.
Bind Scope fe_scope with FieldElement.
Infix "+" := fe_add : fe_scope.
Infix "-" := fe_sub : fe_scope.
Infix "*" := fe_mul : fe_scope.
Notation "0" := fe_zero : fe_scope.
Notation "1" := fe_one : fe_scope.

(** ** qap.h: polynomials *)

(** A [Polynomial] is its [coefficients] vector; entry [i] is the
    coefficient of [x^i]. *)
Definition Polynomial : Type := list FieldElement.

(** [v[i] = e] on a vector. *)
Fixpoint update {T : Type} (l : list T) (i : nat) (e : T) : list T :=
  match l, i with
  | [], _ => []
  | _ :: tl, O => e :: tl
  | hd :: tl, S i' => hd :: update tl i' e
  end.

(** [v[i] = v[i] + c] *)
Definition add_at (v : list FieldElement) (i : nat) (c : FieldElement)
  : list FieldElement :=
  update v i (nth i v 0 + c)%fe.

(** [Polynomial::evaluate]: one pass with a running power of [x]. *)
Definition evaluate_step (x : FieldElement)
    (st : FieldElement * FieldElement) (coeff : FieldElement)
  : FieldElement * FieldElement :=
  let (result, x_power) := st in
  ((result + coeff * x_power)%fe, (x_power * x)%fe).

Definition evaluate (p : Polynomial) (x : FieldElement) : FieldElement :=
  fst (fold_left (evaluate_step x) p (0%fe, 1%fe)).

(** [Polynomial::operator+] *)
Definition poly_add (p other : Polynomial) : Polynomial :=
  let max_size := Nat.max (length p) (length other) in
  let result_coeffs := repeat 0%fe max_size in
  let result_coeffs :=
    fold_left (fun rc i => add_at rc i (nth i p 0%fe))
              (seq 0 (length p)) result_coeffs in
  fold_left (fun rc i => add_at rc i (nth i other 0%fe))
            (seq 0 (length other)) result_coeffs.

(** [Polynomial::operator*(const Polynomial&)] *)
Definition poly_mul (p other : Polynomial) : Polynomial :=
  match p, other with
  | [], _ => []
  | _, [] => []
  | _, _ =>
      let result_coeffs :=
        repeat 0%fe (length p + length other - 1)%nat in
      fold_left
        (fun rc i =>
           fold_left
             (fun rc j =>
                add_at rc (i + j)%nat (nth i p 0 * nth j other 0)%fe)
             (seq 0 (length other)) rc)
        (seq 0 (length p)) result_coeffs
  end.

(** [Polynomial::operator*(const FieldElement&)] *)
Definition poly_scale (p : Polynomial) (scalar : FieldElement) : Polynomial :=
  map (fun c => (c * scalar)%fe) p.

(** ** qap.h: Lagrange interpolation *)

(** The body of the [for] loop of [basisPolynomial], over the indices
    [idxs] still to visit. *)
Fixpoint basis_loop (j : nat) (x_values : list FieldElement)
    (idxs : list nat) (result : Polynomial) : outcome Polynomial :=
  match idxs with
  | [] => Ok result
  | i :: rest =>
      if Nat.eqb i j then basis_loop j x_values rest result
      else
        let denominator := (nth j x_values 0 - nth i x_values 0)%fe in
        let numerator := [(0 - nth i x_values 0)%fe; 1%fe] in
        let result := poly_mul result numerator in
        q <- fe_div 1%fe denominator ;;
        basis_loop j x_values rest (poly_scale result q)
  end.

Definition basisPolynomial (j : nat) (x_values : list FieldElement)
  : outcome Polynomial :=
  basis_loop j x_values (seq 0 (length x_values)) [1%fe].

Fixpoint interpolate_loop (x_values y_values : list FieldElement)
    (js : list nat) (result : Polynomial) : outcome Polynomial :=
  match js with
  | [] => Ok result
  | j :: rest =>
      basis <- basisPolynomial j x_values ;;
      interpolate_loop x_values y_values rest
        (poly_add result (poly_scale basis (nth j y_values 0%fe)))
  end.

Definition interpolate (x_values y_values : list FieldElement)
  : outcome Polynomial :=
  if negb (Nat.eqb (length x_values) (length y_values))
  then Err SizesMustMatch
  else interpolate_loop x_values y_values
         (seq 0 (length x_values)) [0%fe].

(** ** r1cs.h *)

(** The dimensions are [int] in the source; the constructor sizes the
    three matrices with them, so an object holds non-negative dimensions. *)
Record R1CS : Type := mkR1CS {
  R_A : list (list FieldElement);
  R_B : list (list FieldElement);
  R_C : list (list FieldElement);
  R_num_variables : nat;
  R_num_constraints : nat
}.

(** [R1CS(vars, constraints)] *)
Definition R1CS_new (vars constraints : nat) : R1CS :=
  mkR1CS (repeat (repeat 0%fe vars) constraints)
         (repeat (repeat 0%fe vars) constraints)
         (repeat (repeat 0%fe vars) constraints)
         vars constraints.

(** [setConstraint]: the only guard is [idx >= num_constraints]; an index
    that passes it and is outside the matrices (a negative one) is an
    access out of bounds. *)
Definition setConstraint (r : R1CS) (idx : Z)
    (a b c : list FieldElement) : outcome R1CS :=
  if idx >=? Z.of_nat (R_num_constraints r) then Err ConstraintIndexOutOfBounds
  else if (idx <? 0)
          || (Z.of_nat (length (R_A r)) <=? idx)
          || (Z.of_nat (length (R_B r)) <=? idx)
          || (Z.of_nat (length (R_C r)) <=? idx)
  then Err OutOfBoundsAccess
  else
    Ok (mkR1CS (update (R_A r) (Z.to_nat idx) a)
               (update (R_B r) (Z.to_nat idx) b)
               (update (R_C r) (Z.to_nat idx) c)
               (R_num_variables r) (R_num_constraints r)).

(** One of the three inner loops of [verify]:
    [val = val + M[i][j] * witness[j]] for [j < num_variables]. *)
Definition dot (n : nat) (row witness : list FieldElement) : FieldElement :=
  fold_left (fun val j => (val + nth j row 0 * nth j witness 0)%fe)
            (seq 0 n) 0%fe.

Definition row_holds (r : R1CS) (witness : list FieldElement) (i : nat)
  : bool :=
  let a_val := dot (R_num_variables r) (nth i (R_A r) []) witness in
  let b_val := dot (R_num_variables r) (nth i (R_B r) []) witness in
  let c_val := dot (R_num_variables r) (nth i (R_C r) []) witness in
  fe_eqb (a_val * b_val)%fe c_val.

(** The outer loop of [verify] over the rows [rows] still to visit.  The
    second component lists the rows for which a "Constraint i: ..." line
    is printed, that is, the rows examined. *)
Fixpoint verify_rows (r : R1CS) (witness : list FieldElement)
    (rows : list nat) : bool * list nat :=
  match rows with
  | [] => (true, [])
  | i :: rest =>
      if negb (row_holds r witness i) then (false, [i])
      else
        let (ok, examined) := verify_rows r witness rest in
        (ok, i :: examined)
  end.

Definition R1CS_verify_run (r : R1CS) (witness : list FieldElement)
  : bool * list nat :=
  if negb (Nat.eqb (length witness) (R_num_variables r)) then (false, [])
  else verify_rows r witness (seq 0 (R_num_constraints r)).

(** [R1CS::verify] *)
Definition R1CS_verify (r : R1CS) (witness : list FieldElement) : bool :=
  fst (R1CS_verify_run r witness).

(** ** qap.h: the QAP *)

Record QAP : Type := mkQAP {
  A_polys : list Polynomial;
  B_polys : list Polynomial;
  C_polys : list Polynomial;
  Z_poly : Polynomial;            (* the member [Z] *)
  Q_num_variables : nat
}.

(** Column [var] of a matrix, over the first [m] constraints. *)
Definition column (M : list (list FieldElement)) (m var : nat)
  : list FieldElement :=
  map (fun constraint => nth var (nth constraint M []) 0%fe) (seq 0 m).

(** The loop of [fromR1CS] over the variables [vars] still to visit. *)
Fixpoint fromR1CS_loop (r1cs : R1CS) (x_values : list FieldElement)
    (vars : list nat) (qA qB qC : list Polynomial)
  : outcome (list Polynomial * list Polynomial * list Polynomial) :=
  match vars with
  | [] => Ok (qA, qB, qC)
  | var :: rest =>
      let a_values := column (R_A r1cs) (R_num_constraints r1cs) var in
      let b_values := column (R_B r1cs) (R_num_constraints r1cs) var in
      let c_values := column (R_C r1cs) (R_num_constraints r1cs) var in
      a_poly <- interpolate x_values a_values ;;
      b_poly <- interpolate x_values b_values ;;
      c_poly <- interpolate x_values c_values ;;
      fromR1CS_loop r1cs x_values rest
        (qA ++ [a_poly]) (qB ++ [b_poly]) (qC ++ [c_poly])
  end.

(** The evaluation points [FieldElement(i + 1)], [i < num_constraints]. *)
Definition eval_points (m : nat) : list FieldElement :=
  map (fun i => FE (Z.of_nat i + 1)) (seq 0 m).

Definition target_polynomial (x_values : list FieldElement) : Polynomial :=
  fold_left (fun Zp x => poly_mul Zp [(0 - x)%fe; 1%fe]) x_values [1%fe].

Definition fromR1CS (r1cs : R1CS) : outcome QAP :=
  let x_values := eval_points (R_num_constraints r1cs) in
  polys <- fromR1CS_loop r1cs x_values
             (seq 0 (R_num_variables r1cs)) [] [] [] ;;
  let '(qA, qB, qC) := polys in
  Ok (mkQAP qA qB qC (target_polynomial x_values) (R_num_variables r1cs)).

(** [computePolynomials]: the three out-parameters are returned. *)
Definition combine_polys (polys : list Polynomial)
    (witness : list FieldElement) (n : nat) : Polynomial :=
  fold_left
    (fun P_x i =>
       poly_add P_x (poly_scale (nth i polys []) (nth i witness 0%fe)))
    (seq 0 n) [0%fe].

Definition computePolynomials (qap : QAP) (witness : list FieldElement)
  : Polynomial * Polynomial * Polynomial :=
  (combine_polys (A_polys qap) witness (Q_num_variables qap),
   combine_polys (B_polys qap) witness (Q_num_variables qap),
   combine_polys (C_polys qap) witness (Q_num_variables qap)).

(** ** elliptic_curve.h *)

(** The static members [a] and [b] of [ECPoint]. *)
Record Curve : Type := mkCurve {
  curve_a : FieldElement;
  curve_b : FieldElement
}.

(** The initial values of the static members, also what [setup] and
    [prove] pass to [setCurveParams]. *)
Definition default_curve : Curve := mkCurve (FE 0) (FE 7).

Record ECPoint : Type := mkECPoint {
  ec_x : FieldElement;
  ec_y : FieldElement;
  is_infinity : bool
}.

(** [ECPoint()] *)
Definition ECPoint_infinity : ECPoint := mkECPoint (FE 0) (FE 0) true.

(** The test of the two-argument constructor; when it fails the
    constructor prints a warning and builds the point all the same. *)
Definition on_curve (c : Curve) (x y : FieldElement) : bool :=
  fe_eqb (y * y)%fe (x * x * x + curve_a c * x + curve_b c)%fe.

(** [ECPoint(x_val, y_val)] *)
Definition ECPoint_xy (x y : FieldElement) : ECPoint := mkECPoint x y false.

Definition isInfinity (p : ECPoint) : bool := is_infinity p.

(** [ECPoint::operator+] *)
Definition ec_add (c : Curve) (p other : ECPoint) : outcome ECPoint :=
  if is_infinity p then Ok other
  else if is_infinity other then Ok p
  else if fe_eqb (ec_x p) (ec_x other)
          && negb (fe_eqb (ec_y p) (ec_y other))
  then Ok ECPoint_infinity
  else
    lambda <-
      (if fe_eqb (ec_x p) (ec_x other) && fe_eqb (ec_y p) (ec_y other)
       then
         let numerator := (ec_x p * ec_x p * FE 3 + curve_a c)%fe in
         let denominator := (ec_y p * FE 2)%fe in
         fe_div numerator denominator
       else
         let numerator := (ec_y other - ec_y p)%fe in
         let denominator := (ec_x other - ec_x p)%fe in
         fe_div numerator denominator) ;;
    let x_new := (lambda * lambda - ec_x p - ec_x other)%fe in
    let y_new := (lambda * (ec_x p - x_new) - ec_y p)%fe in
    Ok (ECPoint_xy x_new y_new).

(** The [while (scalar > 0)] loop of [operator*(uint64_t)], by the binary
    digits of the scalar, lowest first: [xI] and [xH] are [scalar & 1],
    the tail is [scalar >>= 1].  [base] is doubled in every iteration,
    the last one included. *)
Fixpoint ec_mul_loop (c : Curve) (scalar : positive)
    (result base : ECPoint) : outcome ECPoint :=
  match scalar with
  | xI rest =>
      result <- ec_add c result base ;;
      base <- ec_add c base base ;;
      ec_mul_loop c rest result base
  | xO rest =>
      base <- ec_add c base base ;;
      ec_mul_loop c rest result base
  | xH =>
      result <- ec_add c result base ;;
      base <- ec_add c base base ;;
      Ok result
  end.

(** [ECPoint::operator*(uint64_t scalar)]; an unsigned scalar is never
    negative. *)
Definition ec_mul (c : Curve) (p : ECPoint) (scalar : Z) : outcome ECPoint :=
  match scalar with
  | Zpos s =>
      if is_infinity p then Ok ECPoint_infinity
      else ec_mul_loop c s ECPoint_infinity p
  | _ => Ok ECPoint_infinity
  end.

(** ** zksnark.h *)

Record ProvingKey : Type := mkProvingKey {
  pk_A_query : list ECPoint;
  pk_B_query : list ECPoint;
  pk_C_query : list ECPoint;
  pk_alpha : ECPoint;
  pk_beta : ECPoint;
  pk_delta : ECPoint;
  pk_Z_query : list ECPoint
}.

Record VerificationKey : Type := mkVerificationKey {
  vk_alpha : ECPoint;
  vk_beta : ECPoint;
  vk_gamma : ECPoint;
  vk_delta : ECPoint;
  vk_IC : list ECPoint
}.

Record Proof : Type := mkProof {
  proof_A : ECPoint;
  proof_B : ECPoint;
  proof_C : ECPoint
}.

(** Default-constructed keys, as the callers declare them before
    [setup]. *)
Definition ProvingKey_new : ProvingKey :=
  mkProvingKey [] [] [] ECPoint_infinity ECPoint_infinity ECPoint_infinity [].

Definition VerificationKey_new : VerificationKey :=
  mkVerificationKey ECPoint_infinity ECPoint_infinity ECPoint_infinity
                    ECPoint_infinity [].

(** The five draws of [randomScalar] in [setup], each in
    [1 .. SMALL_PRIME - 1]. *)
Record SetupRandomness : Type := mkSetupRandomness {
  tau : Z;
  alpha_scalar : Z;
  beta_scalar : Z;
  gamma_scalar : Z;
  delta_scalar : Z
}.

Definition random_scalar_range (s : Z) : Prop := 1 <= s <= SMALL_PRIME - 1.

(** [ECPoint G(FieldElement(2), FieldElement(1234567))] *)
Definition G : ECPoint := ECPoint_xy (FE 2) (FE 1234567).

(** The query loop of [setup] over the variables [vars] still to visit;
    [push_back] appends to the vectors of the key passed in. *)
Fixpoint setup_queries (qap : QAP) (tau_fe : FieldElement) (vars : list nat)
    (qa qb qc : list ECPoint)
  : outcome (list ECPoint * list ECPoint * list ECPoint) :=
  match vars with
  | [] => Ok (qa, qb, qc)
  | i :: rest =>
      let a_val := evaluate (nth i (A_polys qap) []) tau_fe in
      let b_val := evaluate (nth i (B_polys qap) []) tau_fe in
      let c_val := evaluate (nth i (C_polys qap) []) tau_fe in
      ga <- ec_mul default_curve G (getValue a_val) ;;
      gb <- ec_mul default_curve G (getValue b_val) ;;
      gc <- ec_mul default_curve G (getValue c_val) ;;
      setup_queries qap tau_fe rest (qa ++ [ga]) (qb ++ [gb]) (qc ++ [gc])
  end.

(** The loop [for (int i = 0; i <= num_public_inputs; i++)] of [setup],
    over the values [idxs] of [i] still to visit. *)
Fixpoint setup_IC (idxs : list nat) (IC : list ECPoint)
  : outcome (list ECPoint) :=
  match idxs with
  | [] => Ok IC
  | i :: rest =>
      g <- ec_mul default_curve G (Z.of_nat i + 1) ;;
      setup_IC rest (IC ++ [g])
  end.

(** [zkSNARK::setup]; [pk] and [vk] are the keys passed by reference, the
    updated keys are returned.  The [r1cs] argument is not used by the
    source. *)
Definition setup (qap : QAP) (r1cs : R1CS) (pk : ProvingKey)
    (vk : VerificationKey) (num_public_inputs : Z) (rnd : SetupRandomness)
  : outcome (ProvingKey * VerificationKey) :=
  queries <- setup_queries qap (FE (tau rnd)) (seq 0 (Q_num_variables qap))
               (pk_A_query pk) (pk_B_query pk) (pk_C_query pk) ;;
  let '(qa, qb, qc) := queries in
  pk_a <- ec_mul default_curve G (alpha_scalar rnd) ;;
  pk_b <- ec_mul default_curve G (beta_scalar rnd) ;;
  pk_d <- ec_mul default_curve G (delta_scalar rnd) ;;
  vk_a <- ec_mul default_curve G (alpha_scalar rnd) ;;
  vk_b <- ec_mul default_curve G (beta_scalar rnd) ;;
  vk_g <- ec_mul default_curve G (gamma_scalar rnd) ;;
  vk_d <- ec_mul default_curve G (delta_scalar rnd) ;;
  IC <- setup_IC (seq 0 (Z.to_nat (num_public_inputs + 1))) (vk_IC vk) ;;
  Ok (mkProvingKey qa qb qc pk_a pk_b pk_d (pk_Z_query pk),
      mkVerificationKey vk_a vk_b vk_g vk_d IC).

(** One of the three accumulation loops of [prove], over the indices
    [idxs] of the witness still to visit. *)
Fixpoint prove_sum (query : list ECPoint) (witness : list FieldElement)
    (idxs : list nat) (acc : ECPoint) : outcome ECPoint :=
  match idxs with
  | [] => Ok acc
  | i :: rest =>
      if (i <? length query)%nat then
        term <- ec_mul default_curve (nth i query ECPoint_infinity)
                  (getValue (nth i witness 0%fe)) ;;
        acc <- ec_add default_curve acc term ;;
        prove_sum query witness rest acc
      else prove_sum query witness rest acc
  end.

(** [zkSNARK::prove]; [r] and [s] are the two draws of [randomScalar];
    [r * s] is a product of [uint64_t].  The polynomials computed from the
    witness are printed only. *)
Definition prove (qap : QAP) (pk : ProvingKey)
    (witness public_inputs : list FieldElement) (r s : Z) : outcome Proof :=
  let _diagnostic := computePolynomials qap witness in
  let idxs := seq 0 (length witness) in
  sumA <- prove_sum (pk_A_query pk) witness idxs ECPoint_infinity ;;
  blindA <- ec_mul default_curve (pk_alpha pk) r ;;
  pA <- ec_add default_curve sumA blindA ;;
  sumB <- prove_sum (pk_B_query pk) witness idxs ECPoint_infinity ;;
  blindB <- ec_mul default_curve (pk_beta pk) s ;;
  pB <- ec_add default_curve sumB blindB ;;
  sumC <- prove_sum (pk_C_query pk) witness idxs ECPoint_infinity ;;
  blindC <- ec_mul default_curve (pk_delta pk) ((r * s) mod 2 ^ 64) ;;
  pC <- ec_add default_curve sumC blindC ;;
  Ok (mkProof pA pB pC).

(** The fold of the public inputs into [vk_x] in [verify], over the
    indices [idxs] still to visit. *)
Fixpoint fold_public_inputs (c : Curve) (IC : list ECPoint)
    (public_inputs : list FieldElement) (idxs : list nat) (vk_x : ECPoint)
  : outcome ECPoint :=
  match idxs with
  | [] => Ok vk_x
  | i :: rest =>
      if (i + 1 <? length IC)%nat then
        term <- ec_mul c (nth (i + 1) IC ECPoint_infinity)
                  (getValue (nth i public_inputs 0%fe)) ;;
        vk_x <- ec_add c vk_x term ;;
        fold_public_inputs c IC public_inputs rest vk_x
      else fold_public_inputs c IC public_inputs rest vk_x
  end.

Definition compute_vk_x (c : Curve) (vk : VerificationKey)
    (public_inputs : list FieldElement) : outcome ECPoint :=
  let vk_x :=
    match vk_IC vk with
    | [] => ECPoint_infinity
    | ic0 :: _ => ic0
    end in
  fold_public_inputs c (vk_IC vk) public_inputs
    (seq 0 (length public_inputs)) vk_x.

(** The accept/reject decision of [verify]. *)
Definition proof_components_finite (proof : Proof) : bool :=
  negb (isInfinity (proof_A proof))
  && negb (isInfinity (proof_B proof))
  && negb (isInfinity (proof_C proof)).

(** [zkSNARK::verify]; [c] holds the curve parameters in force at the
    call ([verify] does not set them). *)
Definition zkSNARK_verify (c : Curve) (vk : VerificationKey) (proof : Proof)
    (public_inputs : list FieldElement) : outcome bool :=
  vk_x <- compute_vk_x c vk public_inputs ;;
  let valid := proof_components_finite proof in
  Ok valid.

(** ** field.h: [power] *)

(** The [while (exp > 0)] loop of [power], by the binary digits of the
    exponent, lowest first; [base] is squared in every iteration. *)
Fixpoint power_loop (exp : positive) (result base : FieldElement)
  : FieldElement :=
  match exp with
  | xI rest => power_loop rest (result * base)%fe (base * base)%fe
  | xO rest => power_loop rest result (base * base)%fe
  | xH => (result * base)%fe
  end.

(** [FieldElement::power(uint64_t exp)] *)
Definition power (a : FieldElement) (exp : Z) : FieldElement :=
  match exp with
  | Zpos e => power_loop e (FE 1) a
  | _ => FE 1
  end.

(** ** elliptic_curve.h: [operator==] *)

Definition ec_eqb (p other : ECPoint) : bool :=
  if is_infinity p && is_infinity other then true
  else if is_infinity p || is_infinity other then false
  else fe_eqb (ec_x p) (ec_x other) && fe_eqb (ec_y p) (ec_y other).

(** ** main.cpp: [createCubicR1CS] *)

(** The system and the witness for [x^3 + x + 5 = out]; [r1cs] and
    [witness] are passed by reference, the updated system and the witness
    assigned are returned. *)
Definition createCubicR1CS (r1cs : R1CS) (x out : FieldElement)
  : outcome (R1CS * list FieldElement) :=
  let v1 := (x * x)%fe in
  let v2 := (v1 * x)%fe in
  let witness := [FE 1; x; out; v1; v2] in
  r1cs <- setConstraint r1cs 0
            [FE 0; FE 1; FE 0; FE 0; FE 0]
            [FE 0; FE 1; FE 0; FE 0; FE 0]
            [FE 0; FE 0; FE 0; FE 1; FE 0] ;;
  r1cs <- setConstraint r1cs 1
            [FE 0; FE 0; FE 0; FE 1; FE 0]
            [FE 0; FE 1; FE 0; FE 0; FE 0]
            [FE 0; FE 0; FE 0; FE 0; FE 1] ;;
  r1cs <- setConstraint r1cs 2
            [FE 5; FE 1; FE 0; FE 0; FE 1]
            [FE 1; FE 0; FE 0; FE 0; FE 0]
            [FE 0; FE 0; FE 1; FE 0; FE 0] ;;
  Ok (r1cs, witness).

(** * Vocabulary of the properties *)

(** Trial division: no [k] with [d <= k < d + n] divides [SMALL_PRIME]. *)
Fixpoint no_divisor_from (n : nat) (d : Z) : bool :=
  match n with
  | O => true
  | S n' => negb (SMALL_PRIME mod d =? 0) && no_divisor_from n' (d + 1)
  end.

(** What the loop of [inverse] maintains on the field value [v]: the remainders decrease, stay coprime and
    are congruent to the cofactors times [v]; the cofactors alternate in
    sign and [t] stays within one modulus of zero. *)
Definition inverse_inv (v t newt r newr : Z) : Prop :=
  0 <= newr < r /\
  Z.gcd r newr = 1 /\
  (SMALL_PRIME | t * v - r) /\
  (SMALL_PRIME | newt * v - newr) /\
  - SMALL_PRIME <= t <= SMALL_PRIME /\
  ((t <= 0 <= newt /\ newt * r - t * newr = SMALL_PRIME) \/
   (newt <= 0 <= t /\ t * newr - newt * r = SMALL_PRIME)).

(** The value of a polynomial, by Horner's rule; the reference against
    which [evaluate] and the operators are measured. *)
Fixpoint peval (p : Polynomial) (x : FieldElement) : FieldElement :=
  match p with
  | [] => 0%fe
  | c :: p' => (c + x * peval p' x)%fe
  end.

Fixpoint fe_pow (x : FieldElement) (n : nat) : FieldElement :=
  match n with
  | O => 1%fe
  | S n' => (x * fe_pow x n')%fe
  end.

Definition fe_sum (l : list FieldElement) : FieldElement :=
  fold_right fe_add 0%fe l.

(** The shape an [R1CS] has after its constructor and after calls of
    [setConstraint] with rows of [num_variables] entries. *)
Definition R1CS_shape (r : R1CS) : Prop :=
  let rows_ok M :=
    length M = R_num_constraints r /\
    Forall (fun row : list FieldElement =>
              length row = R_num_variables r) M in
  rows_ok (R_A r) /\ rows_ok (R_B r) /\ rows_ok (R_C r).

(** Row [i] of the system holds for the witness:
    [(A_i . w) * (B_i . w) = (C_i . w)]. *)
Definition row_equation (r : R1CS) (witness : list FieldElement) (i : nat)
  : Prop :=
  (dot (R_num_variables r) (nth i (R_A r) []) witness
   * dot (R_num_variables r) (nth i (R_B r) []) witness)%fe
  = dot (R_num_variables r) (nth i (R_C r) []) witness.

(** A polynomial list [polys] interpolates matrix [M] on the variables
    [vars]: polynomial [n] takes the entries of column [vars[n]] at the
    first [m] evaluation points. *)
Definition interpolates (m : nat) (M : list (list FieldElement))
    (vars : list nat)
    (polys : list Polynomial) : Prop :=
  length polys = length vars /\
  forall n k, (n < length vars)%nat -> (k < m)%nat ->
    peval (nth n polys []) (FE (Z.of_nat k + 1))
    = nth (nth n vars 0%nat) (nth k M []) 0%fe.

(** [chain_ok c n base]: the [n] successive doublings of [base] are
    defined and each doubled point has a non-zero [y]. *)
Fixpoint chain_ok (c : Curve) (n : nat) (base : ECPoint) : bool :=
  match n with
  | O => true
  | S n' =>
      negb (fe_eqb (ec_y base) 0%fe)
      && match ec_add c base base with
         | Ok base' => chain_ok c n' base'
         | Err _ => false
         end
  end.

Definition setup_scalars_in_range (rnd : SetupRandomness) : Prop :=
  random_scalar_range (tau rnd) /\
  random_scalar_range (alpha_scalar rnd) /\
  random_scalar_range (beta_scalar rnd) /\
  random_scalar_range (gamma_scalar rnd) /\
  random_scalar_range (delta_scalar rnd).

(** The sequence of the two drivers: QAP from the R1CS, keys from
    [setup] on default-constructed keys, proof from [prove], decision of
    [verify] under the curve parameters that [prove] has set. *)
Definition run_protocol (r1cs : R1CS) (witness public_inputs : list FieldElement)
    (rnd : SetupRandomness) (r s : Z) : outcome bool :=
  qap <- fromR1CS r1cs ;;
  keys <- setup qap r1cs ProvingKey_new VerificationKey_new
                (Z.of_nat (length public_inputs)) rnd ;;
  let (pk, vk) := keys in
  proof <- prove qap pk witness public_inputs r s ;;
  zkSNARK_verify default_curve vk proof public_inputs.

(** Scenario A: variables [1, x, out], the single constraint
    [x * x = out], witness [1, 3, 9]. *)
Definition scenario_A : R1CS :=
  mkR1CS [[FE 0; FE 1; FE 0]] [[FE 0; FE 1; FE 0]] [[FE 0; FE 0; FE 1]] 3 1.

Definition witness_A : list FieldElement := [FE 1; FE 3; FE 9].

(** The negative scenario: the same system, the wrong output. *)
Definition witness_A_wrong : list FieldElement := [FE 1; FE 3; FE 10].

(** A point with a zero [y], and a verification key whose [IC] holds it. *)
Definition y_zero_point (x : Z) : ECPoint := ECPoint_xy (FE x) (FE 0).

Definition y_zero_key (x : Z) : VerificationKey :=
  mkVerificationKey G G G G [y_zero_point x; y_zero_point x].

Definition finite_proof : Proof := mkProof G G G.

(** The values an [int64_t] holds. *)
Definition int64_range (z : Z) : bool :=
  (- 2 ^ 63 <=? z) && (z <? 2 ^ 63).

(** Every [int64_t] value computed by the loop of [inverse] from the
    state [(t, newt, r, newr)] on is in range: the quotient, the two
    products and the two differences of each iteration. *)
Fixpoint inverse_loop_fits (fuel : nat) (t newt r newr : Z) : bool :=
  if newr =? 0 then true
  else
    match fuel with
    | O => true
    | S fuel' =>
        let quotient := Z.quot r newr in
        int64_range quotient
        && int64_range (quotient * newt)
        && int64_range (t - quotient * newt)
        && int64_range (quotient * newr)
        && int64_range (r - quotient * newr)
        && inverse_loop_fits fuel' newt (t - quotient * newt)
                             newr (r - quotient * newr)
    end.

Definition fe_prod (l : list FieldElement) : FieldElement :=
  fold_right fe_mul 1%fe l.

(** The point lies on the curve, or is the point at infinity. *)
Definition ec_valid (c : Curve) (p : ECPoint) : Prop :=
  is_infinity p = true \/ on_curve c (ec_x p) (ec_y p) = true.

(** The dot product of a row of a matrix and the witness, entry by
    entry. *)
Definition dot_product (row witness : list FieldElement) : FieldElement :=
  fe_sum (map (fun aw => (fst aw * snd aw)%fe) (combine row witness)).

(** The witness satisfies constraint [i]:
    [(A_i . w) * (B_i . w) = (C_i . w)]. *)
Definition row_satisfied (r : R1CS) (witness : list FieldElement) (i : nat)
  : Prop :=
  (dot_product (nth i (R_A r) []) witness
   * dot_product (nth i (R_B r) []) witness)%fe
  = dot_product (nth i (R_C r) []) witness.

(** A QAP holds one polynomial per variable in each family. *)
Definition QAP_shape (qap : QAP) : Prop :=
  length (A_polys qap) = Q_num_variables qap /\
  length (B_polys qap) = Q_num_variables qap /\
  length (C_polys qap) = Q_num_variables qap.

(** The curve [y^2 = x^3 + b] that passes through the generator [G] of
    [setup] and [prove]. *)
Definition generator_curve : Curve :=
  mkCurve (FE 0)
    (ec_y G * ec_y G - ec_x G * ec_x G * ec_x G)%fe.

(** No point of the curve has the coordinate [y = 0]. *)
Definition curve_without_y_zero (c : Curve) : Prop :=
  forall x, on_curve c x 0%fe = false.

(** Every point of the [IC] vector of a verification key is the point at
    infinity or a point of the curve. *)
Definition key_on_curve (c : Curve) (vk : VerificationKey) : Prop :=
  Forall (ec_valid c) (vk_IC vk).

(** The verification key was returned by [setup], called on fresh keys
    with a number of public inputs that is an [int] and scalars that
    [randomScalar] can draw. *)
Definition key_from_setup (vk : VerificationKey) : Prop :=
  exists qap r1cs num_public_inputs rnd pk,
    - 2147483648 <= num_public_inputs < 2147483647 /\
    setup_scalars_in_range rnd /\
    setup qap r1cs ProvingKey_new VerificationKey_new num_public_inputs rnd
    = Ok (pk, vk).

(** Every point of a proving key is the point at infinity or a point of
    the curve. *)
Definition proving_key_on_curve (c : Curve) (pk : ProvingKey) : Prop :=
  Forall (ec_valid c) (pk_A_query pk) /\
  Forall (ec_valid c) (pk_B_query pk) /\
  Forall (ec_valid c) (pk_C_query pk) /\
  ec_valid c (pk_alpha pk) /\ ec_valid c (pk_beta pk) /\
  ec_valid c (pk_delta pk).

(** * Properties *)

(** ** The field *)

(** *** Field elements are determined by their value *)

Lemma fe_eq (a b : FieldElement) : value a = value b -> a = b.
Proof.
  destruct a as [va Ha], b as [vb Hb]; simpl; intros E; subst vb.
  f_equal. apply UIP_dec. apply bool_dec.
Qed.

Lemma value_range (a : FieldElement) : 0 <= value a < SMALL_PRIME.
Proof.
  destruct a as [v Hv]; simpl. unfold in_field in Hv.
  apply andb_prop in Hv as [H0 H1].
  apply Z.leb_le in H0. apply Z.ltb_lt in H1. lia.
Qed.

Lemma value_mod (a : FieldElement) : value a mod SMALL_PRIME = value a.
Proof. apply Z.mod_small, value_range. Qed.

Lemma fe_eqb_eq (a b : FieldElement) : fe_eqb a b = true <-> a = b.
Proof.
  unfold fe_eqb; split.
  - intros H. apply fe_eq, Z.eqb_eq, H.
  - intros ->. apply Z.eqb_refl.
Qed.

Lemma fe_eqb_neq (a b : FieldElement) : fe_eqb a b = false <-> a <> b.
Proof.
  rewrite <- fe_eqb_eq. destruct (fe_eqb a b); split; congruence.
Qed.

Lemma value_FE (v : Z) : value (FE v) = v mod SMALL_PRIME.
Proof. reflexivity. Qed.

Lemma FE_value (a : FieldElement) : FE (value a) = a.
Proof. apply fe_eq. rewrite value_FE. apply value_mod. Qed.

Lemma value_add (a b : FieldElement) :
  value (a + b)%fe = (value a + value b) mod SMALL_PRIME.
Proof. unfold fe_add. rewrite value_FE. apply Z.mod_mod. discriminate. Qed.

Lemma value_mul (a b : FieldElement) :
  value (a * b)%fe = (value a * value b) mod SMALL_PRIME.
Proof. unfold fe_mul. rewrite value_FE. apply Z.mod_mod. discriminate. Qed.

Lemma value_sub (a b : FieldElement) :
  value (a - b)%fe = (value a - value b) mod SMALL_PRIME.
Proof.
  unfold fe_sub. rewrite value_FE, Z.mod_mod by discriminate.
  replace (value a + SMALL_PRIME - value b)
    with (value a - value b + 1 * SMALL_PRIME) by ring.
  apply Z.mod_add. discriminate.
Qed.

Lemma value_opp (a : FieldElement) :
  value (fe_opp a) = (- value a) mod SMALL_PRIME.
Proof. unfold fe_opp. rewrite value_sub. reflexivity. Qed.

Lemma value_zero : value 0%fe = 0.
Proof. reflexivity. Qed.

Lemma value_one : value 1%fe = 1.
Proof. reflexivity. Qed.

(** Two field expressions are equal when their values agree modulo the
    prime. *)
Ltac fe_values :=
  intros; apply fe_eq;
  repeat (rewrite ?value_add, ?value_mul, ?value_sub, ?value_opp,
                  ?value_zero, ?value_one);
  repeat (rewrite ?Zplus_mod_idemp_l, ?Zplus_mod_idemp_r,
                  ?Zmult_mod_idemp_l, ?Zmult_mod_idemp_r,
                  ?Zminus_mod_idemp_l, ?Zminus_mod_idemp_r).

Lemma fe_add_0_l a : (0 + a)%fe = a.
Proof. fe_values. simpl. apply value_mod. Qed.

Lemma fe_add_comm a b : (a + b)%fe = (b + a)%fe.
Proof. fe_values. f_equal; ring. Qed.

Lemma fe_add_assoc a b c : (a + (b + c))%fe = ((a + b) + c)%fe.
Proof. fe_values. f_equal; ring. Qed.

Lemma fe_mul_1_l a : (1 * a)%fe = a.
Proof. fe_values. rewrite Z.mul_1_l. apply value_mod. Qed.

Lemma fe_mul_comm a b : (a * b)%fe = (b * a)%fe.
Proof. fe_values. f_equal; ring. Qed.

Lemma fe_mul_assoc a b c : (a * (b * c))%fe = ((a * b) * c)%fe.
Proof. fe_values. f_equal; ring. Qed.

Lemma fe_distr_l a b c : ((a + b) * c)%fe = (a * c + b * c)%fe.
Proof. fe_values. f_equal; ring. Qed.

Lemma fe_sub_def a b : (a - b)%fe = (a + fe_opp b)%fe.
Proof.
  fe_values. f_equal; ring.
Qed.

Lemma fe_opp_def a : (a + fe_opp a)%fe = 0%fe.
Proof.
  fe_values. replace (value a + - value a) with 0 by ring. reflexivity.
Qed.

Lemma fe_ring_theory :
  ring_theory fe_zero fe_one fe_add fe_mul fe_sub fe_opp (@eq FieldElement).
Proof.
  constructor.
  - exact fe_add_0_l.
  - exact fe_add_comm.
  - exact fe_add_assoc.
  - exact fe_mul_1_l.
  - exact fe_mul_comm.
  - exact fe_mul_assoc.
  - exact fe_distr_l.
  - exact fe_sub_def.
  - exact fe_opp_def.
Qed.

Add Ring fe_ring : fe_ring_theory.

(** *** [SMALL_PRIME] is prime *)

Lemma no_divisor_from_sound (n : nat) : forall d k,
  no_divisor_from n d = true ->
  d <= k < d + Z.of_nat n -> SMALL_PRIME mod k <> 0.
Proof.
  induction n as [|n IH]; intros d k H Hk.
  - lia.
  - simpl in H. apply andb_prop in H as [Hd Hrest].
    destruct (Z.eq_dec k d) as [->|Hne].
    + apply negb_true_iff, Z.eqb_neq in Hd. exact Hd.
    + apply (IH (d + 1)); [exact Hrest | lia].
Qed.

Lemma no_divisor_below_root :
  forall k, 2 <= k <= 46340 -> SMALL_PRIME mod k <> 0.
Proof.
  intros k Hk.
  apply (no_divisor_from_sound (Z.to_nat 46339) 2 k).
  - vm_compute; reflexivity.
  - rewrite Z2Nat.id; lia.
Qed.

Lemma SMALL_PRIME_prime : Z.prime SMALL_PRIME.
Proof.
  split; [reflexivity|].
  intros n Hn [q Hq].
  assert (Hq2 : 2 <= q) by (unfold SMALL_PRIME in *; nia).
  destruct (Z_le_gt_dec n 46340) as [Hsmall|Hbig].
  - apply (no_divisor_below_root n); [lia|].
    rewrite Hq. apply Z.mod_mul. lia.
  - assert (Hqs : q <= 46340) by (unfold SMALL_PRIME in *; nia).
    apply (no_divisor_below_root q); [lia|].
    rewrite Hq, Z.mul_comm. apply Z.mod_mul. lia.
Qed.

Lemma SMALL_PRIME_coprime (n : Z) :
  1 <= n < SMALL_PRIME -> Z.gcd SMALL_PRIME n = 1.
Proof.
  intros Hn. apply (Z.coprime_prime_small _ _ SMALL_PRIME_prime Hn).
Qed.

(** The field has no zero divisors. *)
Lemma fe_mul_eq_0 (a b : FieldElement) :
  (a * b)%fe = 0%fe -> a = 0%fe \/ b = 0%fe.
Proof.
  intros H. apply (f_equal value) in H. rewrite value_mul, value_zero in H.
  apply Z.mod_divide in H; [|discriminate].
  destruct (proj1 (Z.divide_prime_mul _ _ _ SMALL_PRIME_prime) H) as [D|D];
    [left|right]; apply fe_eq; rewrite value_zero;
    apply Z.mod_divide in D; try discriminate;
    rewrite value_mod in D; exact D.
Qed.

Lemma fe_sub_eq_0 (a b : FieldElement) : (a - b)%fe = 0%fe <-> a = b.
Proof.
  split; intros H.
  - transitivity ((a - b) + b)%fe; [ring | rewrite H; ring].
  - subst; ring.
Qed.

Lemma fe_one_neq_zero : 1%fe <> 0%fe.
Proof. intros H. apply (f_equal value) in H. discriminate H. Qed.

(** *** The extended Euclid loop of [inverse] *)

Section InverseLoop.

Variable v : Z.
Hypothesis v_range : 1 <= v < SMALL_PRIME.

Lemma inverse_inv_init : inverse_inv v 0 1 SMALL_PRIME v.
Proof.
  unfold inverse_inv.
  split; [lia|]. split; [apply SMALL_PRIME_coprime; lia|].
  split; [exists (-1); ring|]. split; [exists 0; ring|].
  split; [unfold SMALL_PRIME; lia|]. left. lia.
Qed.

Lemma inverse_inv_step (t newt r newr : Z) :
  inverse_inv v t newt r newr -> newr <> 0 ->
  inverse_inv v newt (t - Z.quot r newr * newt)
              newr (r - Z.quot r newr * newr).
Proof.
  intros (Hr & Hg & Ht & Hnt & Hb & Hs) Hnz.
  rewrite Z.quot_div_nonneg by lia.
  set (q := r / newr).
  assert (Hmod : r - q * newr = r mod newr)
    by (unfold q; rewrite Z.mod_eq by lia; ring).
  pose proof (Z.mod_pos_bound r newr ltac:(lia)) as Hm.
  assert (Hq : 1 <= q) by (unfold q; apply Z.div_le_lower_bound; lia).
  unfold inverse_inv. rewrite Hmod.
  split; [lia|]. split.
  { rewrite Z.gcd_mod_r, Z.gcd_comm. exact Hg. }
  split; [exact Hnt|]. split.
  { rewrite <- Hmod.
    replace ((t - q * newt) * v - (r - q * newr))
      with ((t * v - r) - q * (newt * v - newr)) by ring.
    apply Z.divide_sub_r; [exact Ht|].
    apply Z.divide_mul_r; exact Hnt. }
  rewrite <- Hmod in *.
  destruct Hs as [[Hsg Hd]|[Hsg Hd]].
  - split; [nia|]. right. split; [nia|]. rewrite <- Hd. ring.
  - split; [nia|]. left. split; [nia|]. rewrite <- Hd. ring.
Qed.

Lemma inverse_loop_result (fuel : nat) : forall t newt r newr t' r',
  inverse_inv v t newt r newr ->
  inverse_loop fuel t newt r newr = Some (t', r') ->
  r' = 1 /\ (SMALL_PRIME | t' * v - 1) /\
  - SMALL_PRIME <= t' <= SMALL_PRIME.
Proof.
  induction fuel as [|fuel IH]; intros t newt r newr t' r' Hinv Hrun;
    simpl in Hrun; destruct (Z.eqb_spec newr 0) as [E|E];
    try discriminate.
  - injection Hrun as <- <-.
    destruct Hinv as (Hr & Hg & Ht & _ & Hb & _).
    rewrite E, Z.gcd_0_r, Z.abs_eq in Hg by lia.
    rewrite Hg in Ht. auto.
  - injection Hrun as <- <-.
    destruct Hinv as (Hr & Hg & Ht & _ & Hb & _).
    rewrite E, Z.gcd_0_r, Z.abs_eq in Hg by lia.
    rewrite Hg in Ht. auto.
  - eapply IH; [|exact Hrun]. apply inverse_inv_step; assumption.
Qed.

End InverseLoop.

(** The loop stops within two iterations per bit of [newr]. *)
Lemma inverse_loop_runs (n : nat) : forall t newt r newr,
  0 <= newr < r -> newr < 2 ^ Z.of_nat n ->
  exists res, inverse_loop (2 * n) t newt r newr = Some res.
Proof.
  induction n as [|n IH]; intros t newt r newr Hr Hn.
  - simpl in Hn. assert (newr = 0) by lia. subst. simpl. eauto.
  - replace (2 * S n)%nat with (S (S (2 * n))) by lia.
    cbn [inverse_loop].
    destruct (Z.eqb_spec newr 0) as [E|E]; [eauto|].
    rewrite Z.quot_div_nonneg by lia.
    assert (Hm1 : r - r / newr * newr = r mod newr)
      by (rewrite Z.mod_eq by lia; ring).
    rewrite Hm1.
    pose proof (Z.mod_pos_bound r newr ltac:(lia)) as Hb1.
    destruct (Z.eqb_spec (r mod newr) 0) as [E1|E1]; [eauto|].
    rewrite Z.quot_div_nonneg by lia.
    set (newr' := r mod newr) in *.
    assert (Hm2 : newr - newr / newr' * newr' = newr mod newr')
      by (rewrite Z.mod_eq by lia; ring).
    rewrite Hm2.
    pose proof (Z.mod_pos_bound newr newr' ltac:(lia)) as Hb2.
    apply IH; [lia|].
    assert (Hq : 1 <= newr / newr')
      by (apply Z.div_le_lower_bound; lia).
    assert (Hle : newr mod newr' <= newr - newr')
      by (rewrite Z.mod_eq by lia; nia).
    rewrite Nat2Z.inj_succ, Z.pow_succ_r in Hn by lia.
    lia.
Qed.

(** [inverse] on a non-zero element: the loop ends, neither error is
    raised, and the element returned is the multiplicative inverse. *)
Lemma inverse_nonzero (a : FieldElement) :
  a <> 0%fe -> exists b, inverse a = Ok b /\ (a * b)%fe = 1%fe.
Proof.
  intros Ha.
  assert (Hv : 1 <= value a < SMALL_PRIME).
  { pose proof (value_range a).
    assert (value a <> 0) by (intros E; apply Ha, fe_eq; rewrite E; reflexivity).
    lia. }
  unfold inverse.
  destruct (Z.eqb_spec (value a) 0) as [E|_]; [lia|].
  destruct (inverse_loop_runs 32 0 1 SMALL_PRIME (value a)) as [[t r] Hrun].
  { lia. }
  { unfold SMALL_PRIME in Hv. change (2 ^ Z.of_nat 32) with 4294967296. lia. }
  change (2 * 32)%nat with inverse_fuel in Hrun. rewrite Hrun.
  destruct (inverse_loop_result (value a) Hv _ _ _ _ _ _ _
              (inverse_inv_init (value a) Hv) Hrun) as (Hr & Hdiv & Hb).
  subst r. simpl (1 <? 1).
  cbv iota.
  eexists; split; [reflexivity|].
  apply fe_eq. rewrite value_mul, value_one.
  unfold FE_of_int64. rewrite value_FE.
  set (t' := if t <? 0 then t + SMALL_PRIME else t).
  assert (Ht' : 0 <= t' <= SMALL_PRIME /\ (SMALL_PRIME | t' * value a - 1)).
  { unfold t'. destruct (Z.ltb_spec t 0).
    - split; [lia|].
      replace ((t + SMALL_PRIME) * value a - 1)
        with ((t * value a - 1) + value a * SMALL_PRIME) by ring.
      apply Z.divide_add_r; [exact Hdiv | apply Z.divide_factor_r].
    - split; [lia | exact Hdiv]. }
  destruct Ht' as [Hrange Hd].
  rewrite (Z.mod_small t' (2 ^ 64)) by (unfold SMALL_PRIME in Hrange; lia).
  rewrite Zmult_mod_idemp_r.
  destruct Hd as [k Hk].
  replace (value a * t') with (1 + k * SMALL_PRIME) by lia.
  rewrite Z.mod_add by discriminate. reflexivity.
Qed.

Lemma inverse_zero : inverse 0%fe = Err CannotInvertZero.
Proof. reflexivity. Qed.

(** [inverse] has two outcomes only: the bound put on its loop is never
    reached and "Value is not invertible" is never raised. *)
Lemma inverse_outcomes (a : FieldElement) :
  (a = 0%fe /\ inverse a = Err CannotInvertZero) \/
  (a <> 0%fe /\ exists b, inverse a = Ok b).
Proof.
  destruct (fe_eqb a 0%fe) eqn:E.
  - apply fe_eqb_eq in E. subst. left. split; [reflexivity | exact inverse_zero].
  - apply fe_eqb_neq in E. right. split; [exact E|].
    destruct (inverse_nonzero a E) as (b & Hb & _). eauto.
Qed.

(** C8: [inverse()] fails with the division error "Cannot invert zero" on
    the additive identity, and for every non-zero field element [a] it
    returns an element whose product with [a] is the multiplicative
    identity. *)
Theorem inverse_spec :
  inverse 0%fe = Err CannotInvertZero /\
  forall a : FieldElement, a <> 0%fe ->
    exists b, inverse a = Ok b /\ (a * b)%fe = 1%fe.
Proof.
  split; [exact inverse_zero | exact inverse_nonzero].
Qed.

(** ** Polynomials *)

Lemma fe_sum_app (l1 l2 : list FieldElement) :
  fe_sum (l1 ++ l2) = (fe_sum l1 + fe_sum l2)%fe.
Proof.
  induction l1 as [|a l1 IH]; simpl; [ring | rewrite IH; ring].
Qed.

Lemma fe_sum_scale (k : FieldElement) (l : list FieldElement) :
  fe_sum (map (fun t => (k * t)%fe) l) = (k * fe_sum l)%fe.
Proof.
  induction l as [|a l IH]; simpl; [ring | rewrite IH; ring].
Qed.

Lemma fe_sum_ext {T : Type} (f g : T -> FieldElement) (l : list T) :
  (forall t, In t l -> f t = g t) ->
  fe_sum (map f l) = fe_sum (map g l).
Proof.
  intros H. f_equal. apply map_ext_in, H.
Qed.

Lemma fe_pow_add (x : FieldElement) (n m : nat) :
  fe_pow x (n + m) = (fe_pow x n * fe_pow x m)%fe.
Proof.
  induction n as [|n IH]; simpl; [ring | rewrite IH; ring].
Qed.

Lemma evaluate_fold (x : FieldElement) (p : Polynomial) :
  forall result x_power,
    fst (fold_left (evaluate_step x) p (result, x_power))
    = (result + x_power * peval p x)%fe.
Proof.
  induction p as [|c p IH]; intros result x_power; simpl.
  - ring.
  - rewrite IH. ring.
Qed.

Lemma evaluate_peval (p : Polynomial) (x : FieldElement) :
  evaluate p x = peval p x.
Proof. unfold evaluate. rewrite evaluate_fold. ring. Qed.

Lemma peval_as_sum (x : FieldElement) (p : Polynomial) :
  peval p x
  = fe_sum (map (fun i => (nth i p 0 * fe_pow x i)%fe) (seq 0 (length p))).
Proof.
  induction p as [|c p IH]; [reflexivity|].
  cbn [peval length]. rewrite <- cons_seq, <- seq_shift, map_cons, map_map.
  cbn [fe_sum fold_right nth fe_pow]. fold (fe_sum).
  rewrite IH, <- fe_sum_scale, map_map.
  change (fold_right fe_add 0%fe) with fe_sum.
  rewrite (fe_sum_ext
             (fun i => (nth (S i) (c :: p) 0 * fe_pow x (S i))%fe)
             (fun i => (x * (nth i p 0 * fe_pow x i))%fe)).
  - ring.
  - intros i _. simpl. ring.
Qed.

Lemma peval_repeat_zero (x : FieldElement) (n : nat) :
  peval (repeat 0%fe n) x = 0%fe.
Proof.
  induction n as [|n IH]; simpl; [reflexivity | rewrite IH; ring].
Qed.

Lemma update_length {T : Type} (l : list T) : forall i e,
  length (update l i e) = length l.
Proof.
  induction l as [|h l IH]; intros [|i] e; simpl; auto.
Qed.

Lemma nth_update_eq {T : Type} (l : list T) : forall i e d,
  (i < length l)%nat -> nth i (update l i e) d = e.
Proof.
  induction l as [|h l IH]; intros [|i] e d H; simpl in *; try lia; auto.
  apply IH. lia.
Qed.

Lemma nth_update_neq {T : Type} (l : list T) : forall i j e d,
  i <> j -> nth j (update l i e) d = nth j l d.
Proof.
  induction l as [|h l IH]; intros [|i] [|j] e d H; simpl;
    try congruence; try reflexivity.
  apply IH. congruence.
Qed.

Lemma add_at_length (v : list FieldElement) (i : nat) (c : FieldElement) :
  length (add_at v i c) = length v.
Proof. apply update_length. Qed.

Lemma peval_add_at (x : FieldElement) (v : list FieldElement) :
  forall i c, (i < length v)%nat ->
    peval (add_at v i c) x = (peval v x + c * fe_pow x i)%fe.
Proof.
  unfold add_at.
  induction v as [|h v IH]; intros [|i] c H; simpl in *; try lia.
  - ring.
  - rewrite IH by lia. ring.
Qed.

(** A loop that adds [h i] to the value of the accumulated polynomial at
    step [i] adds the sum of the [h i]. *)
Lemma fold_peval_acc (x : FieldElement)
    (F : list FieldElement -> nat -> list FieldElement)
    (h : nat -> FieldElement) (n : nat) (idxs : list nat) :
  (forall rc i, In i idxs -> length rc = n ->
     length (F rc i) = n /\ peval (F rc i) x = (peval rc x + h i)%fe) ->
  forall rc, length rc = n ->
    length (fold_left F idxs rc) = n /\
    peval (fold_left F idxs rc) x = (peval rc x + fe_sum (map h idxs))%fe.
Proof.
  induction idxs as [|i idxs IH]; intros HF rc Hrc; simpl.
  - split; [exact Hrc | ring].
  - destruct (HF rc i (or_introl eq_refl) Hrc) as [Hl Hv].
    destruct (IH (fun rc j Hj => HF rc j (or_intror Hj)) (F rc i) Hl)
      as [Hl' Hv'].
    split; [exact Hl'|]. rewrite Hv', Hv. ring.
Qed.

Lemma peval_poly_add (p other : Polynomial) (x : FieldElement) :
  peval (poly_add p other) x = (peval p x + peval other x)%fe.
Proof.
  unfold poly_add.
  set (n := Nat.max (length p) (length other)).
  destruct (fold_peval_acc x (fun rc i => add_at rc i (nth i p 0%fe))
              (fun i => (nth i p 0 * fe_pow x i)%fe) n (seq 0 (length p)))
    with (rc := repeat 0%fe n) as [Hl1 Hv1].
  { intros rc i Hi Hrc. apply in_seq in Hi.
    split; [rewrite add_at_length; exact Hrc|].
    apply peval_add_at. lia. }
  { apply repeat_length. }
  destruct (fold_peval_acc x (fun rc i => add_at rc i (nth i other 0%fe))
              (fun i => (nth i other 0 * fe_pow x i)%fe) n
              (seq 0 (length other)))
    with (rc := fold_left (fun rc i => add_at rc i (nth i p 0%fe))
                  (seq 0 (length p)) (repeat 0%fe n)) as [Hl2 Hv2].
  { intros rc i Hi Hrc. apply in_seq in Hi.
    split; [rewrite add_at_length; exact Hrc|].
    apply peval_add_at. lia. }
  { exact Hl1. }
  rewrite Hv2, Hv1, peval_repeat_zero, <- !peval_as_sum. ring.
Qed.

Lemma peval_poly_scale (p : Polynomial) (s x : FieldElement) :
  peval (poly_scale p s) x = (peval p x * s)%fe.
Proof.
  unfold poly_scale.
  induction p as [|c p IH]; simpl; [ring | rewrite IH; ring].
Qed.

Lemma peval_poly_mul (p other : Polynomial) (x : FieldElement) :
  peval (poly_mul p other) x = (peval p x * peval other x)%fe.
Proof.
  unfold poly_mul.
  destruct p as [|p0 p']; [simpl; ring|].
  destruct other as [|o0 o']; [simpl; ring|].
  set (p := p0 :: p'). set (other := o0 :: o').
  set (n := (length p + length other - 1)%nat).
  assert (Hp : (0 < length p)%nat) by (simpl; lia).
  assert (Ho : (0 < length other)%nat) by (simpl; lia).
  destruct (fold_peval_acc x
              (fun rc i =>
                 fold_left
                   (fun rc j =>
                      add_at rc (i + j)%nat (nth i p 0 * nth j other 0)%fe)
                   (seq 0 (length other)) rc)
              (fun i => (nth i p 0 * fe_pow x i * peval other x)%fe)
              n (seq 0 (length p)))
    with (rc := repeat 0%fe n) as [Hl Hv].
  { intros rc i Hi Hrc. apply in_seq in Hi.
    destruct (fold_peval_acc x
                (fun rc j =>
                   add_at rc (i + j)%nat (nth i p 0 * nth j other 0)%fe)
                (fun j =>
                   (nth i p 0 * fe_pow x i * (nth j other 0 * fe_pow x j))%fe)
                n (seq 0 (length other)))
      with (rc := rc) as [Hl' Hv'].
    - intros rc' j Hj Hrc'. apply in_seq in Hj.
      split; [rewrite add_at_length; exact Hrc'|].
      rewrite peval_add_at by (unfold n in *; lia).
      rewrite fe_pow_add. ring.
    - exact Hrc.
    - split; [exact Hl'|]. rewrite Hv'.
      rewrite (peval_as_sum x other), <- fe_sum_scale, map_map.
      reflexivity. }
  { apply repeat_length. }
  rewrite Hv, peval_repeat_zero, (peval_as_sum x p).
  rewrite (Ring_theory.ARmul_comm
             (Ring_theory.Rth_ARth (Eqsth _) (Eq_ext _ _ _) fe_ring_theory)
             (fe_sum _) (peval other x)).
  rewrite <- fe_sum_scale, map_map.
  rewrite (fe_sum_ext
             (fun i => (nth i p 0 * fe_pow x i * peval other x)%fe)
             (fun i => (peval other x * (nth i p 0 * fe_pow x i))%fe)).
  - ring.
  - intros i _. ring.
Qed.

(** ** Lagrange interpolation *)

Lemma fe_div_nonzero (a b : FieldElement) :
  b <> 0%fe -> exists q, fe_div a b = Ok q /\ (q * b)%fe = a.
Proof.
  intros Hb. destruct (inverse_nonzero b Hb) as (i & Hi & Hmul).
  unfold fe_div. rewrite Hi. simpl. eexists; split; [reflexivity|].
  transitivity (a * (b * i))%fe; [ring | rewrite Hmul; ring].
Qed.

Lemma fe_div_by_zero (a : FieldElement) :
  fe_div a 0%fe = Err CannotInvertZero.
Proof. reflexivity. Qed.

Lemma peval_linear_factor (a x : FieldElement) :
  peval [(0 - a)%fe; 1%fe] x = (x - a)%fe.
Proof. simpl. ring. Qed.

Section Basis.

Variable x_values : list FieldElement.
Variable j : nat.

Let xj : FieldElement := nth j x_values 0%fe.

(** The loop of [basisPolynomial] keeps the value at [x_values[j]] and
    plants a root at every other point it visits. *)
Lemma basis_loop_spec (idxs : list nat) : forall result,
  (forall i, In i idxs -> i <> j -> xj <> nth i x_values 0%fe) ->
  exists L,
    basis_loop j x_values idxs result = Ok L /\
    peval L xj = peval result xj /\
    forall x,
      peval result x = 0%fe \/
      (exists i, In i idxs /\ i <> j /\ x = nth i x_values 0%fe) ->
      peval L x = 0%fe.
Proof.
  induction idxs as [|i idxs IH]; intros result Hd; cbn [basis_loop].
  - exists result. split; [reflexivity|]. split; [reflexivity|].
    intros x [H|(i & [] & _)]. exact H.
  - destruct (Nat.eqb_spec i j) as [E|E].
    + destruct (IH result) as (L & HL & Hj & Hz).
      { intros i' Hi'. apply Hd. right; exact Hi'. }
      exists L. split; [exact HL|]. split; [exact Hj|].
      intros x [H|(i' & [Hi'|Hi'] & Hne & Hx)].
      * apply Hz. left; exact H.
      * congruence.
      * apply Hz. right. exists i'. auto.
    + assert (Hden : (xj - nth i x_values 0)%fe <> 0%fe).
      { rewrite fe_sub_eq_0. apply Hd; [left; reflexivity | exact E]. }
      destruct (fe_div_nonzero 1%fe _ Hden) as (q & Hq & Hqd).
      fold xj. rewrite Hq. cbn [bind].
      set (result' :=
             poly_scale
               (poly_mul result [(0 - nth i x_values 0)%fe; 1%fe]) q).
      assert (Hval : forall x,
                 peval result' x
                 = (peval result x * (x - nth i x_values 0) * q)%fe).
      { intros x. unfold result'.
        rewrite peval_poly_scale, peval_poly_mul, peval_linear_factor.
        reflexivity. }
      destruct (IH result') as (L & HL & Hj & Hz).
      { intros i' Hi'. apply Hd. right; exact Hi'. }
      exists L. split; [exact HL|]. split.
      * rewrite Hj, Hval.
        transitivity (peval result xj * (q * (xj - nth i x_values 0)))%fe;
          [ring | rewrite Hqd; ring].
      * intros x [H|(i' & [Hi'|Hi'] & Hne & Hx)].
        -- apply Hz. left. rewrite Hval, H. ring.
        -- apply Hz. left. rewrite Hval. subst i' x. ring.
        -- apply Hz. right. exists i'. auto.
Qed.

End Basis.

(** On pairwise distinct points, [basisPolynomial(j, xs)] returns a
    polynomial that is 1 at [xs[j]] and 0 at every other [xs[i]]. *)
Lemma basisPolynomial_spec (x_values : list FieldElement) (j : nat) :
  NoDup x_values -> (j < length x_values)%nat ->
  exists L,
    basisPolynomial j x_values = Ok L /\
    peval L (nth j x_values 0%fe) = 1%fe /\
    forall i, (i < length x_values)%nat -> i <> j ->
      peval L (nth i x_values 0%fe) = 0%fe.
Proof.
  intros Hnd Hj. unfold basisPolynomial.
  destruct (basis_loop_spec x_values j (seq 0 (length x_values)) [1%fe])
    as (L & HL & Hone & Hzero).
  { intros i Hi Hne Heq. apply in_seq in Hi.
    apply Hne. symmetry.
    apply (proj1 (NoDup_nth x_values 0%fe) Hnd); [exact Hj | lia | exact Heq]. }
  exists L. split; [exact HL|]. split.
  - rewrite Hone. simpl. ring.
  - intros i Hi Hne. apply Hzero. right. exists i.
    split; [apply in_seq; lia|]. auto.
Qed.

(** A repeated point makes [basisPolynomial] divide by zero. *)
Lemma basisPolynomial_repeated_point (x : FieldElement) :
  basisPolynomial 0 [x; x] = Err CannotInvertZero.
Proof.
  unfold basisPolynomial. simpl.
  replace (x - x)%fe with 0%fe by ring. reflexivity.
Qed.

Lemma interpolate_loop_spec (x_values y_values : list FieldElement)
    (js : list nat) :
  NoDup x_values -> NoDup js ->
  (forall j, In j js -> (j < length x_values)%nat) ->
  forall result,
  exists R,
    interpolate_loop x_values y_values js result = Ok R /\
    forall i, (i < length x_values)%nat ->
      (In i js ->
       peval R (nth i x_values 0%fe)
       = (peval result (nth i x_values 0) + nth i y_values 0)%fe) /\
      (~ In i js ->
       peval R (nth i x_values 0%fe) = peval result (nth i x_values 0%fe)).
Proof.
  intros Hxs. induction js as [|j js IH]; intros Hjs Hlt result;
    cbn [interpolate_loop].
  - exists result. split; [reflexivity|]. intros i _. split; [intros []|auto].
  - inversion Hjs as [|? ? Hnotin Hjs']; subst.
    destruct (basisPolynomial_spec x_values j Hxs (Hlt j (or_introl eq_refl)))
      as (L & HL & Hone & Hzero).
    rewrite HL. cbn [bind].
    set (result' := poly_add result (poly_scale L (nth j y_values 0%fe))).
    destruct (IH Hjs' (fun k Hk => Hlt k (or_intror Hk)) result')
      as (R & HR & Hval).
    exists R. split; [exact HR|].
    assert (Hres : forall x,
               peval result' x
               = (peval result x + peval L x * nth j y_values 0)%fe).
    { intros x. unfold result'.
      rewrite peval_poly_add, peval_poly_scale. reflexivity. }
    intros i Hi. destruct (Hval i Hi) as [Hin Hout].
    destruct (Nat.eq_dec i j) as [->|Hne].
    + split; [intros _ | intros Hn; exfalso; apply Hn; left; reflexivity].
      rewrite (Hout Hnotin), Hres, Hone. ring.
    + assert (HL0 := Hzero i Hi Hne).
      split.
      * intros [E|Hin']; [congruence|].
        rewrite (Hin Hin'), Hres, HL0. ring.
      * intros Hn. rewrite Hout by (intros H; apply Hn; right; exact H).
        rewrite Hres, HL0. ring.
Qed.

(** On pairwise distinct points [interpolate] returns a polynomial that
    takes the given values at the points. *)
Lemma interpolate_at_points (xs ys : list FieldElement) :
  NoDup xs -> length xs = length ys ->
  exists p,
    interpolate xs ys = Ok p /\
    forall i, (i < length xs)%nat ->
      peval p (nth i xs 0%fe) = nth i ys 0%fe.
Proof.
  intros Hnd Hlen. unfold interpolate.
  rewrite Hlen, Nat.eqb_refl. cbn [negb]. rewrite <- Hlen.
  destruct (interpolate_loop_spec xs ys (seq 0 (length xs)) Hnd
              (seq_NoDup _ _)
              (fun j Hj => proj2 (proj1 (in_seq _ _ _) Hj)) [0%fe])
    as (R & HR & Hval).
  exists R. split; [exact HR|].
  intros i Hi.
  rewrite (proj1 (Hval i Hi)) by (apply in_seq; lia).
  simpl. ring.
Qed.

(** C6: for pairwise-distinct points [xs] and values [ys] of the same
    length, [interpolate(xs, ys)] returns a polynomial whose [evaluate] at
    [xs[i]] is [ys[i]] for every index [i]. *)
Theorem interpolate_roundtrip (xs ys : list FieldElement) :
  NoDup xs -> length xs = length ys ->
  exists p,
    interpolate xs ys = Ok p /\
    forall i, (i < length xs)%nat ->
      evaluate p (nth i xs 0%fe) = nth i ys 0%fe.
Proof.
  intros Hnd Hlen.
  destruct (interpolate_at_points xs ys Hnd Hlen) as (p & Hp & Hval).
  exists p. split; [exact Hp|].
  intros i Hi. rewrite evaluate_peval. apply Hval, Hi.
Qed.

(** [interpolate] rejects vectors of different sizes. *)
Lemma interpolate_size_mismatch (xs ys : list FieldElement) :
  length xs <> length ys -> interpolate xs ys = Err SizesMustMatch.
Proof.
  intros H. unfold interpolate.
  destruct (Nat.eqb_spec (length xs) (length ys)); [contradiction|reflexivity].
Qed.

(** ** The constraint system *)

Lemma row_holds_iff (r : R1CS) (witness : list FieldElement) (i : nat) :
  row_holds r witness i = true <-> row_equation r witness i.
Proof. unfold row_holds, row_equation. apply fe_eqb_eq. Qed.

Lemma R1CS_new_shape (vars constraints : nat) :
  R1CS_shape (R1CS_new vars constraints).
Proof.
  unfold R1CS_shape, R1CS_new; simpl.
  assert (H : length (repeat (repeat 0%fe vars) constraints) = constraints /\
              Forall (fun row : list FieldElement => length row = vars)
                     (repeat (repeat 0%fe vars) constraints)).
  { split; [apply repeat_length|].
    apply Forall_forall. intros row Hrow.
    apply repeat_spec in Hrow. subst. apply repeat_length. }
  auto.
Qed.

Lemma verify_rows_all (r : R1CS) (witness : list FieldElement)
    (rows : list nat) :
  (forall i, In i rows -> row_holds r witness i = true) ->
  verify_rows r witness rows = (true, rows).
Proof.
  induction rows as [|i rows IH]; intros H; cbn [verify_rows].
  - reflexivity.
  - rewrite (H i (or_introl eq_refl)). cbn [negb].
    rewrite IH by (intros k Hk; apply H; right; exact Hk). reflexivity.
Qed.

Lemma verify_rows_first_failure (r : R1CS) (witness : list FieldElement)
    (before : list nat) (i : nat) (after : list nat) :
  (forall k, In k before -> row_holds r witness k = true) ->
  row_holds r witness i = false ->
  verify_rows r witness (before ++ i :: after) = (false, before ++ [i]).
Proof.
  intros Hb Hi. induction before as [|k before IH]; cbn [verify_rows app].
  - rewrite Hi. reflexivity.
  - rewrite (Hb k (or_introl eq_refl)). cbn [negb].
    rewrite IH by (intros k' Hk'; apply Hb; right; exact Hk'). reflexivity.
Qed.

Lemma verify_rows_true (r : R1CS) (witness : list FieldElement)
    (rows : list nat) :
  fst (verify_rows r witness rows) = true <->
  forall i, In i rows -> row_holds r witness i = true.
Proof.
  split.
  - induction rows as [|i rows IH]; cbn [verify_rows]; intros H k Hk.
    + destruct Hk.
    + destruct (row_holds r witness i) eqn:Hi; cbn [negb] in H.
      * destruct (verify_rows r witness rows) as [ok ex]. simpl in *.
        destruct Hk as [<-|Hk]; [exact Hi | apply IH; assumption].
      * discriminate H.
  - intros H. rewrite verify_rows_all by exact H. reflexivity.
Qed.

Lemma R1CS_verify_true_iff (r : R1CS) (witness : list FieldElement) :
  length witness = R_num_variables r ->
  (R1CS_verify r witness = true <->
   forall i, (i < R_num_constraints r)%nat -> row_equation r witness i).
Proof.
  intros H. unfold R1CS_verify, R1CS_verify_run.
  rewrite H, Nat.eqb_refl. cbn [negb].
  rewrite verify_rows_true. split; intros Hall i Hi.
  - apply row_holds_iff, Hall, in_seq. lia.
  - apply row_holds_iff, Hall. apply in_seq in Hi. lia.
Qed.

Lemma nth_update_Z {T : Type} (M : list T) (idx : Z) (e d : T) :
  0 <= idx < Z.of_nat (length M) ->
  nth (Z.to_nat idx) (update M (Z.to_nat idx) e) d = e.
Proof. intros H. apply nth_update_eq. lia. Qed.

(** C9: [setConstraint(index, a, b, c)] raises "Constraint index out of
    bounds" exactly when [index >= num_constraints]; for an index in range
    it stores [a], [b], [c] as row [index] of [A], [B], [C] and leaves
    every other row of the three matrices, and the dimensions, as they
    were. *)
Theorem setConstraint_spec (r : R1CS) (idx : Z) (a b c : list FieldElement) :
  (setConstraint r idx a b c = Err ConstraintIndexOutOfBounds <->
   idx >= Z.of_nat (R_num_constraints r)) /\
  (R1CS_shape r -> 0 <= idx < Z.of_nat (R_num_constraints r) ->
   exists r',
     setConstraint r idx a b c = Ok r' /\
     nth (Z.to_nat idx) (R_A r') [] = a /\
     nth (Z.to_nat idx) (R_B r') [] = b /\
     nth (Z.to_nat idx) (R_C r') [] = c /\
     (forall i, i <> Z.to_nat idx ->
        nth i (R_A r') [] = nth i (R_A r) [] /\
        nth i (R_B r') [] = nth i (R_B r) [] /\
        nth i (R_C r') [] = nth i (R_C r) []) /\
     length (R_A r') = length (R_A r) /\
     length (R_B r') = length (R_B r) /\
     length (R_C r') = length (R_C r) /\
     R_num_variables r' = R_num_variables r /\
     R_num_constraints r' = R_num_constraints r).
Proof.
  unfold setConstraint. split.
  - destruct (Z.geb_spec idx (Z.of_nat (R_num_constraints r))) as [H|H].
    + split; [intros _; lia | reflexivity].
    + split; [|lia].
      destruct ((idx <? 0) || _ || _ || _); discriminate.
  - intros ((HA & _) & (HB & _) & (HC & _)) Hidx.
    destruct (Z.geb_spec idx (Z.of_nat (R_num_constraints r))) as [H|_];
      [lia|].
    rewrite HA, HB, HC.
    destruct (Z.ltb_spec idx 0); [lia|].
    destruct (Z.leb_spec (Z.of_nat (R_num_constraints r)) idx); [lia|].
    cbn [orb].
    eexists; split; [reflexivity|]. cbn.
    repeat match goal with
           | |- _ /\ _ => split
           | |- forall _, _ => intro
           end;
      try (apply nth_update_eq; lia);
      try (apply nth_update_neq; congruence);
      try (rewrite update_length; congruence); reflexivity.
Qed.

(** ** The QAP built from an R1CS *)

Lemma eval_points_length (m : nat) : length (eval_points m) = m.
Proof. unfold eval_points. rewrite length_map, length_seq. reflexivity. Qed.

Lemma nth_eval_points (m k : nat) :
  (k < m)%nat -> nth k (eval_points m) 0%fe = FE (Z.of_nat k + 1).
Proof.
  intros H. unfold eval_points.
  rewrite (nth_indep _ 0%fe (FE (Z.of_nat 0 + 1)))
    by (rewrite length_map, length_seq; exact H).
  rewrite (map_nth (fun i => FE (Z.of_nat i + 1))), seq_nth by exact H.
  reflexivity.
Qed.

(** The evaluation points are pairwise distinct: [num_constraints] is an
    [int], so at most [2^31 - 1 = SMALL_PRIME] points [1, 2, ...] are
    reduced modulo the prime. *)
Lemma eval_points_NoDup (m : nat) :
  Z.of_nat m <= SMALL_PRIME -> NoDup (eval_points m).
Proof.
  intros Hm. unfold eval_points.
  apply NoDup_map_NoDup_ForallPairs; [|apply seq_NoDup].
  intros i k Hi Hk E. apply in_seq in Hi, Hk.
  apply (f_equal value) in E. rewrite !value_FE in E.
  assert (Hred : forall n : nat, (n < m)%nat ->
            (Z.of_nat n + 1) mod SMALL_PRIME
            = if Z.of_nat n + 1 =? SMALL_PRIME then 0 else Z.of_nat n + 1).
  { intros n Hn. destruct (Z.eqb_spec (Z.of_nat n + 1) SMALL_PRIME) as [->|Hne].
    - apply Z_mod_same_full.
    - apply Z.mod_small. lia. }
  rewrite (Hred i), (Hred k) in E by lia.
  destruct (Z.eqb_spec (Z.of_nat i + 1) SMALL_PRIME),
           (Z.eqb_spec (Z.of_nat k + 1) SMALL_PRIME); lia.
Qed.

Lemma column_length (M : list (list FieldElement)) (m var : nat) :
  length (column M m var) = m.
Proof. unfold column. rewrite length_map, length_seq. reflexivity. Qed.

Lemma nth_column (M : list (list FieldElement)) (m var k : nat) :
  (k < m)%nat ->
  nth k (column M m var) 0%fe = nth var (nth k M []) 0%fe.
Proof.
  intros H. unfold column.
  rewrite (nth_indep _ 0%fe (nth var (nth 0%nat M []) 0%fe))
    by (rewrite length_map, length_seq; exact H).
  rewrite (map_nth (fun c => nth var (nth c M []) 0%fe)), seq_nth by exact H.
  reflexivity.
Qed.

Section FromR1CS.

Variable r1cs : R1CS.
Hypothesis constraints_fit : Z.of_nat (R_num_constraints r1cs) <= SMALL_PRIME.

Let m : nat := R_num_constraints r1cs.
Let x_values : list FieldElement := eval_points m.

Lemma interpolate_column (M : list (list FieldElement)) (var : nat) :
  exists p,
    interpolate x_values (column M m var) = Ok p /\
    forall k, (k < m)%nat ->
      peval p (FE (Z.of_nat k + 1)) = nth var (nth k M []) 0%fe.
Proof.
  destruct (interpolate_at_points x_values (column M m var))
  as (p & Hp & Hval).
- apply eval_points_NoDup. exact constraints_fit.
- unfold x_values. rewrite eval_points_length, column_length. reflexivity.
- exists p. split; [exact Hp|]. intros k Hk.
  rewrite <- nth_eval_points with (m := m) by exact Hk.
  fold x_values.
  rewrite Hval by (unfold x_values; rewrite eval_points_length; exact Hk).
  apply nth_column. exact Hk.
Qed.

Lemma interpolates_cons (M : list (list FieldElement)) (var : nat)
    (vars : list nat) (p : Polynomial) (polys : list Polynomial) :
  (forall k, (k < m)%nat ->
     peval p (FE (Z.of_nat k + 1)) = nth var (nth k M []) 0%fe) ->
  interpolates m M vars polys ->
  interpolates m M (var :: vars) (p :: polys).
Proof.
  intros Hp [Hlen Hval]. split; [simpl; congruence|].
  intros [|n] k Hn Hk; simpl in *; [apply Hp; exact Hk|].
  apply Hval; lia.
Qed.

Lemma fromR1CS_loop_spec (vars : list nat) : forall qA qB qC,
  exists pa pb pc,
    fromR1CS_loop r1cs x_values vars qA qB qC
    = Ok (qA ++ pa, qB ++ pb, qC ++ pc) /\
    interpolates m (R_A r1cs) vars pa /\
    interpolates m (R_B r1cs) vars pb /\
    interpolates m (R_C r1cs) vars pc.
Proof.
  induction vars as [|var vars IH]; intros qA qB qC; cbn [fromR1CS_loop].
  - exists [], [], []. rewrite !app_nil_r.
    split; [reflexivity|].
    repeat split; intros n k Hn; simpl in Hn; lia.
  - destruct (interpolate_column (R_A r1cs) var) as (a_poly & Ha & Hav).
    destruct (interpolate_column (R_B r1cs) var) as (b_poly & Hb & Hbv).
    destruct (interpolate_column (R_C r1cs) var) as (c_poly & Hc & Hcv).
    fold m. rewrite Ha, Hb, Hc. cbn [bind].
    destruct (IH (qA ++ [a_poly]) (qB ++ [b_poly]) (qC ++ [c_poly]))
      as (pa & pb & pc & Hloop & HA & HB & HC).
    exists (a_poly :: pa), (b_poly :: pb), (c_poly :: pc).
    rewrite Hloop, <- !app_assoc. cbn [app].
    split; [reflexivity|].
    split; [apply interpolates_cons; assumption|].
    split; apply interpolates_cons; assumption.
Qed.

End FromR1CS.

Lemma fold_add_sum {T : Type} (f : T -> FieldElement) (l : list T) :
  forall acc,
    fold_left (fun val t => (val + f t)%fe) l acc
    = (acc + fe_sum (map f l))%fe.
Proof.
  induction l as [|t l IH]; intros acc; simpl; [ring|].
  rewrite IH. ring.
Qed.

Lemma dot_as_sum (n : nat) (row witness : list FieldElement) :
  dot n row witness
  = fe_sum (map (fun j => (nth j row 0 * nth j witness 0)%fe) (seq 0 n)).
Proof.
  unfold dot.
  rewrite (fold_add_sum (fun j => (nth j row 0 * nth j witness 0)%fe)).
  ring.
Qed.

Lemma peval_combine_polys (polys : list Polynomial)
    (witness : list FieldElement) (n : nat) (x : FieldElement) :
  peval (combine_polys polys witness n) x
  = fe_sum (map (fun i => (peval (nth i polys []) x * nth i witness 0)%fe)
                (seq 0 n)).
Proof.
  unfold combine_polys.
  assert (H : forall idxs P_x,
             peval (fold_left
                      (fun P_x i =>
                         poly_add P_x
                           (poly_scale (nth i polys []) (nth i witness 0%fe)))
                      idxs P_x) x
             = (peval P_x x
                + fe_sum (map (fun i =>
                                 (peval (nth i polys []) x
                                  * nth i witness 0)%fe) idxs))%fe).
  { induction idxs as [|i idxs IH]; intros P_x; simpl; [ring|].
    rewrite IH, peval_poly_add, peval_poly_scale. ring. }
  rewrite H. simpl. ring.
Qed.

(** The combined polynomial of a matrix takes, at evaluation point
    [k + 1], the dot product of row [k] with the witness. *)
Lemma combine_polys_at_point (M : list (list FieldElement))
    (polys : list Polynomial) (witness : list FieldElement) (n m k : nat) :
  (forall i, (i < n)%nat ->
     peval (nth i polys []) (FE (Z.of_nat k + 1))
     = nth i (nth k M []) 0%fe) ->
  evaluate (combine_polys polys witness n) (FE (Z.of_nat k + 1))
  = dot n (nth k M []) witness.
Proof.
  intros H. rewrite evaluate_peval, peval_combine_polys, dot_as_sum.
  apply fe_sum_ext. intros i Hi. apply in_seq in Hi.
  rewrite H by lia. reflexivity.
Qed.

(** The QAP invariant: [fromR1CS] returns, and polynomial [i] of each
    family takes at point [k + 1] the entry [k][i] of its matrix. *)
Lemma fromR1CS_spec (r1cs : R1CS) :
  Z.of_nat (R_num_constraints r1cs) <= SMALL_PRIME ->
  exists qap,
    fromR1CS r1cs = Ok qap /\
    Q_num_variables qap = R_num_variables r1cs /\
    length (A_polys qap) = R_num_variables r1cs /\
    length (B_polys qap) = R_num_variables r1cs /\
    length (C_polys qap) = R_num_variables r1cs /\
    forall i k, (i < R_num_variables r1cs)%nat ->
      (k < R_num_constraints r1cs)%nat ->
      peval (nth i (A_polys qap) []) (FE (Z.of_nat k + 1))
      = nth i (nth k (R_A r1cs) []) 0%fe /\
      peval (nth i (B_polys qap) []) (FE (Z.of_nat k + 1))
      = nth i (nth k (R_B r1cs) []) 0%fe /\
      peval (nth i (C_polys qap) []) (FE (Z.of_nat k + 1))
      = nth i (nth k (R_C r1cs) []) 0%fe.
Proof.
  intros Hfit. unfold fromR1CS.
  destruct (fromR1CS_loop_spec r1cs Hfit (seq 0 (R_num_variables r1cs))
              [] [] [])
    as (pa & pb & pc & Hloop & [HlA HA] & [HlB HB] & [HlC HC]).
  rewrite Hloop. cbn [bind app].
  rewrite length_seq in *.
  eexists; split; [reflexivity|]. cbn.
  repeat (split; [first [reflexivity | assumption]|]).
  intros i k Hi Hk.
  specialize (HA i k). specialize (HB i k). specialize (HC i k).
  rewrite seq_nth in * by exact Hi. cbn [Nat.add] in *.
  auto.
Qed.

(** C1: for an R1CS and a witness of length [num_variables], the combined
    polynomials [(A(x), B(x), C(x))] that [computePolynomials] returns on
    the QAP built by [fromR1CS] satisfy [A(k) * B(k) = C(k)] at every
    evaluation point [k] in [1 .. num_constraints] exactly when every row
    [i] of the system has [(A_i.w) * (B_i.w) = (C_i.w)], that is, exactly
    when [R1CS::verify] accepts the witness. *)
Theorem qap_bridge (r1cs : R1CS) (witness : list FieldElement) :
  R1CS_shape r1cs ->
  Z.of_nat (R_num_constraints r1cs) <= 2147483647 ->
  length witness = R_num_variables r1cs ->
  exists qap,
    fromR1CS r1cs = Ok qap /\
    let '(A_x, B_x, C_x) := computePolynomials qap witness in
    let identity_at_points :=
      forall k : Z, 1 <= k <= Z.of_nat (R_num_constraints r1cs) ->
        (evaluate A_x (FE k) * evaluate B_x (FE k))%fe
        = evaluate C_x (FE k) in
    (identity_at_points <->
     forall i, (i < R_num_constraints r1cs)%nat ->
       row_equation r1cs witness i) /\
    (identity_at_points <-> R1CS_verify r1cs witness = true).
Proof.
  intros _ Hfit Hlen.
  destruct (fromR1CS_spec r1cs Hfit)
    as (qap & Hq & Hnv & _ & _ & _ & Hpolys).
  exists qap. split; [exact Hq|].
  unfold computePolynomials. rewrite Hnv.
  assert (Hpoint : forall k, (k < R_num_constraints r1cs)%nat ->
    evaluate (combine_polys (A_polys qap) witness (R_num_variables r1cs))
             (FE (Z.of_nat k + 1))
    = dot (R_num_variables r1cs) (nth k (R_A r1cs) []) witness /\
    evaluate (combine_polys (B_polys qap) witness (R_num_variables r1cs))
             (FE (Z.of_nat k + 1))
    = dot (R_num_variables r1cs) (nth k (R_B r1cs) []) witness /\
    evaluate (combine_polys (C_polys qap) witness (R_num_variables r1cs))
             (FE (Z.of_nat k + 1))
    = dot (R_num_variables r1cs) (nth k (R_C r1cs) []) witness).
  { intros k Hk.
    repeat split;
      apply (combine_polys_at_point _ _ _ _ (R_num_constraints r1cs));
      intros i Hi; apply (Hpolys i k Hi Hk). }
  cbv zeta.
  assert (Hrows :
    (forall k : Z, 1 <= k <= Z.of_nat (R_num_constraints r1cs) ->
       (evaluate (combine_polys (A_polys qap) witness (R_num_variables r1cs))
                 (FE k)
        * evaluate (combine_polys (B_polys qap) witness
                      (R_num_variables r1cs)) (FE k))%fe
       = evaluate (combine_polys (C_polys qap) witness (R_num_variables r1cs))
                  (FE k))
    <->
    (forall i, (i < R_num_constraints r1cs)%nat ->
       row_equation r1cs witness i)).
  { unfold row_equation. split.
    - intros H i Hi. destruct (Hpoint i Hi) as (<- & <- & <-).
      apply H. lia.
    - intros H k Hk.
      replace k with (Z.of_nat (Z.to_nat (k - 1)) + 1) by lia.
      destruct (Hpoint (Z.to_nat (k - 1))) as (-> & -> & ->); [lia|].
      apply H. lia. }
  split; [exact Hrows|].
  rewrite Hrows. symmetry. apply R1CS_verify_true_iff, Hlen.
Qed.

(** ** The curve group *)

Lemma FE_2_nonzero : FE 2 <> 0%fe.
Proof. intros H. apply (f_equal value) in H. discriminate H. Qed.

Lemma double_eq_0 (y : FieldElement) : (y * FE 2)%fe = 0%fe <-> y = 0%fe.
Proof.
  split; intros H.
  - destruct (fe_mul_eq_0 _ _ H) as [E|E]; [exact E|].
    exfalso. exact (FE_2_nonzero E).
  - subst. ring.
Qed.

(** Doubling a point whose [y] is zero divides by zero: the tangent slope
    has denominator [2 * y]. *)
Lemma ec_add_double_y_zero (c : Curve) (p other : ECPoint) :
  is_infinity p = false -> is_infinity other = false ->
  ec_x p = ec_x other -> ec_y p = ec_y other -> ec_y p = 0%fe ->
  ec_add c p other = Err CannotInvertZero.
Proof.
  intros Hp Ho Hx Hy H0. unfold ec_add.
  rewrite Hp, Ho, <- Hx, <- Hy.
  rewrite (proj2 (fe_eqb_eq (ec_x p) (ec_x p)) eq_refl).
  rewrite (proj2 (fe_eqb_eq (ec_y p) (ec_y p)) eq_refl).
  cbn [andb negb].
  rewrite (proj2 (double_eq_0 (ec_y p)) H0).
  rewrite fe_div_by_zero. reflexivity.
Qed.

(** In every other case the sum is returned. *)
Lemma ec_add_returns (c : Curve) (p other : ECPoint) :
  is_infinity p = true \/ is_infinity other = true \/
  ec_x p <> ec_x other \/ ec_y p <> ec_y other \/ ec_y p <> 0%fe ->
  exists q, ec_add c p other = Ok q.
Proof.
  intros H. unfold ec_add.
  destruct (is_infinity p) eqn:Hp; [eauto|].
  destruct (is_infinity other) eqn:Ho; [eauto|].
  destruct H as [H|[H|H]]; try discriminate.
  destruct (fe_eqb (ec_x p) (ec_x other)) eqn:Ex;
    destruct (fe_eqb (ec_y p) (ec_y other)) eqn:Ey; cbn [andb negb];
    eauto.
  - apply fe_eqb_eq in Ex, Ey.
    destruct H as [H|[H|H]]; try contradiction.
    destruct (fe_div_nonzero (ec_x p * ec_x p * FE 3 + curve_a c)%fe
                             (ec_y p * FE 2)%fe) as (q & Hq & _).
    { rewrite double_eq_0. exact H. }
    rewrite Hq. cbn [bind]. eauto.
  - apply fe_eqb_neq in Ex.
    destruct (fe_div_nonzero (ec_y other - ec_y p)%fe
                             (ec_x other - ec_x p)%fe) as (q & Hq & _).
    { rewrite fe_sub_eq_0. congruence. }
    rewrite Hq. cbn [bind]. eauto.
  - apply fe_eqb_neq in Ex.
    destruct (fe_div_nonzero (ec_y other - ec_y p)%fe
                             (ec_x other - ec_x p)%fe) as (q & Hq & _).
    { rewrite fe_sub_eq_0. congruence. }
    rewrite Hq. cbn [bind]. eauto.
Qed.

(** The division of the slope computation fails in exactly one case. *)
Lemma ec_add_raises_iff (c : Curve) (p other : ECPoint) :
  (exists e, ec_add c p other = Err e) <->
  is_infinity p = false /\ is_infinity other = false /\
  ec_x p = ec_x other /\ ec_y p = ec_y other /\ ec_y p = 0%fe.
Proof.
  split.
  - intros [e He].
    destruct (is_infinity p) eqn:Hp.
    { destruct (ec_add_returns c p other) as [q Hq]; [auto|congruence]. }
    destruct (is_infinity other) eqn:Ho.
    { destruct (ec_add_returns c p other) as [q Hq]; [auto|congruence]. }
    destruct (fe_eqb (ec_x p) (ec_x other)) eqn:Ex.
    2:{ apply fe_eqb_neq in Ex.
        destruct (ec_add_returns c p other) as [q Hq]; [auto|congruence]. }
    destruct (fe_eqb (ec_y p) (ec_y other)) eqn:Ey.
    2:{ apply fe_eqb_neq in Ey.
        destruct (ec_add_returns c p other) as [q Hq]; [auto 6|congruence]. }
    destruct (fe_eqb (ec_y p) 0%fe) eqn:E0.
    2:{ apply fe_eqb_neq in E0.
        destruct (ec_add_returns c p other) as [q Hq]; [auto 6|congruence]. }
    apply fe_eqb_eq in Ex, Ey, E0. auto.
  - intros (Hp & Ho & Hx & Hy & H0). exists CannotInvertZero.
    apply ec_add_double_y_zero; assumption.
Qed.

(** C5: the slope division of point addition does divide by the additive
    identity outside the guarded vertical-pair case: adding to itself a
    point whose [y] is zero raises "Cannot invert zero".  This holds for
    every curve and every [x]; on the curve [y^2 = x^3 + 1] the point
    [(SMALL_PRIME - 1, 0)] satisfies the curve equation. *)
Theorem ec_add_doubling_y_zero :
  (forall (c : Curve) (x : FieldElement),
     ec_add c (ECPoint_xy x 0%fe) (ECPoint_xy x 0%fe) = Err CannotInvertZero) /\
  on_curve (mkCurve (FE 0) (FE 1)) (FE 2147483646) (FE 0) = true /\
  ec_add (mkCurve (FE 0) (FE 1))
         (ECPoint_xy (FE 2147483646) (FE 0))
         (ECPoint_xy (FE 2147483646) (FE 0)) = Err CannotInvertZero.
Proof.
  assert (H : forall (c : Curve) (x : FieldElement),
             ec_add c (ECPoint_xy x 0%fe) (ECPoint_xy x 0%fe)
             = Err CannotInvertZero).
  { intros c x. apply ec_add_double_y_zero; reflexivity. }
  split; [exact H|]. split; [vm_compute; reflexivity | apply (H _ (FE _))].
Qed.

(** *** Scalar multiples of the generator *)

Lemma size_nat_bound (s : positive) : forall n : nat,
  Zpos s < 2 ^ Z.of_nat n -> (Pos.size_nat s <= n)%nat.
Proof.
  induction s as [s IH|s IH|]; intros [|n] H; cbn [Pos.size_nat];
    try (simpl in H; lia);
    rewrite Nat2Z.inj_succ, Z.pow_succ_r in H by lia.
  - apply le_n_S, IH. lia.
  - apply le_n_S, IH. lia.
Qed.

Lemma ec_mul_loop_returns (c : Curve) (s : positive) :
  forall (n : nat) (result base : ECPoint),
    chain_ok c n base = true -> (Pos.size_nat s <= n)%nat ->
    exists q, ec_mul_loop c s result base = Ok q.
Proof.
  induction s as [s IH|s IH|]; intros [|n] result base Hc Hs;
    cbn [Pos.size_nat] in Hs; try lia;
    cbn [chain_ok] in Hc; apply andb_prop in Hc as [Hy Hd];
    apply negb_true_iff, fe_eqb_neq in Hy;
    destruct (ec_add c base base) as [base'|] eqn:Hdbl; try discriminate;
    cbn [ec_mul_loop].
  - destruct (ec_add_returns c result base) as [result' Hr].
    { destruct (fe_eqb (ec_y result) (ec_y base)) eqn:E.
      - apply fe_eqb_eq in E. right; right; right; right. congruence.
      - apply fe_eqb_neq in E. auto. }
    rewrite Hr, Hdbl. cbn [bind]. apply (IH n); [exact Hd | lia].
  - rewrite Hdbl. cbn [bind]. apply (IH n); [exact Hd | lia].
  - destruct (ec_add_returns c result base) as [result' Hr].
    { destruct (fe_eqb (ec_y result) (ec_y base)) eqn:E.
      - apply fe_eqb_eq in E. right; right; right; right. congruence.
      - apply fe_eqb_neq in E. auto. }
    rewrite Hr, Hdbl. cbn [bind]. eauto.
Qed.

Lemma G_chain_ok : chain_ok default_curve 64 G = true.
Proof. vm_compute. reflexivity. Qed.

(** Every [uint64_t] multiple of the generator is computed without a
    division error. *)
Lemma G_mul_returns (scalar : Z) :
  scalar < 2 ^ 64 -> exists q, ec_mul default_curve G scalar = Ok q.
Proof.
  intros H. destruct scalar as [|s|s]; cbn [ec_mul]; eauto.
  cbn [is_infinity G ECPoint_xy].
  apply (ec_mul_loop_returns default_curve s 64);
    [exact G_chain_ok | apply size_nat_bound; exact H].
Qed.

(** The generator of the sources does not satisfy the curve equation
    [y^2 = x^3 + 7]: the constructor prints its warning for it. *)
Lemma G_not_on_curve : on_curve default_curve (ec_x G) (ec_y G) = false.
Proof. vm_compute. reflexivity. Qed.

(** ** The protocol *)

Lemma random_scalar_fits (s : Z) : random_scalar_range s -> s < 2 ^ 64.
Proof. unfold random_scalar_range, SMALL_PRIME. lia. Qed.

Lemma value_fits (a : FieldElement) : getValue a < 2 ^ 64.
Proof.
  unfold getValue. pose proof (value_range a) as H.
  unfold SMALL_PRIME in H. lia.
Qed.

Lemma setup_queries_returns (qap : QAP) (tau_fe : FieldElement)
    (vars : list nat) : forall qa qb qc,
  exists qa' qb' qc',
    setup_queries qap tau_fe vars qa qb qc = Ok (qa', qb', qc').
Proof.
  induction vars as [|i vars IH]; intros qa qb qc; cbn [setup_queries].
  - eauto.
  - destruct (G_mul_returns _ (value_fits
                (evaluate (nth i (A_polys qap) []) tau_fe))) as [ga ->].
    destruct (G_mul_returns _ (value_fits
                (evaluate (nth i (B_polys qap) []) tau_fe))) as [gb ->].
    destruct (G_mul_returns _ (value_fits
                (evaluate (nth i (C_polys qap) []) tau_fe))) as [gc ->].
    cbn [bind]. apply IH.
Qed.

(** The loop that fills [IC] appends one multiple of the generator per
    index, whatever the vector held before. *)
Lemma setup_IC_appends (idxs : list nat) :
  (forall i, In i idxs -> Z.of_nat i + 1 < 2 ^ 64) ->
  exists points,
    map Ok points
    = map (fun i => ec_mul default_curve G (Z.of_nat i + 1)) idxs /\
    forall IC, setup_IC idxs IC = Ok (IC ++ points).
Proof.
  induction idxs as [|i idxs IH]; intros Hb.
  - exists []. split; [reflexivity|]. intros IC. simpl.
    rewrite app_nil_r. reflexivity.
  - destruct (G_mul_returns (Z.of_nat i + 1) (Hb i (or_introl eq_refl)))
      as [g Hg].
    destruct IH as (points & Hmap & Hloop).
    { intros k Hk. apply Hb. right; exact Hk. }
    exists (g :: points). split.
    + cbn [map]. rewrite Hmap, Hg. reflexivity.
    + intros IC. cbn [setup_IC]. rewrite Hg. cbn [bind].
      rewrite Hloop, <- app_assoc. reflexivity.
Qed.

(** [setup] returns for every QAP and every draw of its scalars, and
    appends to the [IC] it is handed a list of points that depends on
    [num_public_inputs] only. *)
Lemma setup_returns (num_public_inputs : Z) :
  0 <= num_public_inputs < 2147483647 ->
  exists IC : list ECPoint,
    map Ok IC
    = map (fun i => ec_mul default_curve G (Z.of_nat i + 1))
          (seq 0 (Z.to_nat (num_public_inputs + 1))) /\
    forall qap r1cs pk vk rnd, setup_scalars_in_range rnd ->
      exists pk' vk',
        setup qap r1cs pk vk num_public_inputs rnd = Ok (pk', vk') /\
        vk_IC vk' = vk_IC vk ++ IC.
Proof.
  intros Hn.
  destruct (setup_IC_appends (seq 0 (Z.to_nat (num_public_inputs + 1))))
    as (IC & Hmap & Hloop).
  { intros i Hi. apply in_seq in Hi. lia. }
  exists IC. split; [exact Hmap|].
  intros qap r1cs pk vk rnd (Ht & Ha & Hb & Hg & Hd). unfold setup.
  destruct (setup_queries_returns qap (FE (tau rnd))
              (seq 0 (Q_num_variables qap))
              (pk_A_query pk) (pk_B_query pk) (pk_C_query pk))
    as (qa & qb & qc & ->).
  destruct (G_mul_returns _ (random_scalar_fits _ Ha)) as [ga ->].
  destruct (G_mul_returns _ (random_scalar_fits _ Hb)) as [gb ->].
  destruct (G_mul_returns _ (random_scalar_fits _ Hg)) as [gg ->].
  destruct (G_mul_returns _ (random_scalar_fits _ Hd)) as [gd ->].
  rewrite Hloop. cbn [bind]. eexists _, _. split; reflexivity.
Qed.

(** C10: the input-consistency points that [setup] produces are the
    [numPublicInputs + 1] points [G * (i + 1)], [i = 0 .. numPublicInputs];
    the same list for every QAP, R1CS and draw of the five setup scalars.
    [setup] appends them to the [IC] of the key it is handed, which is
    empty for the default-constructed key of the callers. *)
Theorem setup_IC_points (num_public_inputs : Z) :
  0 <= num_public_inputs < 2147483647 ->
  exists IC : list ECPoint,
    Z.of_nat (length IC) = num_public_inputs + 1 /\
    (forall i : Z, 0 <= i <= num_public_inputs ->
       ec_mul default_curve G (i + 1)
       = Ok (nth (Z.to_nat i) IC ECPoint_infinity)) /\
    (forall qap r1cs pk vk rnd, setup_scalars_in_range rnd ->
       exists pk' vk',
         setup qap r1cs pk vk num_public_inputs rnd = Ok (pk', vk') /\
         vk_IC vk' = vk_IC vk ++ IC) /\
    (forall qap r1cs rnd, setup_scalars_in_range rnd ->
       exists pk' vk',
         setup qap r1cs ProvingKey_new VerificationKey_new
               num_public_inputs rnd = Ok (pk', vk') /\
         vk_IC vk' = IC).
Proof.
  intros Hn.
  destruct (setup_returns num_public_inputs Hn) as (IC & Hmap & Hsetup).
  assert (Hlen : length IC = Z.to_nat (num_public_inputs + 1)).
  { apply (f_equal (@length _)) in Hmap.
    rewrite !length_map, length_seq in Hmap. exact Hmap. }
  exists IC. split; [lia|]. split; [|split].
  - intros i Hi.
    assert (Hi' : (Z.to_nat i < length IC)%nat) by lia.
    apply (f_equal (fun l => nth (Z.to_nat i) l (Ok ECPoint_infinity)))
      in Hmap.
    rewrite (map_nth (@Ok ECPoint)) in Hmap. rewrite Hmap.
    rewrite (nth_indep _ (Ok ECPoint_infinity)
               (ec_mul default_curve G (Z.of_nat 0 + 1)))
      by (rewrite length_map, length_seq; lia).
    rewrite (map_nth (fun i => ec_mul default_curve G (Z.of_nat i + 1))).
    rewrite seq_nth by lia. f_equal. lia.
  - exact Hsetup.
  - intros qap r1cs rnd Hr.
    destruct (Hsetup qap r1cs ProvingKey_new VerificationKey_new rnd Hr)
      as (pk' & vk' & Hs & HIC).
    exists pk', vk'. split; [exact Hs | exact HIC].
Qed.

(** *** The decision of [verify] *)

Lemma proof_components_finite_iff (proof : Proof) :
  proof_components_finite proof = true <->
  isInfinity (proof_A proof) = false /\
  isInfinity (proof_B proof) = false /\
  isInfinity (proof_C proof) = false.
Proof.
  unfold proof_components_finite.
  destruct (isInfinity (proof_A proof)), (isInfinity (proof_B proof)),
    (isInfinity (proof_C proof)); cbn; intuition congruence.
Qed.

Lemma compute_vk_x_no_inputs (c : Curve) (vk : VerificationKey) :
  succeeds (compute_vk_x c vk []).
Proof. unfold succeeds, compute_vk_x. simpl. eauto. Qed.

(** ** Scenarios *)

Ltac fe_discriminate :=
  match goal with
  | H : _ = _ :> FieldElement |- _ =>
      apply (f_equal value) in H; vm_compute in H; discriminate H
  end.

Lemma scenario_A_shape : R1CS_shape scenario_A.
Proof.
  unfold R1CS_shape, scenario_A; simpl.
  repeat split; repeat constructor.
Qed.

(** Scenario A of the specification: the witness satisfies the system. *)
Lemma scenario_A_verifies :
  R1CS_verify_run scenario_A witness_A = (true, [0%nat]).
Proof. vm_compute. reflexivity. Qed.

(** With the scalars [tau = 5, alpha = 6, beta = 7, gamma = 11,
    delta = 13, r = 17, s = 19] the proof of Scenario A is accepted. *)
Lemma scenario_A_accepted :
  run_protocol scenario_A witness_A [FE 9]
               (mkSetupRandomness 5 6 7 11 13) 17 19 = Ok true.
Proof. vm_compute. reflexivity. Qed.

(** C2 fails as stated: in Scenario A, with the satisfying witness
    [1, 3, 9] and public input [9], the draws [alpha = 2147430436] and
    [r = 1] (both in [1 .. SMALL_PRIME - 1]) make [proof.A] the point at
    infinity, and [verify] returns false. *)
Lemma scenario_A_rejected :
  R1CS_verify scenario_A witness_A = true /\
  setup_scalars_in_range (mkSetupRandomness 5 2147430436 7 11 13) /\
  random_scalar_range 1 /\
  run_protocol scenario_A witness_A [FE 9]
               (mkSetupRandomness 5 2147430436 7 11 13) 1 1 = Ok false.
Proof.
  split; [vm_compute; reflexivity|].
  split; [unfold setup_scalars_in_range, random_scalar_range, SMALL_PRIME;
          simpl; lia|].
  split; [unfold random_scalar_range, SMALL_PRIME; lia|].
  vm_compute. reflexivity.
Qed.

(** *** The theorems at concrete inputs *)

Lemma qap_bridge_witness :
  exists qap,
    fromR1CS scenario_A = Ok qap /\
    let '(A_x, B_x, C_x) := computePolynomials qap witness_A in
    let identity_at_points :=
      forall k : Z, 1 <= k <= 1 ->
        (evaluate A_x (FE k) * evaluate B_x (FE k))%fe
        = evaluate C_x (FE k) in
    (identity_at_points <->
     forall i, (i < 1)%nat -> row_equation scenario_A witness_A i) /\
    (identity_at_points <-> R1CS_verify scenario_A witness_A = true).
Proof.
  apply (qap_bridge scenario_A witness_A).
  - exact scenario_A_shape.
  - simpl. lia.
  - reflexivity.
Defined.

Lemma interpolate_roundtrip_witness :
  exists p,
    interpolate [FE 1; FE 2] [FE 5; FE 7] = Ok p /\
    forall i, (i < 2)%nat ->
      evaluate p (nth i [FE 1; FE 2] 0%fe) = nth i [FE 5; FE 7] 0%fe.
Proof.
  apply (interpolate_roundtrip [FE 1; FE 2] [FE 5; FE 7]).
  - repeat constructor; simpl; intuition; fe_discriminate.
  - reflexivity.
Defined.

Lemma inverse_spec_witness :
  exists b, inverse (FE 3) = Ok b /\ (FE 3 * b)%fe = 1%fe.
Proof.
  apply (proj2 inverse_spec (FE 3)).
  intros H. fe_discriminate.
Defined.

Lemma setConstraint_spec_witness :
  exists r',
    setConstraint (R1CS_new 3 1) 0
      [FE 0; FE 1; FE 0] [FE 0; FE 1; FE 0] [FE 0; FE 0; FE 1] = Ok r' /\
    nth (Z.to_nat 0) (R_A r') [] = [FE 0; FE 1; FE 0] /\
    nth (Z.to_nat 0) (R_B r') [] = [FE 0; FE 1; FE 0] /\
    nth (Z.to_nat 0) (R_C r') [] = [FE 0; FE 0; FE 1] /\
    (forall i, i <> Z.to_nat 0 ->
       nth i (R_A r') [] = nth i (R_A (R1CS_new 3 1)) [] /\
       nth i (R_B r') [] = nth i (R_B (R1CS_new 3 1)) [] /\
       nth i (R_C r') [] = nth i (R_C (R1CS_new 3 1)) []) /\
    length (R_A r') = length (R_A (R1CS_new 3 1)) /\
    length (R_B r') = length (R_B (R1CS_new 3 1)) /\
    length (R_C r') = length (R_C (R1CS_new 3 1)) /\
    R_num_variables r' = R_num_variables (R1CS_new 3 1) /\
    R_num_constraints r' = R_num_constraints (R1CS_new 3 1).
Proof.
  apply (proj2 (setConstraint_spec (R1CS_new 3 1) 0
                  [FE 0; FE 1; FE 0] [FE 0; FE 1; FE 0] [FE 0; FE 0; FE 1])).
  - apply R1CS_new_shape.
  - simpl. lia.
Defined.

Lemma setup_IC_points_witness :
  exists IC : list ECPoint,
    Z.of_nat (length IC) = 1 + 1 /\
    (forall i : Z, 0 <= i <= 1 ->
       ec_mul default_curve G (i + 1)
       = Ok (nth (Z.to_nat i) IC ECPoint_infinity)) /\
    (forall qap r1cs pk vk rnd, setup_scalars_in_range rnd ->
       exists pk' vk',
         setup qap r1cs pk vk 1 rnd = Ok (pk', vk') /\
         vk_IC vk' = vk_IC vk ++ IC) /\
    (forall qap r1cs rnd, setup_scalars_in_range rnd ->
       exists pk' vk',
         setup qap r1cs ProvingKey_new VerificationKey_new 1 rnd
         = Ok (pk', vk') /\
         vk_IC vk' = IC).
Proof.
  apply (setup_IC_points 1). lia.
Defined.

(** * Further properties of the sources *)

(** ** field.h *)

(** X1: the operators [+], [-], [*] of [FieldElement] obey the laws of a
    commutative ring with zero [FieldElement(0)] and one
    [FieldElement(1)]. *)
Theorem field_operators_ring (a b c : FieldElement) :
  (a + 0 = a /\ a * 1 = a /\ a - a = 0 /\ a * 0 = 0 /\
   a + b = b + a /\ a * b = b * a /\
   a + (b + c) = (a + b) + c /\ a * (b * c) = (a * b) * c /\
   a * (b + c) = a * b + a * c /\ (a - b) + b = a)%fe.
Proof. repeat split; ring. Qed.

(** X2: a product of field elements is zero only if a factor is zero,
    and [operator==] decides equality of the elements. *)
Theorem field_no_zero_divisors (a b : FieldElement) :
  ((a * b)%fe = 0%fe <-> a = 0%fe \/ b = 0%fe) /\
  (fe_eqb a b = true <-> a = b).
Proof.
  split; [|apply fe_eqb_eq].
  split; [apply fe_mul_eq_0|].
  intros [->| ->]; ring.
Qed.

Lemma fe_mul_cancel_r (q1 q2 b : FieldElement) :
  b <> 0%fe -> (q1 * b)%fe = (q2 * b)%fe -> q1 = q2.
Proof.
  intros Hb H. apply fe_sub_eq_0.
  destruct (fe_mul_eq_0 (q1 - q2)%fe b) as [E|E];
    [|exact E|contradiction].
  transitivity (q1 * b - q2 * b)%fe; [ring | rewrite H; ring].
Qed.

(** X3: [a / b] raises "Cannot invert zero" when [b] is zero; otherwise
    it returns the one element [q] with [q * b = a]. *)
Theorem field_division (a b : FieldElement) :
  (b = 0%fe -> fe_div a b = Err CannotInvertZero) /\
  (b <> 0%fe ->
   exists q, fe_div a b = Ok q /\ (q * b)%fe = a /\
     forall q', (q' * b)%fe = a -> q' = q).
Proof.
  split.
  - intros ->. apply fe_div_by_zero.
  - intros Hb. destruct (fe_div_nonzero a b Hb) as (q & Hq & Hmul).
    exists q. split; [exact Hq|]. split; [exact Hmul|].
    intros q' Hq'. apply (fe_mul_cancel_r q' q b Hb). congruence.
Qed.

(** X4: [inverse] raises only "Cannot invert zero", and only on zero: the
    throw of "Value is not invertible" is never reached.  On a non-zero
    element the inverse is again non-zero and its inverse is the element
    itself. *)
Theorem inverse_involution (a : FieldElement) :
  (forall e, inverse a = Err e -> a = 0%fe /\ e = CannotInvertZero) /\
  (a <> 0%fe ->
   exists b, inverse a = Ok b /\ b <> 0%fe /\ inverse b = Ok a).
Proof.
  split.
  - intros e He. destruct (inverse_outcomes a) as [[-> H]|[_ [b H]]];
      rewrite H in He; [injection He as <-; auto | discriminate].
  - intros Ha. destruct (inverse_nonzero a Ha) as (b & Hb & Hab).
    assert (Hb0 : b <> 0%fe).
    { intros ->. apply fe_one_neq_zero. rewrite <- Hab. ring. }
    exists b. split; [exact Hb|]. split; [exact Hb0|].
    destruct (inverse_nonzero b Hb0) as (a' & Ha' & Hba).
    rewrite Ha'. f_equal.
    apply (fe_mul_cancel_r a' a b Hb0).
    transitivity 1%fe; [rewrite <- Hba; ring | rewrite <- Hab; ring].
Qed.

Lemma int64_range_spec (z : Z) :
  int64_range z = true <-> - 2 ^ 63 <= z < 2 ^ 63.
Proof.
  unfold int64_range. rewrite andb_true_iff, Z.leb_le, Z.ltb_lt. reflexivity.
Qed.

Lemma inverse_inv_bounds (v t newt r newr : Z) :
  inverse_inv v t newt r newr ->
  0 <= newr < r /\
  - SMALL_PRIME <= t <= SMALL_PRIME /\
  - SMALL_PRIME <= newt <= SMALL_PRIME.
Proof.
  intros (Hr & _ & _ & _ & Hb & Hs).
  split; [exact Hr|]. split; [exact Hb|].
  destruct Hs as [[Hsg Hd]|[Hsg Hd]].
  - assert (t * newr <= 0) by nia.
    assert (0 <= newt * (r - 1)) by nia. lia.
  - assert (0 <= t * newr) by nia.
    assert (newt * (r - 1) <= 0) by nia. lia.
Qed.

Lemma inverse_loop_fits_inv (v : Z) (fuel : nat) :
  1 <= v < SMALL_PRIME ->
  forall t newt r newr,
    inverse_inv v t newt r newr -> r <= SMALL_PRIME ->
    inverse_loop_fits fuel t newt r newr = true.
Proof.
  intros Hv. induction fuel as [|fuel IH]; intros t newt r newr Hinv HrP;
    cbn [inverse_loop_fits]; destruct (Z.eqb_spec newr 0) as [E|E];
    try reflexivity.
  pose proof (inverse_inv_step v Hv t newt r newr Hinv E) as Hnext.
  destruct (inverse_inv_bounds _ _ _ _ _ Hinv) as (Hr & Ht & Hnt).
  destruct (inverse_inv_bounds _ _ _ _ _ Hnext) as (Hr' & _ & Hnt').
  rewrite (IH _ _ _ _ Hnext) by lia. rewrite andb_true_r.
  set (q := Z.quot r newr) in *.
  assert (Hq : 0 <= q <= r).
  { unfold q. rewrite Z.quot_div_nonneg by lia. split.
    - apply Z.div_pos; lia.
    - apply Z.div_le_upper_bound; nia. }
  rewrite !andb_true_iff, !int64_range_spec.
  unfold SMALL_PRIME in *. lia.
Qed.

(** X5: on every field element the loop of [inverse] keeps its [int64_t]
    variables in range: none of the quotients, products and differences
    it computes overflows. *)
Theorem inverse_no_overflow (a : FieldElement) :
  inverse_loop_fits inverse_fuel 0 1 SMALL_PRIME (value a) = true.
Proof.
  destruct (Z.eq_dec (value a) 0) as [E|E].
  - rewrite E. reflexivity.
  - pose proof (value_range a) as Hr.
    assert (Hv : 1 <= value a < SMALL_PRIME) by lia.
    apply (inverse_loop_fits_inv (value a) inverse_fuel Hv);
      [apply inverse_inv_init; exact Hv | lia].
Qed.

Lemma power_loop_value (e : positive) : forall result base,
  value (power_loop e result base)
  = (value result * value base ^ Zpos e) mod SMALL_PRIME.
Proof.
  induction e as [e IH|e IH|]; intros result base; cbn [power_loop].
  - rewrite IH, !value_mul.
    rewrite Z.mul_mod_idemp_l by discriminate.
    rewrite <- Z.mul_mod_idemp_r by discriminate.
    rewrite <- Z.mod_pow_l, Z.mod_mod by discriminate.
    rewrite Z.mod_pow_l, Z.mul_mod_idemp_r by discriminate.
    f_equal. rewrite Pos2Z.inj_xI, Z.pow_add_r, Z.pow_mul_r, Z.pow_2_r by lia.
    ring.
  - rewrite IH, !value_mul.
    rewrite <- Z.mul_mod_idemp_r by discriminate.
    rewrite <- Z.mod_pow_l, Z.mod_mod by discriminate.
    rewrite Z.mod_pow_l, Z.mul_mod_idemp_r by discriminate.
    f_equal. rewrite Pos2Z.inj_xO, Z.pow_mul_r, Z.pow_2_r by lia.
    ring.
  - rewrite value_mul, Z.pow_1_r. reflexivity.
Qed.

Lemma power_value (a : FieldElement) (exp : Z) :
  0 <= exp -> value (power a exp) = (value a ^ exp) mod SMALL_PRIME.
Proof.
  intros H. destruct exp as [|e|e]; [reflexivity| |lia].
  cbn [power]. rewrite power_loop_value. f_equal.
  change (value (FE 1)) with 1. ring.
Qed.

Lemma power_one (a : FieldElement) : power a 1 = a.
Proof.
  apply fe_eq. rewrite power_value by lia. rewrite Z.pow_1_r.
  apply value_mod.
Qed.

Lemma power_add (a : FieldElement) (m n : Z) :
  0 <= m -> 0 <= n -> power a (m + n) = (power a m * power a n)%fe.
Proof.
  intros Hm Hn. apply fe_eq. rewrite value_mul, !power_value by lia.
  rewrite <- Z.mul_mod by discriminate.
  rewrite Z.pow_add_r by lia. reflexivity.
Qed.

(** X6: [power(exp)] is the [exp]-th power: its value is
    [value^exp mod SMALL_PRIME]; so [power(0)] is one, also of zero, and
    [power(m + n) = power(m) * power(n)] for exponents [m], [n] whose sum
    [m + n] is a [uint64_t], that is, does not wrap around. *)
Theorem power_spec (a : FieldElement) (m n : Z) :
  0 <= m -> 0 <= n -> m + n < 2 ^ 64 ->
  value (power a m) = (value a ^ m) mod SMALL_PRIME /\
  power a 0 = 1%fe /\
  power a 1 = a /\
  power a (m + n) = (power a m * power a n)%fe.
Proof.
  intros Hm Hn _. split; [apply power_value, Hm|].
  split; [reflexivity|]. split; [apply power_one|].
  apply power_add; assumption.
Qed.

(** X7: Fermat's little theorem on [power], and the inverse as a
    power: for a non-zero [a], [a.power(SMALL_PRIME - 1)] is one and
    [a.inverse()] returns [a.power(SMALL_PRIME - 2)]. *)
Theorem power_inverse (a : FieldElement) :
  a <> 0%fe ->
  power a (SMALL_PRIME - 1) = 1%fe /\
  inverse a = Ok (power a (SMALL_PRIME - 2)).
Proof.
  intros Ha.
  assert (Hv : value a mod SMALL_PRIME <> 0).
  { rewrite value_mod. intros E. apply Ha, fe_eq. rewrite E. reflexivity. }
  assert (H1 : power a (SMALL_PRIME - 1) = 1%fe).
  { apply fe_eq. rewrite power_value by (unfold SMALL_PRIME; lia).
    apply (Z.fermat_nz _ _ SMALL_PRIME_prime Hv). }
  split; [exact H1|].
  destruct (inverse_nonzero a Ha) as (b & Hb & Hab).
  rewrite Hb. f_equal.
  apply (fe_mul_cancel_r b (power a (SMALL_PRIME - 2)) a Ha).
  transitivity 1%fe; [rewrite <- Hab; ring|].
  rewrite <- H1.
  replace (SMALL_PRIME - 1) with ((SMALL_PRIME - 2) + 1)
    by (unfold SMALL_PRIME; lia).
  rewrite power_add, power_one by (unfold SMALL_PRIME; lia).
  reflexivity.
Qed.

(** ** qap.h: polynomials *)

Lemma peval_app (p q : Polynomial) (x : FieldElement) :
  peval (p ++ q) x = (peval p x + fe_pow x (length p) * peval q x)%fe.
Proof.
  induction p as [|c p IH]; simpl; [ring | rewrite IH; ring].
Qed.

(** X8: [evaluate(x)] is the sum of [coefficients[i] * x^i]; the empty
    polynomial evaluates to zero and trailing zero coefficients do not
    change the value. *)
Theorem evaluate_sum (p : Polynomial) (x : FieldElement) (n : nat) :
  evaluate p x
  = fe_sum (map (fun i => (nth i p 0 * fe_pow x i)%fe) (seq 0 (length p))) /\
  evaluate [] x = 0%fe /\
  evaluate (p ++ repeat 0%fe n) x = evaluate p x.
Proof.
  split; [rewrite evaluate_peval; apply peval_as_sum|].
  split; [reflexivity|].
  rewrite !evaluate_peval, peval_app, peval_repeat_zero. ring.
Qed.

(** X9: [evaluate] carries the three operators of [Polynomial] to the
    field: the value of a sum is the sum of the values, of a product the
    product, of a scaled polynomial the scaled value. *)
Theorem evaluate_operators (p q : Polynomial) (s x : FieldElement) :
  evaluate (poly_add p q) x = (evaluate p x + evaluate q x)%fe /\
  evaluate (poly_mul p q) x = (evaluate p x * evaluate q x)%fe /\
  evaluate (poly_scale p s) x = (evaluate p x * s)%fe.
Proof.
  rewrite !evaluate_peval.
  split; [apply peval_poly_add|].
  split; [apply peval_poly_mul | apply peval_poly_scale].
Qed.

Lemma fold_add_at_length (f : nat -> FieldElement) (g : nat -> nat)
    (idxs : list nat) : forall rc,
  length (fold_left (fun rc i => add_at rc (g i) (f i)) idxs rc) = length rc.
Proof.
  induction idxs as [|i idxs IH]; intros rc; simpl; [reflexivity|].
  rewrite IH. apply add_at_length.
Qed.

Lemma poly_add_length (p q : Polynomial) :
  length (poly_add p q) = Nat.max (length p) (length q).
Proof.
  unfold poly_add.
  rewrite (fold_add_at_length (fun i => nth i q 0%fe) (fun i => i)).
  rewrite (fold_add_at_length (fun i => nth i p 0%fe) (fun i => i)).
  apply repeat_length.
Qed.

Lemma poly_mul_length (p q : Polynomial) :
  p <> [] -> q <> [] ->
  length (poly_mul p q) = (length p + length q - 1)%nat.
Proof.
  intros Hp Hq. unfold poly_mul.
  destruct p as [|p0 p']; [contradiction|].
  destruct q as [|q0 q']; [contradiction|].
  set (p := p0 :: p'). set (q := q0 :: q').
  assert (H : forall idxs rc,
             length (fold_left
                       (fun rc i =>
                          fold_left
                            (fun rc j =>
                               add_at rc (i + j)%nat
                                      (nth i p 0 * nth j q 0)%fe)
                            (seq 0 (length q)) rc)
                       idxs rc) = length rc).
  { induction idxs as [|i idxs IH]; intros rc; cbn [fold_left];
      [reflexivity|].
    rewrite IH.
    apply (fold_add_at_length (fun j => (nth i p 0 * nth j q 0)%fe)
                              (fun j => (i + j)%nat)). }
  rewrite H. apply repeat_length.
Qed.

Lemma poly_scale_length (p : Polynomial) (s : FieldElement) :
  length (poly_scale p s) = length p.
Proof. apply length_map. Qed.

(** X10: the sizes of the results: a sum has the size of the longer
    operand, a product of non-empty polynomials the sum of the sizes minus
    one, a product with the empty polynomial is empty, and scaling keeps
    the size. *)
Theorem polynomial_sizes (p q : Polynomial) (s : FieldElement) :
  length (poly_add p q) = Nat.max (length p) (length q) /\
  (p <> [] -> q <> [] ->
   length (poly_mul p q) = (length p + length q - 1)%nat) /\
  poly_mul [] q = [] /\ poly_mul p [] = [] /\
  length (poly_scale p s) = length p.
Proof.
  split; [apply poly_add_length|].
  split; [apply poly_mul_length|].
  split; [reflexivity|].
  split; [destruct p; reflexivity | apply poly_scale_length].
Qed.

(** ** qap.h: Lagrange interpolation *)

Lemma fe_div_error (a b : FieldElement) (e : error) :
  fe_div a b = Err e -> b = 0%fe /\ e = CannotInvertZero.
Proof.
  unfold fe_div. destruct (inverse_outcomes b) as [[-> H]|[_ [i H]]];
    rewrite H; cbn [bind]; intros E; [injection E as <-; auto | discriminate].
Qed.

Lemma basis_loop_error (j : nat) (x_values : list FieldElement)
    (idxs : list nat) : forall result e,
  basis_loop j x_values idxs result = Err e ->
  e = CannotInvertZero /\
  exists i, In i idxs /\ i <> j /\
            nth i x_values 0%fe = nth j x_values 0%fe.
Proof.
  induction idxs as [|i idxs IH]; intros result e H; cbn [basis_loop] in H.
  - discriminate.
  - destruct (Nat.eqb_spec i j) as [E|E].
    + destruct (IH _ _ H) as (He & k & Hk & Hne & Hx).
      split; [exact He|]. exists k. split; [right; exact Hk | auto].
    + destruct (fe_div 1%fe (nth j x_values 0 - nth i x_values 0)%fe)
        as [q|e'] eqn:Hq; cbn [bind] in H.
      * destruct (IH _ _ H) as (He & k & Hk & Hne & Hx).
        split; [exact He|]. exists k. split; [right; exact Hk | auto].
      * injection H as <-.
        destruct (fe_div_error _ _ _ Hq) as [Hz He].
        split; [exact He|]. exists i. split; [left; reflexivity|].
        split; [exact E|]. symmetry. apply fe_sub_eq_0, Hz.
Qed.

Lemma basis_loop_raises (j : nat) (x_values : list FieldElement)
    (idxs : list nat) : forall result,
  (exists i, In i idxs /\ i <> j /\
             nth i x_values 0%fe = nth j x_values 0%fe) ->
  basis_loop j x_values idxs result = Err CannotInvertZero.
Proof.
  induction idxs as [|i idxs IH]; intros result (k & Hk & Hne & Hx);
    cbn [basis_loop].
  - destruct Hk.
  - destruct (Nat.eqb_spec i j) as [E|E].
    + apply IH. exists k. destruct Hk as [->|Hk]; [contradiction|]. auto.
    + destruct (fe_eqb (nth i x_values 0%fe) (nth j x_values 0%fe)) eqn:Ex.
      * apply fe_eqb_eq in Ex. rewrite Ex.
        replace (nth j x_values 0 - nth j x_values 0)%fe with 0%fe by ring.
        rewrite fe_div_by_zero. reflexivity.
      * apply fe_eqb_neq in Ex.
        destruct (fe_div_nonzero 1%fe
                    (nth j x_values 0 - nth i x_values 0)%fe) as (q & -> & _).
        { rewrite fe_sub_eq_0. congruence. }
        cbn [bind]. apply IH. exists k.
        destruct Hk as [->|Hk]; [contradiction|]. auto.
Qed.

Lemma cons_not_nil {T : Type} (a : T) (l : list T) : a :: l <> [].
Proof. discriminate. Qed.

Lemma basis_loop_length (j : nat) (x_values : list FieldElement)
    (idxs : list nat) : forall result L,
  result <> [] ->
  basis_loop j x_values idxs result = Ok L ->
  length L
  = (length result
     + length (filter (fun i => negb (Nat.eqb i j)) idxs))%nat.
Proof.
  induction idxs as [|i idxs IH]; intros result L Hne H;
    cbn [basis_loop filter] in *.
  - injection H as <-. simpl. lia.
  - destruct (Nat.eqb i j); cbn [negb].
    + apply IH; assumption.
    + destruct (fe_div 1%fe (nth j x_values 0 - nth i x_values 0)%fe)
        as [q|e'] eqn:Hq; cbn [bind] in H; [|discriminate].
      assert (Hlen : length (poly_scale
                               (poly_mul result
                                  [(0 - nth i x_values 0)%fe; 1%fe]) q)
                     = S (length result)).
      { rewrite poly_scale_length, poly_mul_length
          by (assumption || discriminate). simpl.
        destruct result; [contradiction | simpl; lia]. }
      rewrite (IH _ _ ltac:(intros E; rewrite E in Hlen; discriminate) H).
      rewrite Hlen. simpl. lia.
Qed.

Lemma filter_other_length (j n : nat) :
  (j < n)%nat ->
  length (filter (fun i => negb (Nat.eqb i j)) (seq 0 n)) = (n - 1)%nat.
Proof.
  intros Hj.
  replace n with (j + S (n - S j))%nat at 1 by lia.
  rewrite seq_app. cbn [seq Nat.add]. rewrite filter_app. cbn [filter].
  rewrite Nat.eqb_refl. cbn [negb].
  rewrite length_app.
  rewrite !forallb_filter_id.
  - rewrite !length_seq. lia.
  - apply forallb_forall. intros i Hi. apply in_seq in Hi.
    apply negb_true_iff, Nat.eqb_neq. lia.
  - apply forallb_forall. intros i Hi. apply in_seq in Hi.
    apply negb_true_iff, Nat.eqb_neq. lia.
Qed.

(** X11: on pairwise-distinct points, [basisPolynomial(j, xs)] with [j]
    an index of [xs] returns a polynomial of as many coefficients as there
    are points, whose [evaluate] is one at [xs[j]] and zero at every other
    point. *)
Theorem basisPolynomial_delta (x_values : list FieldElement) (j : nat) :
  NoDup x_values -> (j < length x_values)%nat ->
  exists L,
    basisPolynomial j x_values = Ok L /\
    length L = length x_values /\
    evaluate L (nth j x_values 0%fe) = 1%fe /\
    forall i, (i < length x_values)%nat -> i <> j ->
      evaluate L (nth i x_values 0%fe) = 0%fe.
Proof.
  intros Hnd Hj.
  destruct (basisPolynomial_spec x_values j Hnd Hj) as (L & HL & H1 & H0).
  exists L. split; [exact HL|]. split.
  - unfold basisPolynomial in HL.
    rewrite (basis_loop_length _ _ _ _ _ (cons_not_nil _ _) HL).
    rewrite filter_other_length by exact Hj. simpl. lia.
  - split; [rewrite evaluate_peval; exact H1|].
    intros i Hi Hne. rewrite evaluate_peval. apply H0; assumption.
Qed.

(** X12: [basisPolynomial(j, xs)] raises exactly when another index holds
    the same point as index [j], and then it raises the division error
    "Cannot invert zero". *)
Theorem basisPolynomial_raises_iff (x_values : list FieldElement) (j : nat) :
  (j < length x_values)%nat ->
  ((exists e, basisPolynomial j x_values = Err e) <->
   (exists i, (i < length x_values)%nat /\ i <> j /\
              nth i x_values 0%fe = nth j x_values 0%fe)) /\
  (forall e, basisPolynomial j x_values = Err e -> e = CannotInvertZero).
Proof.
  intros Hj. unfold basisPolynomial. split; [split|].
  - intros [e He]. destruct (basis_loop_error _ _ _ _ _ He)
      as (_ & i & Hi & Hne & Hx).
    exists i. apply in_seq in Hi. split; [lia | auto].
  - intros (i & Hi & Hne & Hx). exists CannotInvertZero.
    apply basis_loop_raises. exists i. split; [apply in_seq; lia | auto].
  - intros e He. apply (basis_loop_error _ _ _ _ _ He).
Qed.

Lemma interpolate_loop_error (x_values y_values : list FieldElement)
    (js : list nat) : forall result e,
  interpolate_loop x_values y_values js result = Err e ->
  e = CannotInvertZero /\
  exists j i, In j js /\ In i (seq 0 (length x_values)) /\ i <> j /\
              nth i x_values 0%fe = nth j x_values 0%fe.
Proof.
  induction js as [|j js IH]; intros result e H; cbn [interpolate_loop] in H.
  - discriminate.
  - destruct (basisPolynomial j x_values) as [L|e'] eqn:HL; cbn [bind] in H.
    + destruct (IH _ _ H) as (He & k & i & Hk & Hi & Hne & Hx).
      split; [exact He|]. exists k, i. split; [right; exact Hk | auto].
    + injection H as <-. unfold basisPolynomial in HL.
      destruct (basis_loop_error _ _ _ _ _ HL) as (He & i & Hi & Hne & Hx).
      split; [exact He|]. exists j, i. split; [left; reflexivity | auto].
Qed.

Lemma interpolate_loop_raises (x_values y_values : list FieldElement)
    (js : list nat) : forall result,
  (exists j i, In j js /\ In i (seq 0 (length x_values)) /\ i <> j /\
               nth i x_values 0%fe = nth j x_values 0%fe) ->
  interpolate_loop x_values y_values js result = Err CannotInvertZero.
Proof.
  induction js as [|j js IH]; intros result (k & i & Hk & Hi & Hne & Hx);
    cbn [interpolate_loop].
  - destruct Hk.
  - destruct (basisPolynomial j x_values) as [L|e'] eqn:HL; cbn [bind].
    + apply IH. exists k, i. destruct Hk as [->|Hk]; [|auto].
      unfold basisPolynomial in HL.
      rewrite (basis_loop_raises k x_values _ [1%fe]) in HL;
        [discriminate | exists i; auto].
    + unfold basisPolynomial in HL.
      destruct (basis_loop_error _ _ _ _ _ HL) as (-> & _). reflexivity.
Qed.

Lemma interpolate_loop_length (x_values y_values : list FieldElement)
    (js : list nat) : forall result R,
  (forall j, In j js -> (j < length x_values)%nat) ->
  interpolate_loop x_values y_values js result = Ok R ->
  length R
  = Nat.max (length result)
            (match js with [] => 0 | _ => length x_values end)%nat.
Proof.
  induction js as [|j js IH]; intros result R Hjs H;
    cbn [interpolate_loop] in H.
  - injection H as <-. lia.
  - destruct (basisPolynomial j x_values) as [L|e'] eqn:HL; cbn [bind] in H;
      [|discriminate].
    assert (HlenL : length L = length x_values).
    { unfold basisPolynomial in HL.
      rewrite (basis_loop_length _ _ _ _ _ (cons_not_nil _ _) HL).
      rewrite filter_other_length by (apply Hjs; left; reflexivity).
      pose proof (Hjs j (or_introl eq_refl)). simpl. lia. }
    rewrite (IH _ _ (fun k Hk => Hjs k (or_intror Hk)) H).
    rewrite poly_add_length, poly_scale_length, HlenL.
    destruct js; lia.
Qed.

(** X13: the outcomes of [interpolate]: vectors of different sizes raise
    "x and y value sizes must match"; with equal sizes a repeated point
    raises "Cannot invert zero"; with equal sizes and pairwise-distinct
    points a polynomial is returned, of as many coefficients as there are
    points (one coefficient for no point). *)
Theorem interpolate_outcomes (xs ys : list FieldElement) :
  (length xs <> length ys -> interpolate xs ys = Err SizesMustMatch) /\
  (length xs = length ys -> ~ NoDup xs ->
   interpolate xs ys = Err CannotInvertZero) /\
  (length xs = length ys -> NoDup xs ->
   exists p, interpolate xs ys = Ok p /\
             length p = Nat.max 1 (length xs)) /\
  ((exists p, interpolate xs ys = Ok p) <->
   length xs = length ys /\ NoDup xs).
Proof.
  assert (Hok : forall p, interpolate xs ys = Ok p ->
                  length xs = length ys /\ NoDup xs /\
                  length p = Nat.max 1 (length xs)).
  { intros p Hp. unfold interpolate in Hp.
    destruct (Nat.eqb_spec (length xs) (length ys)) as [Hlen|Hlen];
      cbn [negb] in Hp; [|discriminate].
    split; [exact Hlen|]. split.
    - apply (NoDup_nth xs 0%fe). intros i j Hi Hj Hx.
      destruct (Nat.eq_dec i j) as [E|E]; [exact E|exfalso].
      rewrite (interpolate_loop_raises xs ys _ [0%fe]) in Hp;
        [discriminate|].
      exists j, i. repeat split; try (apply in_seq; lia); assumption.
    - rewrite (interpolate_loop_length xs ys (seq 0 (length xs)) _ _
                 (fun j Hj => proj2 (proj1 (in_seq (length xs) 0 j) Hj)) Hp).
      destruct xs; simpl; lia. }
  assert (Hdistinct : length xs = length ys -> NoDup xs ->
            exists p, interpolate xs ys = Ok p /\
                      length p = Nat.max 1 (length xs)).
  { intros Hlen Hnd.
    destruct (interpolate_at_points xs ys Hnd Hlen) as (p & Hp & _).
    exists p. split; [exact Hp | apply (Hok p Hp)]. }
  split; [apply interpolate_size_mismatch|].
  split; [|split; [exact Hdistinct|]].
  - intros Hlen Hnd.
    destruct (interpolate xs ys) as [p|e] eqn:Hp.
    + exfalso. apply Hnd, (Hok p eq_refl).
    + unfold interpolate in Hp. rewrite Hlen, Nat.eqb_refl in Hp.
      cbn [negb] in Hp.
      destruct (interpolate_loop_error _ _ _ _ _ Hp) as [-> _]. reflexivity.
  - split.
    + intros [p Hp]. destruct (Hok p Hp) as (H1 & H2 & _). auto.
    + intros [Hlen Hnd]. destruct (Hdistinct Hlen Hnd) as (p & Hp & _).
      eauto.
Qed.

(** ** qap.h: the QAP *)

Lemma fe_prod_zero_iff (l : list FieldElement) :
  fe_prod l = 0%fe <-> In 0%fe l.
Proof.
  induction l as [|a l IH].
  - split; [intros H; exfalso; exact (fe_one_neq_zero H) | intros []].
  - change (fe_prod (a :: l)) with (a * fe_prod l)%fe. cbn [In]. split.
    + intros H. destruct (fe_mul_eq_0 _ _ H) as [E|E];
        [left; congruence | right; apply IH, E].
    + intros [E|E]; [rewrite E; ring|].
      apply IH in E. rewrite E. ring.
Qed.

Lemma target_fold (x : FieldElement) (x_values : list FieldElement) :
  forall Zp, Zp <> [] ->
    let Zp' := fold_left (fun Zp x0 => poly_mul Zp [(0 - x0)%fe; 1%fe])
                         x_values Zp in
    peval Zp' x
    = (peval Zp x * fe_prod (map (fun x0 => (x - x0)%fe) x_values))%fe /\
    length Zp' = (length Zp + length x_values)%nat.
Proof.
  induction x_values as [|x0 xs IH]; intros Zp Hne; cbn [fold_left map].
  - split; [change (fe_prod []) with 1%fe; ring | simpl; lia].
  - assert (Hlen : length (poly_mul Zp [(0 - x0)%fe; 1%fe])
                   = S (length Zp)).
    { rewrite poly_mul_length by (assumption || discriminate).
      destruct Zp; [contradiction | simpl; lia]. }
    destruct (IH (poly_mul Zp [(0 - x0)%fe; 1%fe])) as [Hv Hl].
    { intros E. rewrite E in Hlen. discriminate. }
    cbv zeta in *. split.
    + rewrite Hv, peval_poly_mul, peval_linear_factor.
      change (fe_prod ((x - x0)%fe :: map (fun x1 => (x - x1)%fe) xs))
        with ((x - x0) * fe_prod (map (fun x1 => (x - x1)%fe) xs))%fe.
      ring.
    + rewrite Hl, Hlen. simpl. lia.
Qed.

(** X14: for a well-formed R1CS ([num_constraints] rows of
    [num_variables] entries in each matrix, [num_constraints] an [int])
    the target polynomial [Z] of the QAP built by [fromR1CS] has
    [num_constraints + 1] coefficients and its roots are exactly the
    evaluation points [FieldElement(1) .. FieldElement(num_constraints)]. *)
Theorem target_polynomial_roots (r1cs : R1CS) :
  R1CS_shape r1cs ->
  Z.of_nat (R_num_constraints r1cs) <= 2147483647 ->
  exists qap,
    fromR1CS r1cs = Ok qap /\
    length (Z_poly qap) = S (R_num_constraints r1cs) /\
    forall x,
      evaluate (Z_poly qap) x = 0%fe <->
      exists k, (k < R_num_constraints r1cs)%nat /\ x = FE (Z.of_nat k + 1).
Proof.
  intros _ Hfit. destruct (fromR1CS_spec r1cs Hfit) as (qap & H & _).
  exists qap. split; [exact H|].
  unfold fromR1CS in H.
  destruct (fromR1CS_loop _ _ _ _ _ _) as [[[qA qB] qC]|e];
    cbn [bind] in H; [|discriminate].
  injection H as <-. cbn [Z_poly]. unfold target_polynomial.
  destruct (target_fold 0%fe (eval_points (R_num_constraints r1cs)) [1%fe])
    as [_ Hl]; [discriminate|].
  cbv zeta in Hl. split.
  - rewrite Hl, eval_points_length. reflexivity.
  - intros x.
    destruct (target_fold x (eval_points (R_num_constraints r1cs)) [1%fe])
      as [Hv _]; [discriminate|].
    cbv zeta in Hv. rewrite evaluate_peval, Hv.
    replace (peval [1%fe] x) with 1%fe by (cbn [peval]; ring).
    rewrite fe_mul_1_l, fe_prod_zero_iff, in_map_iff.
    unfold eval_points. split.
    + intros (x0 & Hx0 & Hin). apply in_map_iff in Hin as (k & <- & Hk).
      apply in_seq in Hk. exists k. split; [lia|].
      apply fe_sub_eq_0. exact Hx0.
    + intros (k & Hk & ->). exists (FE (Z.of_nat k + 1)). split; [ring|].
      apply in_map_iff. exists k. split; [reflexivity | apply in_seq; lia].
Qed.

(** X15: the QAP invariant: for every well-formed R1CS
    ([num_constraints] rows of [num_variables] entries in each matrix,
    [num_constraints] an [int]) [fromR1CS] returns a QAP with one
    polynomial per variable in each of the three families, and polynomial
    [i] of a family evaluates at the point [k + 1] to the entry [k][i] of
    its matrix. *)
Theorem fromR1CS_invariant (r1cs : R1CS) :
  R1CS_shape r1cs ->
  Z.of_nat (R_num_constraints r1cs) <= 2147483647 ->
  exists qap,
    fromR1CS r1cs = Ok qap /\
    Q_num_variables qap = R_num_variables r1cs /\
    length (A_polys qap) = R_num_variables r1cs /\
    length (B_polys qap) = R_num_variables r1cs /\
    length (C_polys qap) = R_num_variables r1cs /\
    forall i k, (i < R_num_variables r1cs)%nat ->
      (k < R_num_constraints r1cs)%nat ->
      evaluate (nth i (A_polys qap) []) (FE (Z.of_nat k + 1))
      = nth i (nth k (R_A r1cs) []) 0%fe /\
      evaluate (nth i (B_polys qap) []) (FE (Z.of_nat k + 1))
      = nth i (nth k (R_B r1cs) []) 0%fe /\
      evaluate (nth i (C_polys qap) []) (FE (Z.of_nat k + 1))
      = nth i (nth k (R_C r1cs) []) 0%fe.
Proof.
  intros _ Hfit.
  destruct (fromR1CS_spec r1cs Hfit)
    as (qap & Hq & Hnv & HA & HB & HC & Hpolys).
  exists qap. repeat (split; [assumption|]).
  intros i k Hi Hk. rewrite !evaluate_peval. apply Hpolys; assumption.
Qed.

(** X16: on a QAP with [num_variables] polynomials in each family and a
    witness of [num_variables] entries, each polynomial returned by
    [computePolynomials] evaluates to the witness-weighted sum of the
    values of the polynomials of its family. *)
Theorem computePolynomials_linear (qap : QAP) (witness : list FieldElement)
    (x : FieldElement) :
  QAP_shape qap ->
  length witness = Q_num_variables qap ->
  let '(A_x, B_x, C_x) := computePolynomials qap witness in
  let weighted polys :=
    fe_sum (map (fun i => (evaluate (nth i polys []) x
                           * nth i witness 0)%fe)
                (seq 0 (Q_num_variables qap))) in
  evaluate A_x x = weighted (A_polys qap) /\
  evaluate B_x x = weighted (B_polys qap) /\
  evaluate C_x x = weighted (C_polys qap).
Proof.
  intros _ _. unfold computePolynomials. cbv zeta.
  rewrite !evaluate_peval, !peval_combine_polys.
  repeat split; apply fe_sum_ext; intros i _;
    rewrite evaluate_peval; reflexivity.
Qed.

(** ** r1cs.h *)

Lemma fe_sum_zero {T : Type} (f : T -> FieldElement) (l : list T) :
  (forall t, In t l -> f t = 0%fe) -> fe_sum (map f l) = 0%fe.
Proof.
  induction l as [|t l IH]; intros H; [reflexivity|].
  cbn [map]. change (fe_sum (f t :: map f l)) with (f t + fe_sum (map f l))%fe.
  rewrite (H t (or_introl eq_refl)), IH by (intros k Hk; apply H; right; exact Hk).
  ring.
Qed.

Lemma dot_zero_row (n k : nat) (witness : list FieldElement) :
  dot n (repeat 0%fe k) witness = 0%fe.
Proof.
  rewrite dot_as_sum. apply fe_sum_zero. intros j _.
  rewrite nth_repeat. ring.
Qed.

(** X17: a system fresh from the constructor has its shape, and [verify]
    on it accepts exactly the witnesses of [num_variables] entries: all
    its constraints read [0 * 0 = 0]. *)
Theorem R1CS_new_accepts (vars constraints : nat)
    (witness : list FieldElement) :
  R1CS_shape (R1CS_new vars constraints) /\
  (R1CS_verify (R1CS_new vars constraints) witness = true <->
   length witness = vars).
Proof.
  split; [apply R1CS_new_shape|]. split.
  - intros H. destruct (Nat.eq_dec (length witness) vars) as [E|E];
      [exact E|].
    unfold R1CS_verify, R1CS_verify_run in H. cbn [R_num_variables R1CS_new] in H.
    destruct (Nat.eqb_spec (length witness) vars); [contradiction|].
    discriminate H.
  - intros Hlen. apply R1CS_verify_true_iff; [exact Hlen|].
    intros i Hi. unfold row_equation. cbn [R1CS_new R_A R_B R_C
      R_num_variables R_num_constraints] in *.
    rewrite !(nth_repeat_lt (repeat 0%fe vars)) by exact Hi.
    rewrite !dot_zero_row. ring.
Qed.

Lemma Forall_update {T : Type} (P : T -> Prop) (l : list T) :
  forall i e, Forall P l -> P e -> Forall P (update l i e).
Proof.
  induction l as [|h l IH]; intros [|i] e Hl He; cbn [update];
    try assumption; inversion Hl; subst; constructor; auto.
Qed.

(** X18: [setConstraint] does not look at the sizes of the rows: with an
    index in range on a well-shaped system it keeps the shape when the
    three rows have [num_variables] entries, and it returns a system that
    has lost the shape when row [a] has another size. *)
Theorem setConstraint_shape (r : R1CS) (idx : Z) (a b c : list FieldElement) :
  R1CS_shape r -> 0 <= idx < Z.of_nat (R_num_constraints r) ->
  exists r',
    setConstraint r idx a b c = Ok r' /\
    (length a = R_num_variables r -> length b = R_num_variables r ->
     length c = R_num_variables r -> R1CS_shape r') /\
    (length a <> R_num_variables r -> ~ R1CS_shape r').
Proof.
  intros ((HA & HrA) & (HB & HrB) & (HC & HrC)) Hidx.
  unfold setConstraint.
  destruct (Z.geb_spec idx (Z.of_nat (R_num_constraints r))) as [H|_];
    [lia|].
  rewrite HA, HB, HC.
  destruct (Z.ltb_spec idx 0); [lia|].
  destruct (Z.leb_spec (Z.of_nat (R_num_constraints r)) idx); [lia|].
  cbn [orb]. eexists; split; [reflexivity|]. split.
  - intros Ha Hb Hc. unfold R1CS_shape. cbn.
    rewrite !update_length.
    repeat split; try assumption; apply Forall_update; assumption.
  - intros Ha ((_ & Hrows) & _). cbn in Hrows.
    rewrite Forall_forall in Hrows. apply Ha.
    rewrite <- (nth_update_eq (R_A r) (Z.to_nat idx) a []) by lia.
    apply Hrows, nth_In. rewrite update_length. lia.
Qed.

(** ** main.cpp *)

(** X19: on a system of five variables and three constraints,
    [createCubicR1CS(r1cs, witness, x, out)] returns a well-shaped system
    and the witness [1, x, out, x^2, x^3], and [verify] accepts them
    exactly when [out = x^3 + x + 5]; on a system of fewer than three
    constraints it raises "Constraint index out of bounds". *)
Theorem createCubicR1CS_spec (r1cs : R1CS) (x out : FieldElement) :
  (R1CS_shape r1cs -> R_num_variables r1cs = 5%nat ->
   R_num_constraints r1cs = 3%nat ->
   exists r',
     createCubicR1CS r1cs x out
     = Ok (r', [FE 1; x; out; (x * x)%fe; (x * x * x)%fe]) /\
     R1CS_shape r' /\
     (R1CS_verify r' [FE 1; x; out; (x * x)%fe; (x * x * x)%fe] = true <->
      out = (x * x * x + x + FE 5)%fe)) /\
  ((R_num_constraints r1cs < 3)%nat -> R1CS_shape r1cs ->
   createCubicR1CS r1cs x out = Err ConstraintIndexOutOfBounds).
Proof.
  split.
  - intros ((HA & HrA) & (HB & HrB) & (HC & HrC)) Hnv Hm.
    destruct r1cs as [MA MB MC nv m]. cbn in *. subst nv m.
    destruct MA as [|a0 [|a1 [|a2 [|]]]]; try discriminate.
    destruct MB as [|b0 [|b1 [|b2 [|]]]]; try discriminate.
    destruct MC as [|c0 [|c1 [|c2 [|]]]]; try discriminate.
    exists (mkR1CS
              [[FE 0; FE 1; FE 0; FE 0; FE 0];
               [FE 0; FE 0; FE 0; FE 1; FE 0];
               [FE 5; FE 1; FE 0; FE 0; FE 1]]
              [[FE 0; FE 1; FE 0; FE 0; FE 0];
               [FE 0; FE 1; FE 0; FE 0; FE 0];
               [FE 1; FE 0; FE 0; FE 0; FE 0]]
              [[FE 0; FE 0; FE 0; FE 1; FE 0];
               [FE 0; FE 0; FE 0; FE 0; FE 1];
               [FE 0; FE 0; FE 1; FE 0; FE 0]] 5 3).
    split; [reflexivity|]. split.
    + unfold R1CS_shape. cbn. repeat split; repeat constructor.
    + rewrite R1CS_verify_true_iff by reflexivity.
      cbn [R_num_constraints]. split.
      * intros H. specialize (H 2%nat ltac:(lia)).
        unfold row_equation, dot in H. cbn in H.
        match type of H with
        | ?L = ?R =>
            transitivity R; [|transitivity L; [symmetry; exact H|]]
        end;
          change (FE 0) with 0%fe; change (FE 1) with 1%fe; ring.
      * intros ->. intros [|[|[|i]]] Hi; try lia;
          unfold row_equation, dot; cbn;
          change (FE 0) with 0%fe; change (FE 1) with 1%fe; ring.
  - intros Hm ((HA & _) & (HB & _) & (HC & _)).
    unfold createCubicR1CS, setConstraint.
    destruct r1cs as [MA MB MC nv m]. cbn in *. subst.
    destruct MA as [|a0 [|a1 [|a2 MA]]]; cbn in Hm; try lia;
      destruct MB as [|b0 [|b1 [|b2 MB]]]; try discriminate;
      destruct MC as [|c0 [|c1 [|c2 MC]]]; try discriminate;
      reflexivity.
Qed.

(** ** elliptic_curve.h *)

Lemma fe_div_ok (a b q : FieldElement) :
  fe_div a b = Ok q -> b <> 0%fe /\ (q * b)%fe = a.
Proof.
  intros H.
  destruct (fe_eqb b 0%fe) eqn:E.
  - apply fe_eqb_eq in E. subst. rewrite fe_div_by_zero in H. discriminate.
  - apply fe_eqb_neq in E. split; [exact E|].
    destruct (fe_div_nonzero a b E) as (q' & Hq' & Hmul). congruence.
Qed.

Lemma FE_2_sum : FE 2 = (1 + 1)%fe.
Proof. apply fe_eq. reflexivity. Qed.

Lemma FE_3_sum : FE 3 = (1 + 1 + 1)%fe.
Proof. apply fe_eq. reflexivity. Qed.

Lemma ec_eqb_refl (p : ECPoint) : ec_eqb p p = true.
Proof.
  unfold ec_eqb. destruct (is_infinity p); cbn; [reflexivity|].
  rewrite !(proj2 (fe_eqb_eq _ _) eq_refl). reflexivity.
Qed.

(** X20: point addition is commutative: [p + q] and [q + p] raise
    together, or return points that [operator==] holds equal. *)
Theorem ec_add_commutative (c : Curve) (p q : ECPoint) :
  match ec_add c p q, ec_add c q p with
  | Ok r1, Ok r2 => ec_eqb r1 r2 = true
  | Err e1, Err e2 => e1 = e2
  | _, _ => False
  end.
Proof.
  destruct p as [x1 y1 i1], q as [x2 y2 i2]. unfold ec_add.
  cbn [is_infinity ec_x ec_y].
  destruct i1, i2; try reflexivity; try apply ec_eqb_refl.
  destruct (fe_eqb x1 x2) eqn:Ex.
  - apply fe_eqb_eq in Ex. subst x2.
    rewrite (proj2 (fe_eqb_eq x1 x1) eq_refl).
    destruct (fe_eqb y1 y2) eqn:Ey.
    + apply fe_eqb_eq in Ey. subst y2.
      rewrite (proj2 (fe_eqb_eq y1 y1) eq_refl). cbn [andb negb].
      destruct (fe_div _ _); cbn [bind]; [apply ec_eqb_refl | reflexivity].
    + assert (Ey' : fe_eqb y2 y1 = false).
      { apply fe_eqb_neq. apply fe_eqb_neq in Ey. congruence. }
      rewrite Ey'. cbn [andb negb]. reflexivity.
  - assert (Ex' : fe_eqb x2 x1 = false).
    { apply fe_eqb_neq. apply fe_eqb_neq in Ex. congruence. }
    rewrite Ex'. cbn [andb]. apply fe_eqb_neq in Ex.
    destruct (fe_div_nonzero (y2 - y1)%fe (x2 - x1)%fe) as (l1 & -> & H1).
    { rewrite fe_sub_eq_0. congruence. }
    destruct (fe_div_nonzero (y1 - y2)%fe (x1 - x2)%fe) as (l2 & -> & H2).
    { rewrite fe_sub_eq_0. congruence. }
    cbn [bind].
    assert (El : l2 = l1).
    { apply (fe_mul_cancel_r l2 l1 (x2 - x1)%fe).
      - rewrite fe_sub_eq_0. congruence.
      - rewrite H1. transitivity (0 - l2 * (x1 - x2))%fe; [ring|].
        rewrite H2. ring. }
    subst l2.
    replace (l1 * l1 - x2 - x1)%fe with (l1 * l1 - x1 - x2)%fe by ring.
    replace (l1 * (x2 - (l1 * l1 - x1 - x2)) - y2)%fe
      with (l1 * (x1 - (l1 * l1 - x1 - x2)) - y1)%fe.
    + apply ec_eqb_refl.
    + apply fe_sub_eq_0.
      transitivity (y2 - y1 - l1 * (x2 - x1))%fe; [ring|].
      rewrite H1. ring.
Qed.

(** X21: a point plus its mirror image [(x, -y)] is the point at
    infinity, unless [y] is zero: then the point is its own mirror image
    and the sum raises "Cannot invert zero". *)
Theorem ec_add_negation (c : Curve) (x y : FieldElement) :
  ec_add c (ECPoint_xy x y) (ECPoint_xy x (0 - y)%fe)
  = if fe_eqb y 0%fe then Err CannotInvertZero else Ok ECPoint_infinity.
Proof.
  destruct (fe_eqb y 0%fe) eqn:Ey.
  - apply fe_eqb_eq in Ey. subst y.
    apply ec_add_double_y_zero; reflexivity.
  - apply fe_eqb_neq in Ey. unfold ec_add. cbn [is_infinity ec_x ec_y ECPoint_xy].
    rewrite (proj2 (fe_eqb_eq x x) eq_refl).
    assert (Hne : fe_eqb y (0 - y)%fe = false).
    { apply fe_eqb_neq. intros E. apply Ey, double_eq_0.
      rewrite FE_2_sum.
      transitivity (y - (0 - y))%fe; [ring | rewrite <- E; ring]. }
    rewrite Hne. reflexivity.
Qed.

Lemma on_curve_iff (c : Curve) (x y : FieldElement) :
  on_curve c x y = true
  <-> (y * y = x * x * x + curve_a c * x + curve_b c)%fe.
Proof. apply fe_eqb_eq. Qed.

Lemma tangent_on_curve (a b x y l : FieldElement) :
  (y * y = x * x * x + a * x + b)%fe ->
  (l * (y * FE 2) = x * x * FE 3 + a)%fe ->
  let x_new := (l * l - x - x)%fe in
  let y_new := (l * (x - x_new) - y)%fe in
  (y_new * y_new = x_new * x_new * x_new + a * x_new + b)%fe.
Proof.
  intros Hp Hl. rewrite FE_2_sum, FE_3_sum in Hl.
  assert (Ha : a = (l * (y * (1 + 1)) - x * x * (1 + 1 + 1))%fe)
    by (rewrite Hl; ring).
  assert (Hb : b = (y * y - x * x * x - a * x)%fe) by (rewrite Hp; ring).
  cbv zeta. rewrite Hb, Ha. ring.
Qed.

Lemma chord_on_curve (a b x1 y1 x2 y2 l : FieldElement) :
  (y1 * y1 = x1 * x1 * x1 + a * x1 + b)%fe ->
  (y2 * y2 = x2 * x2 * x2 + a * x2 + b)%fe ->
  x2 <> x1 ->
  (l * (x2 - x1) = y2 - y1)%fe ->
  let x_new := (l * l - x1 - x2)%fe in
  let y_new := (l * (x1 - x_new) - y1)%fe in
  (y_new * y_new = x_new * x_new * x_new + a * x_new + b)%fe.
Proof.
  intros Hp Hq Hx Hl.
  assert (Hy2 : y2 = (y1 + l * (x2 - x1))%fe) by (rewrite Hl; ring).
  subst y2.
  set (d := (x2 - x1)%fe) in *.
  set (E := ((1 + 1) * y1 * l + l * l * d - (1 + 1 + 1) * x1 * x1
             - (1 + 1 + 1) * x1 * d - d * d)%fe).
  assert (Hd : ((a - E) * d = 0)%fe).
  { transitivity (((x2 * x2 * x2 + a * x2 + b) - (x1 * x1 * x1 + a * x1 + b))
                  - ((y1 + l * d) * (y1 + l * d) - y1 * y1))%fe.
    - unfold E, d. ring.
    - rewrite <- Hp, <- Hq. ring. }
  assert (Ha : a = E).
  { apply fe_sub_eq_0.
    destruct (fe_mul_eq_0 _ _ Hd) as [H|H]; [exact H|].
    exfalso. apply Hx. apply fe_sub_eq_0. exact H. }
  assert (Hb : b = (y1 * y1 - x1 * x1 * x1 - a * x1)%fe) by (rewrite Hp; ring).
  cbv zeta. rewrite Hb, Ha. unfold E, d. ring.
Qed.

Lemma ec_add_valid (c : Curve) (p q r : ECPoint) :
  ec_valid c p -> ec_valid c q -> ec_add c p q = Ok r -> ec_valid c r.
Proof.
  intros Hp Hq H. unfold ec_add in H.
  destruct (is_infinity p) eqn:Ip; [injection H as <-; exact Hq|].
  destruct (is_infinity q) eqn:Iq; [injection H as <-; exact Hp|].
  destruct Hp as [Hp|Hp]; [congruence|].
  destruct Hq as [Hq|Hq]; [congruence|].
  apply on_curve_iff in Hp, Hq.
  destruct (fe_eqb (ec_x p) (ec_x q)) eqn:Ex;
    destruct (fe_eqb (ec_y p) (ec_y q)) eqn:Ey; cbn [andb negb] in H.
  - destruct (fe_div _ _) as [l|e] eqn:Hl; cbn [bind] in H; [|discriminate].
    injection H as <-. right. cbn [ec_x ec_y ECPoint_xy]. apply on_curve_iff.
    apply fe_eqb_eq in Ex. rewrite <- Ex.
    apply fe_div_ok in Hl as [_ Hl].
    apply (tangent_on_curve _ _ _ _ _ Hp Hl).
  - injection H as <-. left. reflexivity.
  - destruct (fe_div _ _) as [l|e] eqn:Hl; cbn [bind] in H; [|discriminate].
    injection H as <-. right. cbn [ec_x ec_y ECPoint_xy]. apply on_curve_iff.
    apply fe_eqb_neq in Ex. apply fe_div_ok in Hl as [_ Hl].
    apply (chord_on_curve _ _ _ _ _ _ _ Hp Hq); [congruence | exact Hl].
  - destruct (fe_div _ _) as [l|e] eqn:Hl; cbn [bind] in H; [|discriminate].
    injection H as <-. right. cbn [ec_x ec_y ECPoint_xy]. apply on_curve_iff.
    apply fe_eqb_neq in Ex. apply fe_div_ok in Hl as [_ Hl].
    apply (chord_on_curve _ _ _ _ _ _ _ Hp Hq); [congruence | exact Hl].
Qed.

(** X22: the sum of two points of the curve is a point of the curve:
    when both operands are the point at infinity or satisfy
    [y^2 = x^3 + a x + b], so does the point that [operator+] returns (its
    constructor prints no warning). *)
Theorem ec_add_closed (c : Curve) (p q r : ECPoint) :
  ec_valid c p -> ec_valid c q -> ec_add c p q = Ok r ->
  is_infinity r = true \/ on_curve c (ec_x r) (ec_y r) = true.
Proof. apply ec_add_valid. Qed.

(** X23: scalar multiplication at its edges: the scalar zero and the
    point at infinity give the point at infinity; the scalar one gives
    the point back, except that a point whose [y] is zero raises
    "Cannot invert zero", because the loop doubles its base once more
    than the product needs. *)
Theorem ec_mul_edges (c : Curve) (p : ECPoint) (scalar : Z) :
  ec_mul c p 0 = Ok ECPoint_infinity /\
  (is_infinity p = true -> ec_mul c p scalar = Ok ECPoint_infinity) /\
  (is_infinity p = false ->
   ec_mul c p 1
   = if fe_eqb (ec_y p) 0%fe then Err CannotInvertZero else Ok p).
Proof.
  split; [reflexivity|]. split.
  - intros Hp. unfold ec_mul. rewrite Hp. destruct scalar; reflexivity.
  - intros Hp. unfold ec_mul. rewrite Hp. cbn [ec_mul_loop].
    replace (ec_add c ECPoint_infinity p) with (Ok p) by reflexivity.
    cbn [bind].
    destruct (fe_eqb (ec_y p) 0%fe) eqn:Ey.
    + apply fe_eqb_eq in Ey.
      rewrite (ec_add_double_y_zero c p p) by auto. reflexivity.
    + apply fe_eqb_neq in Ey.
      destruct (ec_add_returns c p p) as [d ->]; [auto 6|]. reflexivity.
Qed.

Lemma ec_mul_loop_valid (c : Curve) (s : positive) :
  forall result base r,
    ec_valid c result -> ec_valid c base ->
    ec_mul_loop c s result base = Ok r -> ec_valid c r.
Proof.
  induction s as [s IH|s IH|]; intros result base r Hr Hb H;
    cbn [ec_mul_loop] in H.
  - destruct (ec_add c result base) as [result'|] eqn:H1; cbn [bind] in H;
      [|discriminate].
    destruct (ec_add c base base) as [base'|] eqn:H2; cbn [bind] in H;
      [|discriminate].
    apply (IH result' base' r); [| |exact H].
    + apply (ec_add_valid c result base); assumption.
    + apply (ec_add_valid c base base); assumption.
  - destruct (ec_add c base base) as [base'|] eqn:H2; cbn [bind] in H;
      [|discriminate].
    apply (IH result base' r); [exact Hr| |exact H].
    apply (ec_add_valid c base base); assumption.
  - destruct (ec_add c result base) as [result'|] eqn:H1; cbn [bind] in H;
      [|discriminate].
    destruct (ec_add c base base) as [base'|] eqn:H2; cbn [bind] in H;
      [|discriminate].
    injection H as <-. apply (ec_add_valid c result base); assumption.
Qed.

(** X24: a scalar multiple of a point of the curve, when it is returned,
    is the point at infinity or a point of the curve. *)
Theorem ec_mul_closed (c : Curve) (p r : ECPoint) (scalar : Z) :
  ec_valid c p -> ec_mul c p scalar = Ok r ->
  is_infinity r = true \/ on_curve c (ec_x r) (ec_y r) = true.
Proof.
  intros Hp H. unfold ec_mul in H.
  destruct scalar as [|s|s]; try (injection H as <-; left; reflexivity).
  destruct (is_infinity p) eqn:Ip; [injection H as <-; left; reflexivity|].
  apply (ec_mul_loop_valid c s ECPoint_infinity p r);
    [left; reflexivity | exact Hp | exact H].
Qed.

(** ** zksnark.h *)

Lemma nth_of_map_Ok {T : Type} (f : nat -> outcome T) (l : list T)
    (idxs : list nat) (d : T) :
  map Ok l = map f idxs ->
  length l = length idxs /\
  forall i, (i < length idxs)%nat -> f (nth i idxs 0%nat) = Ok (nth i l d).
Proof.
  intros Hmap.
  assert (Hlen : length l = length idxs).
  { apply (f_equal (@length _)) in Hmap. rewrite !length_map in Hmap.
    exact Hmap. }
  split; [exact Hlen|]. intros i Hi.
  apply (f_equal (fun l => nth i l (Ok d))) in Hmap.
  rewrite (map_nth (@Ok T)) in Hmap. rewrite Hmap.
  rewrite (nth_indep _ (Ok d) (f 0%nat)) by (rewrite length_map; exact Hi).
  rewrite (map_nth f). reflexivity.
Qed.

Lemma setup_queries_appends (qap : QAP) (tau_fe : FieldElement)
    (vars : list nat) :
  let query (polys : list Polynomial) (i : nat) :=
    ec_mul default_curve G (getValue (evaluate (nth i polys []) tau_fe)) in
  exists ga gb gc,
    map Ok ga = map (query (A_polys qap)) vars /\
    map Ok gb = map (query (B_polys qap)) vars /\
    map Ok gc = map (query (C_polys qap)) vars /\
    forall qa qb qc,
      setup_queries qap tau_fe vars qa qb qc
      = Ok (qa ++ ga, qb ++ gb, qc ++ gc).
Proof.
  cbv beta zeta. induction vars as [|i vars IH].
  - exists [], [], []. repeat split. intros qa qb qc. simpl.
    rewrite !app_nil_r. reflexivity.
  - destruct IH as (ga & gb & gc & HA & HB & HC & Hloop).
    destruct (G_mul_returns _ (value_fits
                (evaluate (nth i (A_polys qap) []) tau_fe))) as [a Ha].
    destruct (G_mul_returns _ (value_fits
                (evaluate (nth i (B_polys qap) []) tau_fe))) as [b Hb].
    destruct (G_mul_returns _ (value_fits
                (evaluate (nth i (C_polys qap) []) tau_fe))) as [c Hc].
    exists (a :: ga), (b :: gb), (c :: gc). cbn [map].
    split; [rewrite <- HA; f_equal; symmetry; exact Ha|].
    split; [rewrite <- HB; f_equal; symmetry; exact Hb|].
    split; [rewrite <- HC; f_equal; symmetry; exact Hc|].
    intros qa qb qc. cbn [setup_queries]. rewrite Ha, Hb, Hc. cbn [bind].
    rewrite Hloop, <- !app_assoc. reflexivity.
Qed.

(** X25: the keys of [setup] on default-constructed keys: each query
    vector of the proving key has one point per variable, the point of
    variable [i] being [G] times the value at [tau] of polynomial [i] of
    its family; [alpha], [beta], [delta] of the proving key are [G] times
    the drawn scalars and equal those of the verification key; [Z_query]
    stays empty. *)
Theorem setup_proving_key (qap : QAP) (r1cs : R1CS)
    (num_public_inputs : Z) (rnd : SetupRandomness) :
  0 <= num_public_inputs < 2147483647 ->
  setup_scalars_in_range rnd ->
  let query (polys : list Polynomial) (i : nat) :=
    ec_mul default_curve G
           (getValue (evaluate (nth i polys []) (FE (tau rnd)))) in
  exists pk vk,
    setup qap r1cs ProvingKey_new VerificationKey_new
          num_public_inputs rnd = Ok (pk, vk) /\
    length (pk_A_query pk) = Q_num_variables qap /\
    length (pk_B_query pk) = Q_num_variables qap /\
    length (pk_C_query pk) = Q_num_variables qap /\
    (forall i, (i < Q_num_variables qap)%nat ->
       query (A_polys qap) i = Ok (nth i (pk_A_query pk) ECPoint_infinity) /\
       query (B_polys qap) i = Ok (nth i (pk_B_query pk) ECPoint_infinity) /\
       query (C_polys qap) i = Ok (nth i (pk_C_query pk) ECPoint_infinity)) /\
    ec_mul default_curve G (alpha_scalar rnd) = Ok (pk_alpha pk) /\
    ec_mul default_curve G (beta_scalar rnd) = Ok (pk_beta pk) /\
    ec_mul default_curve G (delta_scalar rnd) = Ok (pk_delta pk) /\
    ec_mul default_curve G (gamma_scalar rnd) = Ok (vk_gamma vk) /\
    vk_alpha vk = pk_alpha pk /\ vk_beta vk = pk_beta pk /\
    vk_delta vk = pk_delta pk /\
    pk_Z_query pk = [].
Proof.
  intros Hn (Ht & Ha & Hb & Hg & Hd). cbv beta zeta.
  destruct (setup_queries_appends qap (FE (tau rnd))
              (seq 0 (Q_num_variables qap)))
    as (ga & gb & gc & HA & HB & HC & Hloop).
  destruct (nth_of_map_Ok _ _ _ ECPoint_infinity HA) as [HlA HnA].
  destruct (nth_of_map_Ok _ _ _ ECPoint_infinity HB) as [HlB HnB].
  destruct (nth_of_map_Ok _ _ _ ECPoint_infinity HC) as [HlC HnC].
  rewrite length_seq in *.
  destruct (G_mul_returns _ (random_scalar_fits _ Ha)) as [pa Hpa].
  destruct (G_mul_returns _ (random_scalar_fits _ Hb)) as [pb Hpb].
  destruct (G_mul_returns _ (random_scalar_fits _ Hg)) as [pg Hpg].
  destruct (G_mul_returns _ (random_scalar_fits _ Hd)) as [pd Hpd].
  destruct (setup_IC_appends (seq 0 (Z.to_nat (num_public_inputs + 1))))
    as (IC & _ & HIC).
  { intros i Hi. apply in_seq in Hi. lia. }
  unfold setup. cbn [ProvingKey_new VerificationKey_new pk_A_query
    pk_B_query pk_C_query pk_Z_query vk_IC].
  rewrite Hloop. cbn [bind app]. rewrite Hpa, Hpb, Hpd, Hpg. cbn [bind].
  rewrite HIC. cbn [bind].
  eexists _, _. split; [reflexivity|]. cbn.
  repeat (split; [first [assumption | reflexivity]|]).
  split; [|repeat (split; [first [assumption | reflexivity]|]); reflexivity].
  intros i Hi.
  specialize (HnA i Hi). specialize (HnB i Hi). specialize (HnC i Hi).
  rewrite seq_nth in HnA, HnB, HnC by exact Hi. cbn [Nat.add] in *.
  auto.
Qed.

Lemma prove_sum_zero_witness (query : list ECPoint) (n : nat)
    (idxs : list nat) :
  prove_sum query (repeat 0%fe n) idxs ECPoint_infinity = Ok ECPoint_infinity.
Proof.
  induction idxs as [|i idxs IH]; cbn [prove_sum]; [reflexivity|].
  destruct (i <? length query)%nat; [|exact IH].
  rewrite nth_repeat.
  replace (ec_mul default_curve (nth i query ECPoint_infinity)
                  (getValue 0%fe)) with (Ok ECPoint_infinity) by reflexivity.
  cbn [bind].
  replace (ec_add default_curve ECPoint_infinity ECPoint_infinity)
    with (Ok ECPoint_infinity) by reflexivity.
  cbn [bind]. exact IH.
Qed.

(** X26: on a QAP with [num_variables] polynomials in each family and the
    witness of [num_variables] zeros, [prove] does not depend on the query
    vectors: the proof is the triple of the blinding terms
    [alpha * r], [beta * s], [delta * (r * s)], and [prove] raises only if
    one of these three products does. *)
Theorem prove_zeros_blinding_only (qap : QAP) (pk : ProvingKey) (n : nat)
    (public_inputs : list FieldElement) (r s : Z) :
  QAP_shape qap ->
  n = Q_num_variables qap ->
  prove qap pk (repeat 0%fe n) public_inputs r s
  = (pA <- ec_mul default_curve (pk_alpha pk) r ;;
     pB <- ec_mul default_curve (pk_beta pk) s ;;
     pC <- ec_mul default_curve (pk_delta pk) ((r * s) mod 2 ^ 64) ;;
     Ok (mkProof pA pB pC)).
Proof.
  intros _ _.
  unfold prove. cbv zeta. rewrite !prove_sum_zero_witness. cbn [bind].
  destruct (ec_mul default_curve (pk_alpha pk) r) as [a|]; [|reflexivity].
  cbn [bind].
  replace (ec_add default_curve ECPoint_infinity a) with (Ok a) by reflexivity.
  cbn [bind].
  destruct (ec_mul default_curve (pk_beta pk) s) as [b|]; [|reflexivity].
  cbn [bind].
  replace (ec_add default_curve ECPoint_infinity b) with (Ok b) by reflexivity.
  cbn [bind].
  destruct (ec_mul default_curve (pk_delta pk) ((r * s) mod 2 ^ 64)) as [d|];
    [|reflexivity].
  reflexivity.
Qed.

Lemma fold_public_inputs_short (c : Curve) (IC : list ECPoint)
    (public_inputs : list FieldElement) (idxs : list nat) :
  (length IC <= 1)%nat ->
  forall vk_x, fold_public_inputs c IC public_inputs idxs vk_x = Ok vk_x.
Proof.
  intros H. induction idxs as [|i idxs IH]; intros vk_x;
    cbn [fold_public_inputs]; [reflexivity|].
  destruct (Nat.ltb_spec (i + 1) (length IC)); [lia | apply IH].
Qed.

Lemma fold_public_inputs_zero (c : Curve) (IC : list ECPoint)
    (public_inputs : list FieldElement) (idxs : list nat) :
  Forall (fun a => a = 0%fe) public_inputs ->
  forall vk_x, exists v,
    fold_public_inputs c IC public_inputs idxs vk_x = Ok v.
Proof.
  intros H. induction idxs as [|i idxs IH]; intros vk_x;
    cbn [fold_public_inputs]; [eauto|].
  destruct (i + 1 <? length IC)%nat; [|apply IH].
  assert (Hz : nth i public_inputs 0%fe = 0%fe).
  { destruct (Nat.lt_ge_cases i (length public_inputs)) as [Hi|Hi].
    - rewrite Forall_forall in H. apply H, nth_In, Hi.
    - apply nth_overflow, Hi. }
  rewrite Hz.
  replace (ec_mul c (nth (i + 1) IC ECPoint_infinity) (getValue 0%fe))
    with (Ok ECPoint_infinity) by reflexivity.
  cbn [bind].
  destruct (ec_add_returns c vk_x ECPoint_infinity) as [v ->]; [auto|].
  cbn [bind]. apply IH.
Qed.

(** X27: [verify] raises no error, and returns the boolean "none of the
    proof components is the point at infinity", whenever the key has at
    most one [IC] point or every public input is zero. *)
Theorem verify_returns (c : Curve) (vk : VerificationKey) (proof : Proof)
    (public_inputs : list FieldElement) :
  (length (vk_IC vk) <= 1)%nat \/
  Forall (fun a => a = 0%fe) public_inputs ->
  zkSNARK_verify c vk proof public_inputs
  = Ok (proof_components_finite proof).
Proof.
  intros H. unfold zkSNARK_verify, compute_vk_x.
  destruct H as [H|H].
  - rewrite fold_public_inputs_short by exact H. reflexivity.
  - destruct (fold_public_inputs_zero c (vk_IC vk) public_inputs
                (seq 0 (length public_inputs)) H
                match vk_IC vk with [] => ECPoint_infinity | ic0 :: _ => ic0 end)
      as [v ->].
    reflexivity.
Qed.

(** ** The further properties at concrete inputs *)

Lemma field_division_witness :
  exists q, fe_div (FE 6) (FE 3) = Ok q /\ (q * FE 3)%fe = FE 6 /\
    forall q', (q' * FE 3)%fe = FE 6 -> q' = q.
Proof.
  apply (proj2 (field_division (FE 6) (FE 3))).
  intros H. fe_discriminate.
Defined.

Lemma inverse_involution_witness :
  exists b, inverse (FE 3) = Ok b /\ b <> 0%fe /\ inverse b = Ok (FE 3).
Proof.
  apply (proj2 (inverse_involution (FE 3))).
  intros H. fe_discriminate.
Defined.

Lemma power_spec_witness :
  value (power (FE 3) 5) = (value (FE 3) ^ 5) mod SMALL_PRIME /\
  power (FE 3) 0 = 1%fe /\
  power (FE 3) 1 = FE 3 /\
  power (FE 3) (5 + 7) = (power (FE 3) 5 * power (FE 3) 7)%fe.
Proof.
  apply (power_spec (FE 3) 5 7); [lia | lia | vm_compute; reflexivity].
Defined.

Lemma power_inverse_witness :
  power (FE 3) (SMALL_PRIME - 1) = 1%fe /\
  inverse (FE 3) = Ok (power (FE 3) (SMALL_PRIME - 2)).
Proof.
  apply (power_inverse (FE 3)).
  intros H. fe_discriminate.
Defined.

Lemma basisPolynomial_delta_witness :
  exists L,
    basisPolynomial 1 [FE 1; FE 2; FE 3] = Ok L /\
    length L = length [FE 1; FE 2; FE 3] /\
    evaluate L (nth 1 [FE 1; FE 2; FE 3] 0%fe) = 1%fe /\
    forall i, (i < length [FE 1; FE 2; FE 3])%nat -> i <> 1%nat ->
      evaluate L (nth i [FE 1; FE 2; FE 3] 0%fe) = 0%fe.
Proof.
  apply (basisPolynomial_delta [FE 1; FE 2; FE 3] 1).
  - repeat constructor; simpl; intuition; fe_discriminate.
  - simpl. lia.
Defined.

Lemma basisPolynomial_raises_iff_witness :
  ((exists e, basisPolynomial 0 [FE 1; FE 1] = Err e) <->
   (exists i, (i < length [FE 1; FE 1])%nat /\ i <> 0%nat /\
              nth i [FE 1; FE 1] 0%fe = nth 0 [FE 1; FE 1] 0%fe)) /\
  (forall e, basisPolynomial 0 [FE 1; FE 1] = Err e -> e = CannotInvertZero).
Proof.
  apply (basisPolynomial_raises_iff [FE 1; FE 1] 0). simpl. lia.
Defined.

Lemma interpolate_outcomes_witness :
  exists p, interpolate [FE 1; FE 2] [FE 5; FE 7] = Ok p /\
            length p = Nat.max 1 (length [FE 1; FE 2]).
Proof.
  apply (proj1 (proj2 (proj2 (interpolate_outcomes [FE 1; FE 2]
                                [FE 5; FE 7])))).
  - reflexivity.
  - repeat constructor; simpl; intuition; fe_discriminate.
Defined.

Lemma target_polynomial_roots_witness :
  exists qap,
    fromR1CS scenario_A = Ok qap /\
    length (Z_poly qap) = 2%nat /\
    forall x,
      evaluate (Z_poly qap) x = 0%fe <->
      exists k, (k < 1)%nat /\ x = FE (Z.of_nat k + 1).
Proof.
  apply (target_polynomial_roots scenario_A).
  - unfold R1CS_shape, scenario_A; simpl.
    repeat split; repeat constructor.
  - simpl. lia.
Defined.

Lemma fromR1CS_invariant_witness :
  exists qap,
    fromR1CS scenario_A = Ok qap /\
    Q_num_variables qap = 3%nat /\
    length (A_polys qap) = 3%nat /\
    length (B_polys qap) = 3%nat /\
    length (C_polys qap) = 3%nat /\
    forall i k, (i < 3)%nat -> (k < 1)%nat ->
      evaluate (nth i (A_polys qap) []) (FE (Z.of_nat k + 1))
      = nth i (nth k (R_A scenario_A) []) 0%fe /\
      evaluate (nth i (B_polys qap) []) (FE (Z.of_nat k + 1))
      = nth i (nth k (R_B scenario_A) []) 0%fe /\
      evaluate (nth i (C_polys qap) []) (FE (Z.of_nat k + 1))
      = nth i (nth k (R_C scenario_A) []) 0%fe.
Proof.
  apply (fromR1CS_invariant scenario_A).
  - unfold R1CS_shape, scenario_A; simpl.
    repeat split; repeat constructor.
  - simpl. lia.
Defined.

Lemma setConstraint_shape_witness :
  exists r',
    setConstraint (R1CS_new 3 1) 0
      [FE 0; FE 1; FE 0] [FE 0; FE 1; FE 0] [FE 0; FE 0; FE 1] = Ok r' /\
    (length [FE 0; FE 1; FE 0] = 3%nat ->
     length [FE 0; FE 1; FE 0] = 3%nat ->
     length [FE 0; FE 0; FE 1] = 3%nat -> R1CS_shape r') /\
    (length [FE 0; FE 1; FE 0] <> 3%nat -> ~ R1CS_shape r').
Proof.
  apply (setConstraint_shape (R1CS_new 3 1) 0
           [FE 0; FE 1; FE 0] [FE 0; FE 1; FE 0] [FE 0; FE 0; FE 1]).
  - apply R1CS_new_shape.
  - simpl. lia.
Defined.

Lemma createCubicR1CS_spec_witness :
  exists r',
    createCubicR1CS (R1CS_new 5 3) (FE 3) (FE 35)
    = Ok (r', [FE 1; FE 3; FE 35; (FE 3 * FE 3)%fe;
               (FE 3 * FE 3 * FE 3)%fe]) /\
    R1CS_shape r' /\
    (R1CS_verify r' [FE 1; FE 3; FE 35; (FE 3 * FE 3)%fe;
                     (FE 3 * FE 3 * FE 3)%fe] = true <->
     FE 35 = (FE 3 * FE 3 * FE 3 + FE 3 + FE 5)%fe).
Proof.
  apply (proj1 (createCubicR1CS_spec (R1CS_new 5 3) (FE 3) (FE 35))).
  - apply R1CS_new_shape.
  - reflexivity.
  - reflexivity.
Defined.

Lemma ec_add_closed_witness :
  exists r,
    ec_add (mkCurve (FE 0) (FE 1))
           (ECPoint_xy (FE 0) (FE 1)) (ECPoint_xy (FE 2) (FE 3)) = Ok r /\
    (is_infinity r = true \/
     on_curve (mkCurve (FE 0) (FE 1)) (ec_x r) (ec_y r) = true).
Proof.
  eexists. split; [vm_compute; reflexivity|].
  apply (ec_add_closed (mkCurve (FE 0) (FE 1))
           (ECPoint_xy (FE 0) (FE 1)) (ECPoint_xy (FE 2) (FE 3))).
  - right. vm_compute. reflexivity.
  - right. vm_compute. reflexivity.
  - vm_compute. reflexivity.
Defined.

Lemma ec_mul_closed_witness :
  exists r,
    ec_mul (mkCurve (FE 0) (FE 1)) (ECPoint_xy (FE 2) (FE 3)) 5 = Ok r /\
    (is_infinity r = true \/
     on_curve (mkCurve (FE 0) (FE 1)) (ec_x r) (ec_y r) = true).
Proof.
  eexists. split; [vm_compute; reflexivity|].
  apply (ec_mul_closed (mkCurve (FE 0) (FE 1)) (ECPoint_xy (FE 2) (FE 3)) _ 5).
  - right. vm_compute. reflexivity.
  - vm_compute. reflexivity.
Defined.

Lemma verify_returns_witness :
  zkSNARK_verify default_curve (y_zero_key 1) finite_proof [FE 0; FE 0]
  = Ok (proof_components_finite finite_proof).
Proof.
  apply (verify_returns default_curve (y_zero_key 1) finite_proof
           [FE 0; FE 0]).
  right. repeat constructor.
Defined.

Lemma setup_proving_key_witness :
  exists pk vk,
    setup (mkQAP [[FE 0]; [FE 1]; [FE 0]] [[FE 0]; [FE 1]; [FE 0]]
                 [[FE 0]; [FE 0]; [FE 1]] [FE 2147483646; FE 1] 3)
          scenario_A ProvingKey_new VerificationKey_new 1
          (mkSetupRandomness 5 6 7 11 13) = Ok (pk, vk) /\
    length (pk_A_query pk) = 3%nat /\
    vk_alpha vk = pk_alpha pk /\
    pk_Z_query pk = [].
Proof.
  destruct (setup_proving_key
              (mkQAP [[FE 0]; [FE 1]; [FE 0]] [[FE 0]; [FE 1]; [FE 0]]
                     [[FE 0]; [FE 0]; [FE 1]] [FE 2147483646; FE 1] 3)
              scenario_A 1 (mkSetupRandomness 5 6 7 11 13))
    as (pk & vk & Hs & Hl & _ & _ & _ & _ & _ & _ & _ & Ha & _ & _ & HZ).
  - lia.
  - unfold setup_scalars_in_range, random_scalar_range, SMALL_PRIME.
    simpl. lia.
  - exists pk, vk. auto.
Defined.

(** * The constraint check and the entry-wise dot product *)

Lemma dot_terms (row : list FieldElement) : forall witness,
  length row = length witness ->
  map (fun j => (nth j row 0 * nth j witness 0)%fe) (seq 0 (length witness))
  = map (fun aw => (fst aw * snd aw)%fe) (combine row witness).
Proof.
  induction row as [|a row IH]; intros [|w witness] H;
    try discriminate H; [reflexivity|].
  cbn [length seq map combine fst snd nth]. f_equal.
  rewrite <- seq_shift, map_map.
  exact (IH witness (eq_add_S _ _ H)).
Qed.

(** On a row and a witness of [n] entries each, the inner loop of
    [verify] computes the dot product. *)
Lemma dot_dot_product (n : nat) (row witness : list FieldElement) :
  length row = n -> length witness = n ->
  dot n row witness = dot_product row witness.
Proof.
  intros Hr Hw. rewrite <- Hw in Hr. rewrite <- Hw.
  rewrite dot_as_sum. unfold dot_product.
  rewrite dot_terms by exact Hr. reflexivity.
Qed.

Lemma shaped_row (M : list (list FieldElement)) (m n i : nat) :
  length M = m /\ Forall (fun row : list FieldElement => length row = n) M ->
  (i < m)%nat -> length (nth i M []) = n.
Proof.
  intros [Hl HF] Hi. rewrite Forall_forall in HF.
  apply HF, nth_In. lia.
Qed.

Lemma row_equation_satisfied (r : R1CS) (witness : list FieldElement)
    (i : nat) :
  R1CS_shape r -> length witness = R_num_variables r ->
  (i < R_num_constraints r)%nat ->
  (row_equation r witness i <-> row_satisfied r witness i).
Proof.
  intros (HA & HB & HC) Hw Hi. unfold row_equation, row_satisfied.
  rewrite !dot_dot_product
    by first [exact Hw | eapply shaped_row; eassumption].
  reflexivity.
Qed.

(** C7: on a system of [num_constraints] rows of [num_variables] entries,
    [R1CS::verify] returns false when the witness length differs from
    [num_variables]; otherwise it returns true exactly when every row [i]
    has [(A_i . w) * (B_i . w) = (C_i . w)], the dot products taken entry
    by entry; and at the first unsatisfied row [i] it returns false having
    examined the rows [0 .. i] only. *)
Theorem R1CS_verify_spec (r : R1CS) (witness : list FieldElement) :
  R1CS_shape r ->
  (length witness <> R_num_variables r -> R1CS_verify r witness = false) /\
  (length witness = R_num_variables r ->
   (R1CS_verify r witness = true <->
    forall i, (i < R_num_constraints r)%nat -> row_satisfied r witness i)) /\
  (length witness = R_num_variables r ->
   forall i, (i < R_num_constraints r)%nat ->
     (forall k, (k < i)%nat -> row_satisfied r witness k) ->
     ~ row_satisfied r witness i ->
     R1CS_verify_run r witness = (false, seq 0 (S i))).
Proof.
  intros Hshape. split; [|split].
  - intros H. unfold R1CS_verify, R1CS_verify_run.
    destruct (Nat.eqb_spec (length witness) (R_num_variables r));
      [contradiction | reflexivity].
  - intros Hw. rewrite (R1CS_verify_true_iff r witness Hw).
    split; intros Hall i Hi;
      apply (row_equation_satisfied r witness i Hshape Hw Hi), Hall, Hi.
  - intros Hw i Hi Hbefore Hfail. unfold R1CS_verify_run.
    rewrite Hw, Nat.eqb_refl. cbn [negb].
    assert (E : seq 0 (R_num_constraints r)
                = seq 0 i ++ i :: seq (S i) (R_num_constraints r - S i)).
    { replace (R_num_constraints r)
        with (i + S (R_num_constraints r - S i))%nat at 1 by lia.
      rewrite seq_app. reflexivity. }
    rewrite E, seq_S. cbn [Nat.add].
    apply verify_rows_first_failure.
    + intros k Hk. apply in_seq in Hk. apply row_holds_iff.
      apply (row_equation_satisfied r witness k Hshape Hw); [lia|].
      apply Hbefore. lia.
    + destruct (row_holds r witness i) eqn:Hrow; [|reflexivity].
      exfalso. apply Hfail.
      apply (row_equation_satisfied r witness i Hshape Hw Hi).
      apply row_holds_iff, Hrow.
Qed.

(** * The protocol on the points of the curve *)

(** ** Curves without a point of order two *)

(** The formulas of [operator+] read the parameter [a] only. *)
Lemma ec_add_same_a (c c' : Curve) (p q : ECPoint) :
  curve_a c = curve_a c' -> ec_add c p q = ec_add c' p q.
Proof. intros H. unfold ec_add. rewrite H. reflexivity. Qed.

Lemma power_fermat (a : FieldElement) :
  a <> 0%fe -> power a (SMALL_PRIME - 1) = 1%fe.
Proof.
  intros Ha.
  assert (Hv : value a mod SMALL_PRIME <> 0).
  { rewrite value_mod. intros E. apply Ha, fe_eq. rewrite E. reflexivity. }
  apply fe_eq. rewrite power_value by (unfold SMALL_PRIME; lia).
  apply (Z.fermat_nz _ _ SMALL_PRIME_prime Hv).
Qed.

Lemma power_mul (a b : FieldElement) (e : Z) :
  0 <= e -> power (a * b) e = (power a e * power b e)%fe.
Proof.
  intros He. apply fe_eq. rewrite value_mul, !power_value by exact He.
  rewrite value_mul, Z.mod_pow_l, Z.pow_mul_l.
  apply Z.mul_mod. discriminate.
Qed.

(** A cube has the power [(SMALL_PRIME - 1) / 3] equal to one. *)
Lemma power_of_cube (x : FieldElement) :
  x <> 0%fe -> power (x * x * x) 715827882 = 1%fe.
Proof.
  intros Hx. rewrite !power_mul by lia.
  rewrite <- !power_add by lia.
  exact (power_fermat x Hx).
Qed.

(** When [- b] is not a cube, [y^2 = x^3 + b] has no point with
    [y = 0]. *)
Lemma not_a_cube_no_y_zero (b : FieldElement) :
  b <> 0%fe -> power (0 - b) 715827882 <> 1%fe ->
  curve_without_y_zero (mkCurve (FE 0) b).
Proof.
  intros Hb Hp x. destruct (on_curve (mkCurve (FE 0) b) x 0%fe) eqn:E;
    [|reflexivity].
  exfalso. apply on_curve_iff in E. cbn [curve_a curve_b] in E.
  change (FE 0) with 0%fe in E.
  assert (Hc : (x * x * x)%fe = (0 - b)%fe).
  { transitivity ((x * x * x + 0 * x + b) - b)%fe; [ring|].
    rewrite <- E. ring. }
  apply Hp. rewrite <- Hc. apply power_of_cube.
  intros ->. apply Hb.
  transitivity (0 - (0 - b))%fe; [ring|]. rewrite <- Hc. ring.
Qed.

Lemma default_curve_no_y_zero : curve_without_y_zero default_curve.
Proof.
  apply (not_a_cube_no_y_zero (FE 7)); intros H; fe_discriminate.
Qed.

Lemma generator_curve_no_y_zero : curve_without_y_zero generator_curve.
Proof.
  apply (not_a_cube_no_y_zero
           (ec_y G * ec_y G - ec_x G * ec_x G * ec_x G)%fe);
    intros H; fe_discriminate.
Qed.

Lemma G_on_generator_curve : ec_valid generator_curve G.
Proof. right. vm_compute. reflexivity. Qed.

Lemma infinity_valid (c : Curve) : ec_valid c ECPoint_infinity.
Proof. left. reflexivity. Qed.

(** ** The curve operations never raise there *)

Section OnCurve.

(** [c] holds the parameters in force; [cv] is a curve with the same [a]
    and without a point with [y = 0] on which the points lie. *)
Variables c cv : Curve.
Hypothesis same_a : curve_a c = curve_a cv.
Hypothesis no_y_zero : curve_without_y_zero cv.

Lemma ec_add_total (p q : ECPoint) :
  ec_valid cv p -> ec_valid cv q ->
  exists r, ec_add c p q = Ok r /\ ec_valid cv r.
Proof.
  intros Hp Hq. rewrite (ec_add_same_a c cv p q same_a).
  destruct (ec_add cv p q) as [r|e] eqn:E.
  - exists r. split; [reflexivity|]. exact (ec_add_valid cv p q r Hp Hq E).
  - exfalso.
    destruct (proj1 (ec_add_raises_iff cv p q) (ex_intro _ e E))
      as (Ip & _ & _ & _ & Hy).
    destruct Hp as [Hp|Hp]; [congruence|].
    rewrite Hy, no_y_zero in Hp. discriminate Hp.
Qed.

Lemma ec_mul_loop_total (s : positive) : forall result base,
  ec_valid cv result -> ec_valid cv base ->
  exists r, ec_mul_loop c s result base = Ok r /\ ec_valid cv r.
Proof.
  induction s as [s IH|s IH|]; intros result base Hr Hb;
    cbn [ec_mul_loop].
  - destruct (ec_add_total result base Hr Hb) as (result' & -> & Hr').
    destruct (ec_add_total base base Hb Hb) as (base' & -> & Hb').
    cbn [bind]. apply IH; assumption.
  - destruct (ec_add_total base base Hb Hb) as (base' & -> & Hb').
    cbn [bind]. apply IH; assumption.
  - destruct (ec_add_total result base Hr Hb) as (result' & -> & Hr').
    destruct (ec_add_total base base Hb Hb) as (base' & -> & Hb').
    cbn [bind]. exists result'. split; [reflexivity | exact Hr'].
Qed.

Lemma ec_mul_total (p : ECPoint) (scalar : Z) :
  ec_valid cv p ->
  exists r, ec_mul c p scalar = Ok r /\ ec_valid cv r.
Proof.
  intros Hp. unfold ec_mul.
  destruct scalar as [|s|s];
    try (exists ECPoint_infinity; split;
         [reflexivity | apply infinity_valid]).
  destruct (is_infinity p).
  - exists ECPoint_infinity. split; [reflexivity | apply infinity_valid].
  - apply ec_mul_loop_total; [apply infinity_valid | exact Hp].
Qed.

Lemma nth_valid (l : list ECPoint) (i : nat) :
  Forall (ec_valid cv) l -> ec_valid cv (nth i l ECPoint_infinity).
Proof.
  intros H. destruct (Nat.lt_ge_cases i (length l)) as [Hi|Hi].
  - rewrite Forall_forall in H. apply H, nth_In, Hi.
  - rewrite nth_overflow by exact Hi. apply infinity_valid.
Qed.

End OnCurve.

(** ** [setup], [prove] and [verify] never raise there *)

Lemma fold_public_inputs_total (c cv : Curve) (IC : list ECPoint)
    (public_inputs : list FieldElement) (idxs : list nat) :
  curve_a c = curve_a cv -> curve_without_y_zero cv ->
  Forall (ec_valid cv) IC ->
  forall vk_x, ec_valid cv vk_x ->
    exists v, fold_public_inputs c IC public_inputs idxs vk_x = Ok v /\
              ec_valid cv v.
Proof.
  intros Ha Hn HIC. induction idxs as [|i idxs IH]; intros vk_x Hv;
    cbn [fold_public_inputs].
  - exists vk_x. split; [reflexivity | exact Hv].
  - destruct (i + 1 <? length IC)%nat; [|apply IH, Hv].
    destruct (ec_mul_total c cv Ha Hn (nth (i + 1) IC ECPoint_infinity)
                (getValue (nth i public_inputs 0%fe)))
      as (term & -> & Ht); [apply nth_valid, HIC|].
    cbn [bind].
    destruct (ec_add_total c cv Ha Hn vk_x term Hv Ht) as (v & -> & Hv').
    cbn [bind]. apply IH, Hv'.
Qed.

Lemma verify_total (c cv : Curve) (vk : VerificationKey) (proof : Proof)
    (public_inputs : list FieldElement) :
  curve_a c = curve_a cv -> curve_without_y_zero cv ->
  key_on_curve cv vk ->
  zkSNARK_verify c vk proof public_inputs
  = Ok (proof_components_finite proof).
Proof.
  intros Ha Hn HIC. unfold zkSNARK_verify, compute_vk_x.
  destruct (fold_public_inputs_total c cv (vk_IC vk) public_inputs
              (seq 0 (length public_inputs)) Ha Hn HIC
              match vk_IC vk with [] => ECPoint_infinity | ic0 :: _ => ic0 end)
    as (v & -> & _); [|reflexivity].
  unfold key_on_curve in HIC.
  destruct (vk_IC vk) as [|ic0 IC]; [apply infinity_valid|].
  inversion HIC; assumption.
Qed.

Lemma prove_sum_total (cv : Curve) (query : list ECPoint)
    (witness : list FieldElement) (idxs : list nat) :
  curve_a default_curve = curve_a cv -> curve_without_y_zero cv ->
  Forall (ec_valid cv) query ->
  forall acc, ec_valid cv acc ->
    exists q, prove_sum query witness idxs acc = Ok q /\ ec_valid cv q.
Proof.
  intros Ha Hn Hq. induction idxs as [|i idxs IH]; intros acc Hacc;
    cbn [prove_sum].
  - exists acc. split; [reflexivity | exact Hacc].
  - destruct (i <? length query)%nat; [|apply IH, Hacc].
    destruct (ec_mul_total default_curve cv Ha Hn
                (nth i query ECPoint_infinity)
                (getValue (nth i witness 0%fe)))
      as (term & -> & Ht); [apply nth_valid, Hq|].
    cbn [bind].
    destruct (ec_add_total default_curve cv Ha Hn acc term Hacc Ht)
      as (acc' & -> & Hacc').
    cbn [bind]. apply IH, Hacc'.
Qed.

Lemma prove_total (cv : Curve) (qap : QAP) (pk : ProvingKey)
    (witness public_inputs : list FieldElement) (r s : Z) :
  curve_a default_curve = curve_a cv -> curve_without_y_zero cv ->
  proving_key_on_curve cv pk ->
  exists proof, prove qap pk witness public_inputs r s = Ok proof.
Proof.
  intros Ha Hn (HA & HB & HC & Hal & Hbe & Hde). unfold prove. cbv zeta.
  destruct (prove_sum_total cv (pk_A_query pk) witness
              (seq 0 (length witness)) Ha Hn HA ECPoint_infinity
              (infinity_valid cv)) as (sumA & -> & HsA).
  cbn [bind].
  destruct (ec_mul_total default_curve cv Ha Hn (pk_alpha pk) r Hal)
    as (blindA & -> & HbA).
  cbn [bind].
  destruct (ec_add_total default_curve cv Ha Hn sumA blindA HsA HbA)
    as (pA & -> & _).
  cbn [bind].
  destruct (prove_sum_total cv (pk_B_query pk) witness
              (seq 0 (length witness)) Ha Hn HB ECPoint_infinity
              (infinity_valid cv)) as (sumB & -> & HsB).
  cbn [bind].
  destruct (ec_mul_total default_curve cv Ha Hn (pk_beta pk) s Hbe)
    as (blindB & -> & HbB).
  cbn [bind].
  destruct (ec_add_total default_curve cv Ha Hn sumB blindB HsB HbB)
    as (pB & -> & _).
  cbn [bind].
  destruct (prove_sum_total cv (pk_C_query pk) witness
              (seq 0 (length witness)) Ha Hn HC ECPoint_infinity
              (infinity_valid cv)) as (sumC & -> & HsC).
  cbn [bind].
  destruct (ec_mul_total default_curve cv Ha Hn (pk_delta pk)
              ((r * s) mod 2 ^ 64) Hde)
    as (blindC & -> & HbC).
  cbn [bind].
  destruct (ec_add_total default_curve cv Ha Hn sumC blindC HsC HbC)
    as (pC & -> & _).
  cbn [bind]. eexists. reflexivity.
Qed.

(** Every multiple of the generator that [operator*] returns lies on the
    curve through the generator. *)
Lemma G_mul_valid (k : Z) (g : ECPoint) :
  ec_mul default_curve G k = Ok g -> ec_valid generator_curve g.
Proof.
  intros H.
  destruct (ec_mul_total default_curve generator_curve eq_refl
              generator_curve_no_y_zero G k G_on_generator_curve)
    as (g' & Hg & Hv).
  rewrite H in Hg. injection Hg as ->. exact Hv.
Qed.

Lemma Forall_snoc {T : Type} (P : T -> Prop) (l : list T) (x : T) :
  Forall P l -> P x -> Forall P (l ++ [x]).
Proof.
  intros Hl Hx. apply Forall_app. split; [exact Hl|].
  constructor; [exact Hx | constructor].
Qed.

Lemma setup_queries_valid (qap : QAP) (tau_fe : FieldElement)
    (vars : list nat) : forall qa qb qc qa' qb' qc',
  setup_queries qap tau_fe vars qa qb qc = Ok (qa', qb', qc') ->
  Forall (ec_valid generator_curve) qa ->
  Forall (ec_valid generator_curve) qb ->
  Forall (ec_valid generator_curve) qc ->
  Forall (ec_valid generator_curve) qa' /\
  Forall (ec_valid generator_curve) qb' /\
  Forall (ec_valid generator_curve) qc'.
Proof.
  induction vars as [|i vars IH]; intros qa qb qc qa' qb' qc' H Ha Hb Hc;
    cbn [setup_queries] in H.
  - injection H as <- <- <-. auto.
  - cbv zeta in H.
    destruct (ec_mul default_curve G
                (getValue (evaluate (nth i (A_polys qap) []) tau_fe)))
      as [ga|] eqn:Ea; cbn [bind] in H; [|discriminate].
    destruct (ec_mul default_curve G
                (getValue (evaluate (nth i (B_polys qap) []) tau_fe)))
      as [gb|] eqn:Eb; cbn [bind] in H; [|discriminate].
    destruct (ec_mul default_curve G
                (getValue (evaluate (nth i (C_polys qap) []) tau_fe)))
      as [gc|] eqn:Ec; cbn [bind] in H; [|discriminate].
    apply (IH _ _ _ _ _ _ H);
      apply Forall_snoc; first [assumption | eapply G_mul_valid; eassumption].
Qed.

Lemma setup_IC_valid (idxs : list nat) : forall IC IC',
  setup_IC idxs IC = Ok IC' ->
  Forall (ec_valid generator_curve) IC ->
  Forall (ec_valid generator_curve) IC'.
Proof.
  induction idxs as [|i idxs IH]; intros IC IC' H HIC;
    cbn [setup_IC] in H.
  - injection H as <-. exact HIC.
  - destruct (ec_mul default_curve G (Z.of_nat i + 1)) as [g|] eqn:E;
      cbn [bind] in H; [|discriminate].
    apply (IH _ _ H). apply Forall_snoc; [exact HIC|].
    exact (G_mul_valid _ _ E).
Qed.

(** The keys that [setup] returns on fresh keys hold points of the curve
    through the generator. *)
Lemma setup_keys_valid (qap : QAP) (r1cs : R1CS) (n : Z)
    (rnd : SetupRandomness) (pk : ProvingKey) (vk : VerificationKey) :
  setup qap r1cs ProvingKey_new VerificationKey_new n rnd = Ok (pk, vk) ->
  proving_key_on_curve generator_curve pk /\
  key_on_curve generator_curve vk.
Proof.
  intros H. unfold setup in H.
  destruct (setup_queries qap (FE (tau rnd)) (seq 0 (Q_num_variables qap))
              (pk_A_query ProvingKey_new) (pk_B_query ProvingKey_new)
              (pk_C_query ProvingKey_new))
    as [[[qa qb] qc]|] eqn:Eq; cbn [bind] in H; [|discriminate].
  destruct (ec_mul default_curve G (alpha_scalar rnd)) as [ga|] eqn:Ea;
    cbn [bind] in H; [|discriminate].
  destruct (ec_mul default_curve G (beta_scalar rnd)) as [gb|] eqn:Eb;
    cbn [bind] in H; [|discriminate].
  destruct (ec_mul default_curve G (delta_scalar rnd)) as [gd|] eqn:Ed;
    cbn [bind] in H; [|discriminate].
  destruct (ec_mul default_curve G (gamma_scalar rnd)) as [gg|] eqn:Eg;
    cbn [bind] in H; [|discriminate].
  destruct (setup_IC (seq 0 (Z.to_nat (n + 1))) (vk_IC VerificationKey_new))
    as [IC|] eqn:EIC; cbn [bind] in H; [|discriminate].
  injection H as <- <-.
  destruct (setup_queries_valid _ _ _ _ _ _ _ _ _ Eq) as (HA & HB & HC);
    try (cbn; constructor).
  unfold proving_key_on_curve, key_on_curve. cbn.
  repeat split; try assumption; try (eapply G_mul_valid; eassumption).
  apply (setup_IC_valid _ _ _ EIC). cbn. constructor.
Qed.

(** ** The decision of [verify] on the keys of the program *)

Lemma verify_on_program_keys (vk : VerificationKey) (proof : Proof)
    (public_inputs : list FieldElement) :
  key_on_curve default_curve vk \/ key_from_setup vk ->
  zkSNARK_verify default_curve vk proof public_inputs
  = Ok (proof_components_finite proof).
Proof.
  intros [H|(qap & r1cs & n & rnd & pk & _ & _ & H)].
  - exact (verify_total default_curve default_curve vk proof public_inputs
             eq_refl default_curve_no_y_zero H).
  - apply (verify_total default_curve generator_curve vk proof public_inputs
             eq_refl generator_curve_no_y_zero).
    exact (proj2 (setup_keys_valid qap r1cs n rnd pk vk H)).
Qed.

(** C3: for every verification key whose [IC] points are the point at
    infinity or points of the curve [y^2 = x^3 + 7], and for every key
    that [setup] returns, for every proof and public-input vector,
    [verify] returns a boolean, and it returns true if and only if none
    of [proof.A], [proof.B], [proof.C] is the point at infinity. *)
Theorem verify_decision (vk : VerificationKey) (proof : Proof)
    (public_inputs : list FieldElement) :
  key_on_curve default_curve vk \/ key_from_setup vk ->
  (exists valid : bool,
     zkSNARK_verify default_curve vk proof public_inputs = Ok valid) /\
  (zkSNARK_verify default_curve vk proof public_inputs = Ok true <->
   isInfinity (proof_A proof) = false /\
   isInfinity (proof_B proof) = false /\
   isInfinity (proof_C proof) = false).
Proof.
  intros Hkey.
  rewrite (verify_on_program_keys vk proof public_inputs Hkey).
  split; [eexists; reflexivity|].
  rewrite <- proof_components_finite_iff.
  split; [intros H; injection H; auto | intros ->; reflexivity].
Qed.

(** C4: for every such verification key and every proof, and for any two
    public-input vectors [p1] and [p2], [verify] returns the same boolean
    on [p1] and on [p2]: [vk_x] is computed and not used in the
    decision. *)
Theorem verify_ignores_public_inputs (vk : VerificationKey) (proof : Proof)
    (p1 p2 : list FieldElement) :
  key_on_curve default_curve vk \/ key_from_setup vk ->
  exists valid : bool,
    zkSNARK_verify default_curve vk proof p1 = Ok valid /\
    zkSNARK_verify default_curve vk proof p2 = Ok valid.
Proof.
  intros Hkey. exists (proof_components_finite proof).
  split; apply verify_on_program_keys; exact Hkey.
Qed.

(** The hypothesis on the key is needed: the point [(1, 0)] is not on the
    curve, and a key whose [IC] holds it makes [verify] raise when the
    fold into [vk_x] doubles it. *)
Lemma verify_off_curve_key_raises :
  on_curve default_curve (FE 1) (FE 0) = false /\
  zkSNARK_verify default_curve (y_zero_key 1) finite_proof [FE 1]
  = Err CannotInvertZero.
Proof. split; vm_compute; reflexivity. Qed.

(** ** Setup, prove and verify in sequence *)

(** C2, as the code has it: for every well-formed constraint system
    ([num_constraints] an [int]), every witness of [num_variables]
    entries, satisfying or not, every public-input vector and every draw
    of the scalars of [setup] and [prove]: [fromR1CS] returns a QAP,
    [setup] returns keys, [prove] returns a proof and [verify] returns a
    boolean on that proof, none of them raising; and [verify] returns
    true if and only if none of the three components of that proof is the
    point at infinity. *)
Theorem verify_after_prove (r1cs : R1CS)
    (witness public_inputs : list FieldElement)
    (rnd : SetupRandomness) (r s : Z) :
  R1CS_shape r1cs ->
  Z.of_nat (R_num_constraints r1cs) <= 2147483647 ->
  length witness = R_num_variables r1cs ->
  Z.of_nat (length public_inputs) < 2147483647 ->
  setup_scalars_in_range rnd ->
  random_scalar_range r -> random_scalar_range s ->
  exists qap pk vk proof,
    fromR1CS r1cs = Ok qap /\
    setup qap r1cs ProvingKey_new VerificationKey_new
          (Z.of_nat (length public_inputs)) rnd = Ok (pk, vk) /\
    prove qap pk witness public_inputs r s = Ok proof /\
    zkSNARK_verify default_curve vk proof public_inputs
    = Ok (proof_components_finite proof) /\
    run_protocol r1cs witness public_inputs rnd r s
    = Ok (proof_components_finite proof) /\
    (run_protocol r1cs witness public_inputs rnd r s = Ok true <->
     isInfinity (proof_A proof) = false /\
     isInfinity (proof_B proof) = false /\
     isInfinity (proof_C proof) = false).
Proof.
  intros _ Hm _ Hn Hrnd _ _.
  destruct (fromR1CS_spec r1cs Hm) as (qap & Hq & _).
  destruct (setup_returns (Z.of_nat (length public_inputs)))
    as (IC & _ & Hsetup); [lia|].
  destruct (Hsetup qap r1cs ProvingKey_new VerificationKey_new rnd Hrnd)
    as (pk & vk & Hs & _).
  destruct (setup_keys_valid qap r1cs _ rnd pk vk Hs) as [Hpk Hvk].
  destruct (prove_total generator_curve qap pk witness public_inputs r s
              eq_refl generator_curve_no_y_zero Hpk) as [proof Hp].
  assert (Hv : zkSNARK_verify default_curve vk proof public_inputs
               = Ok (proof_components_finite proof)).
  { exact (verify_total default_curve generator_curve vk proof
             public_inputs eq_refl generator_curve_no_y_zero Hvk). }
  assert (Hrun : run_protocol r1cs witness public_inputs rnd r s
                 = Ok (proof_components_finite proof)).
  { unfold run_protocol. rewrite Hq. cbn [bind]. rewrite Hs. cbn [bind].
    rewrite Hp. cbn [bind]. exact Hv. }
  exists qap, pk, vk, proof.
  repeat (split; [assumption|]).
  rewrite Hrun, <- proof_components_finite_iff.
  split; [intros H; injection H; auto | intros ->; reflexivity].
Qed.

(** ** These theorems at concrete inputs *)

Lemma R1CS_verify_spec_witness :
  R1CS_verify_run scenario_A witness_A_wrong = (false, [0%nat]).
Proof.
  refine (proj2 (proj2 (R1CS_verify_spec scenario_A witness_A_wrong _))
            eq_refl 0%nat _ _ _).
  - unfold R1CS_shape, scenario_A; simpl.
    repeat split; repeat constructor.
  - simpl. lia.
  - intros k Hk. lia.
  - unfold row_satisfied. intros H. fe_discriminate.
Defined.

Lemma verify_decision_witness :
  (exists valid : bool,
     zkSNARK_verify default_curve
       (mkVerificationKey G G G G
          [ECPoint_xy (FE 1) (FE 131072); ECPoint_xy (FE 1) (FE 131072)])
       finite_proof [FE 5] = Ok valid) /\
  (zkSNARK_verify default_curve
     (mkVerificationKey G G G G
        [ECPoint_xy (FE 1) (FE 131072); ECPoint_xy (FE 1) (FE 131072)])
     finite_proof [FE 5] = Ok true <->
   isInfinity (proof_A finite_proof) = false /\
   isInfinity (proof_B finite_proof) = false /\
   isInfinity (proof_C finite_proof) = false).
Proof.
  apply (verify_decision
           (mkVerificationKey G G G G
              [ECPoint_xy (FE 1) (FE 131072); ECPoint_xy (FE 1) (FE 131072)])
           finite_proof [FE 5]).
  left. unfold key_on_curve. cbn [vk_IC].
  constructor; [right; vm_compute; reflexivity|].
  constructor; [right; vm_compute; reflexivity|].
  constructor.
Defined.

Lemma verify_ignores_public_inputs_witness :
  exists valid : bool,
    zkSNARK_verify default_curve
      (mkVerificationKey G G G G
         [ECPoint_xy (FE 1) (FE 131072); ECPoint_xy (FE 1) (FE 131072)])
      finite_proof [] = Ok valid /\
    zkSNARK_verify default_curve
      (mkVerificationKey G G G G
         [ECPoint_xy (FE 1) (FE 131072); ECPoint_xy (FE 1) (FE 131072)])
      finite_proof [FE 5; FE 7] = Ok valid.
Proof.
  apply (verify_ignores_public_inputs
           (mkVerificationKey G G G G
              [ECPoint_xy (FE 1) (FE 131072); ECPoint_xy (FE 1) (FE 131072)])
           finite_proof [] [FE 5; FE 7]).
  left. unfold key_on_curve. cbn [vk_IC].
  constructor; [right; vm_compute; reflexivity|].
  constructor; [right; vm_compute; reflexivity|].
  constructor.
Defined.

Lemma verify_after_prove_witness :
  exists qap pk vk proof,
    fromR1CS scenario_A = Ok qap /\
    setup qap scenario_A ProvingKey_new VerificationKey_new
          (Z.of_nat (length [FE 9])) (mkSetupRandomness 5 6 7 11 13)
    = Ok (pk, vk) /\
    prove qap pk witness_A [FE 9] 17 19 = Ok proof /\
    zkSNARK_verify default_curve vk proof [FE 9]
    = Ok (proof_components_finite proof) /\
    run_protocol scenario_A witness_A [FE 9]
                 (mkSetupRandomness 5 6 7 11 13) 17 19
    = Ok (proof_components_finite proof) /\
    (run_protocol scenario_A witness_A [FE 9]
                  (mkSetupRandomness 5 6 7 11 13) 17 19 = Ok true <->
     isInfinity (proof_A proof) = false /\
     isInfinity (proof_B proof) = false /\
     isInfinity (proof_C proof) = false).
Proof.
  apply (verify_after_prove scenario_A witness_A [FE 9]
           (mkSetupRandomness 5 6 7 11 13) 17 19).
  - unfold R1CS_shape, scenario_A; simpl.
    repeat split; repeat constructor.
  - simpl. lia.
  - reflexivity.
  - simpl. lia.
  - unfold setup_scalars_in_range, random_scalar_range, SMALL_PRIME.
    simpl. lia.
  - unfold random_scalar_range, SMALL_PRIME. lia.
  - unfold random_scalar_range, SMALL_PRIME. lia.
Defined.

Lemma computePolynomials_linear_witness :
  let qap := mkQAP [[FE 0]; [FE 1]; [FE 0]] [[FE 0]; [FE 1]; [FE 0]]
                   [[FE 0]; [FE 0]; [FE 1]] [FE 2147483646; FE 1] 3 in
  let '(A_x, B_x, C_x) := computePolynomials qap witness_A in
  let weighted polys :=
    fe_sum (map (fun i => (evaluate (nth i polys []) (FE 2)
                           * nth i witness_A 0)%fe)
                (seq 0 (Q_num_variables qap))) in
  evaluate A_x (FE 2) = weighted (A_polys qap) /\
  evaluate B_x (FE 2) = weighted (B_polys qap) /\
  evaluate C_x (FE 2) = weighted (C_polys qap).
Proof.
  apply (computePolynomials_linear
           (mkQAP [[FE 0]; [FE 1]; [FE 0]] [[FE 0]; [FE 1]; [FE 0]]
                  [[FE 0]; [FE 0]; [FE 1]] [FE 2147483646; FE 1] 3)
           witness_A (FE 2)).
  - unfold QAP_shape. simpl. auto.
  - reflexivity.
Defined.

Lemma prove_zeros_blinding_only_witness :
  prove (mkQAP [[FE 0]; [FE 1]; [FE 0]] [[FE 0]; [FE 1]; [FE 0]]
               [[FE 0]; [FE 0]; [FE 1]] [FE 2147483646; FE 1] 3)
        (mkProvingKey [G; G; G] [G; G; G] [G; G; G] G G G [])
        (repeat 0%fe 3) [FE 9] 17 19
  = (pA <- ec_mul default_curve G 17 ;;
     pB <- ec_mul default_curve G 19 ;;
     pC <- ec_mul default_curve G ((17 * 19) mod 2 ^ 64) ;;
     Ok (mkProof pA pB pC)).
Proof.
  apply (prove_zeros_blinding_only
           (mkQAP [[FE 0]; [FE 1]; [FE 0]] [[FE 0]; [FE 1]; [FE 0]]
                  [[FE 0]; [FE 0]; [FE 1]] [FE 2147483646; FE 1] 3)
           (mkProvingKey [G; G; G] [G; G; G] [G; G; G] G G G [])
           3 [FE 9] 17 19).
  - unfold QAP_shape. simpl. auto.
  - reflexivity.
Defined.
